(** * catbox cache policy (lib/policy.js): a shallow embedding

    The development follows the source file top to bottom in three parts:
    - [Policy.ttl], the pure expiry calculator;
    - [Policy.compile], the rule compiler with its Joi schema;
    - the policy object itself ([get], [set], [drop], [_generate],
      [_callGenerateFunc], [internals.respond]) as an event-driven state
      machine whose callbacks are first-order closures.

    JavaScript numbers that the policy handles are integral millisecond
    counts; they are modelled by [Z].  [undefined] arguments are [None].
    How a string is read as a number or as a boolean is the business of
    the validation library and of the language; it is a parameter of the
    development ([conv], from [internals.schema] on).
    The definitions come first, the properties after them. *)

From Stdlib Require Import ZArith Lia List Bool String Ascii.
From stdpp Require Import base option list gmap strings fin_maps pretty.

Local Open Scope Z_scope.

(** ** JavaScript values that cross the policy's interface *)

Inductive jsval :=
| JUndefined
| JNull
| JBool (b : bool)
| JNum (z : Z)
| JStr (s : string)
| JFunc (f : nat)
| JObject (o : nat).

#[global] Instance jsval_eq_dec : EqDecision jsval.
Proof. solve_decision. Defined.

(** ToBoolean *)
Definition truthy (v : jsval) : bool :=
  match v with
  | JUndefined | JNull => false
  | JBool b => b
  | JNum z => negb (z =? 0)
  | JStr s => negb (String.eqb s "")
  | JFunc _ | JObject _ => true
  end.

(** ** The compiled rule *)

(** [rule.staleIn] is a number of milliseconds or a user function of
    [(stored, ttl)]. *)
Inductive staleRule :=
| StaleMs (ms : Z)
| StaleFn (f : nat).

(** Fields are [None] when the property is missing from the rule object.
    [generateTimeout] is [Some None] for the value [false]. *)
Record Rule := {
  expiresIn : option Z;
  expiresAt : option (Z * Z);              (* { hours, minutes } *)
  generateFunc : option nat;
  generateTimeout : option (option Z);
  staleIn : option staleRule;
  staleTimeout : option Z;
  dropOnError : option bool;
  pendingGenerateTimeout : option Z;
  generateOnReadError : option bool;
  generateIgnoreWriteError : option bool
}.

(** [const rule = {}] *)
Definition emptyRule : Rule :=
  {| expiresIn := None; expiresAt := None; generateFunc := None;
     generateTimeout := None; staleIn := None; staleTimeout := None;
     dropOnError := None; pendingGenerateTimeout := None;
     generateOnReadError := None; generateIgnoreWriteError := None |}.

(** ** internals.Policy.ttl *)

(** [internals.day] *)
Definition day : Z := 24 * 60 * 60 * 1000.

(** [a || b] on an optional number: [undefined] and [0] are falsy. *)
Definition num_or (a : option Z) (b : Z) : Z :=
  match a with
  | Some z => if z =? 0 then b else z
  | None => b
  end.

(** Truthiness of an optional number. *)
Definition num_truthy (a : option Z) : bool :=
  match a with
  | Some z => negb (z =? 0)
  | None => false
  end.

(** The host's civil clock in a zone with a fixed offset from UTC (in ms):
    [new Date(created)] followed by [setHours], [setMinutes],
    [setSeconds(0)], [setMilliseconds(0)] and [getTime()]. *)
Definition fixedZoneDate (offset created hours minutes : Z) : Z :=
  ((created + offset) `div` day) * day
  + hours * 3600000 + minutes * 60000 - offset.

Definition utcDate : Z -> Z -> Z -> Z := fixedZoneDate 0.

Section TTL.

(** [localDate created hours minutes]: what the [Date] object built from
    [created] reports after the four setters.  It depends on the host
    time zone, so it is left open here. *)
Variable localDate : Z -> Z -> Z -> Z.

(** [internals.Policy.ttl = function (rule, created, now)]; [clock] is the
    value [Date.now()] would return. *)
Definition ttl (rule : Rule) (created now : option Z) (clock : Z) : Z :=
  let now := num_or now clock in
  let created := num_or created now in
  let age := now - created in
  if age <? 0 then 0
  else if num_truthy (expiresIn rule) then
    Z.max (default 0 (expiresIn rule) - age) 0
  else
    match expiresAt rule with
    | Some (hours, minutes) =>
        if age >? day then 0
        else
          let expires := localDate created hours minutes in
          let expires := if expires <=? created then expires + day else expires in
          if now >=? expires then 0 else expires - now
    | None => 0
    end.

End TTL.

(** Rules used in the examples. *)
Definition ruleIn (ms : Z) : Rule :=
  {| expiresIn := Some ms; expiresAt := None; generateFunc := None;
     generateTimeout := None; staleIn := None; staleTimeout := None;
     dropOnError := None; pendingGenerateTimeout := None;
     generateOnReadError := Some true; generateIgnoreWriteError := Some true |}.

Definition ruleAt (h m : Z) : Rule :=
  {| expiresIn := None; expiresAt := Some (h, m); generateFunc := None;
     generateTimeout := None; staleIn := None; staleTimeout := None;
     dropOnError := None; pendingGenerateTimeout := None;
     generateOnReadError := Some true; generateIgnoreWriteError := Some true |}.

(** ** internals.schema and internals.Policy.compile *)

(** The options object: a JavaScript object used as a map from property
    names to values. *)
Abbreviation options := (gmap string jsval).

(** [options.k]: a missing property reads as [undefined]. *)
Definition prop (o : options) (k : string) : jsval := default JUndefined (o !! k).

Definition is_undefined (v : jsval) : bool :=
  match v with JUndefined => true | _ => false end.

Definition is_function (v : jsval) : bool :=
  match v with JFunc _ => true | _ => false end.

(** Joi counts a key as present when its value is not [undefined]. *)
Definition present (o : options) (k : string) : bool := negb (is_undefined (prop o k)).

(** [\d] *)
Definition is_digit (c : ascii) : bool :=
  let n := nat_of_ascii c in (48 <=? n)%nat && (n <=? 57)%nat.

Definition is_colon (c : ascii) : bool := (nat_of_ascii c =? 58)%nat.

(** [/^(\d\d?):(\d\d)$/.exec(s)]: the two captured groups, or [None]
    for JavaScript's [null].  The schema's [/^\d\d?\:\d\d$/] accepts the
    same strings. *)
Definition exec_time (s : string) : option (string * string) :=
  match s with
  | String h1 (String c (String m1 (String m2 EmptyString))) =>
      if is_digit h1 && is_colon c && is_digit m1 && is_digit m2
      then Some (String h1 EmptyString, String m1 (String m2 EmptyString))
      else None
  | String h1 (String h2 (String c (String m1 (String m2 EmptyString)))) =>
      if is_digit h1 && is_digit h2 && is_colon c && is_digit m1 && is_digit m2
      then Some (String h1 (String h2 EmptyString), String m1 (String m2 EmptyString))
      else None
  | _ => None
  end.

(** [parseInt(s, 10)] on a string of decimal digits. *)
Fixpoint parseInt_from (acc : Z) (s : string) : Z :=
  match s with
  | EmptyString => acc
  | String c rest => parseInt_from (10 * acc + (Z.of_nat (nat_of_ascii c) - 48)) rest
  end.

Definition parseInt : string -> Z := parseInt_from 0.

(** *** Strings where a number or a boolean is expected

    [Joi.assert] validates a converted copy of the options: under
    [Joi.number()] a string that spells a number passes, under
    [Joi.boolean()] a string that spells a boolean does.  [compile] then
    goes on with the options as they were given, strings included, and
    JavaScript reads such a string as a number where the code computes or
    compares with it.  Which strings spell what is fixed by Joi and by the
    language, not by this file: *)
Record Conversions := {
  (* the integer that the string spells, if it spells one: the value
     [Joi.number()] converts it to, which is the value of ToNumber *)
  str_number : string -> option Z;
  (* whether [Joi.boolean()] takes the string for a boolean *)
  str_boolean : string -> bool
}.

(** A reading for the examples: a string of decimal digits spells its
    number, ["true"] and ["false"] spell the booleans. *)
Fixpoint all_digits (s : string) : bool :=
  match s with
  | EmptyString => true
  | String c rest => is_digit c && all_digits rest
  end.

Definition decimal (s : string) : option Z :=
  if all_digits s then Some (parseInt s) else None.

Definition plain : Conversions :=
  {| str_number := decimal;
     str_boolean := fun s => String.eqb s "true" || String.eqb s "false" |}.

(** [Number.MAX_SAFE_INTEGER] *)
Definition max_safe_integer : Z := 2 ^ 53 - 1.

Section Host.

Variable conv : Conversions.

(** ToNumber of a string, where the result is an integer; the empty
    string reads as 0. *)
Definition string_number (s : string) : option Z :=
  if String.eqb s "" then Some 0 else str_number conv s.

(** [Joi.number().integer()]: the value that is validated - the number
    itself, or the number a string converts to - when it is a safe integer. *)
Definition joi_integer (v : jsval) : option Z :=
  let safe (z : Z) :=
    if (- max_safe_integer <=? z) && (z <=? max_safe_integer) then Some z else None in
  match v with
  | JNum z => safe z
  | JStr s => string_number s ≫= safe
  | _ => None
  end.

(** The Joi types of the schema's keys. *)
Definition joi_integer_min1 (v : jsval) : bool :=        (* Joi.number().integer().min(1) *)
  match joi_integer v with Some z => 1 <=? z | None => false end.

Definition joi_expiresAt (v : jsval) : bool :=            (* Joi.string().regex(...) *)
  match v with JStr s => bool_decide (is_Some (exec_time s)) | _ => false end.

Definition joi_staleIn (v : jsval) : bool :=              (* [number 1..86400000-1, func] *)
  match v with
  | JFunc _ => true
  | _ => match joi_integer v with
         | Some z => (1 <=? z) && (z <=? 86400000 - 1)
         | None => false
         end
  end.

Definition joi_func (v : jsval) : bool := is_function v.

Definition joi_generateTimeout (v : jsval) : bool :=      (* ...min(1).allow(false) *)
  match v with JBool false => true | _ => joi_integer_min1 v end.

Definition joi_boolean (v : jsval) : bool :=              (* Joi.boolean() *)
  match v with JBool _ => true | JStr s => str_boolean conv s | _ => false end.

Definition joi_any (v : jsval) : bool := true.

(** [internals.schema]'s keys; any other key is refused. *)
Definition schema_keys : list (string * (jsval -> bool)) :=
  [ ("expiresIn", joi_integer_min1);
    ("expiresAt", joi_expiresAt);
    ("staleIn", joi_staleIn);
    ("staleTimeout", joi_integer_min1);
    ("generateFunc", joi_func);
    ("generateTimeout", joi_generateTimeout);
    ("generateOnReadError", joi_boolean);
    ("generateIgnoreWriteError", joi_boolean);
    ("dropOnError", joi_boolean);
    ("pendingGenerateTimeout", joi_integer_min1);
    ("privacy", joi_any);
    ("cache", joi_any);
    ("segment", joi_any);
    ("shared", joi_any) ]%string.

Fixpoint schema_type (ks : list (string * (jsval -> bool))) (k : string)
  : option (jsval -> bool) :=
  match ks with
  | [] => None
  | (k', t) :: ks => if String.eqb k k' then Some t else schema_type ks k
  end.

(** One property against the schema: unknown keys fail, [undefined] values
    are skipped (all keys are optional). *)
Definition key_ok (kv : string * jsval) : bool :=
  match schema_type schema_keys kv.1 with
  | Some t => is_undefined kv.2 || t kv.2
  | None => false
  end.

(** [.without(a, b)], [.with(a, b)], [.and(a, b)] *)
Definition joi_without (o : options) (a b : string) : bool :=
  negb (present o a) || negb (present o b).
Definition joi_with (o : options) (a b : string) : bool :=
  negb (present o a) || present o b.
Definition joi_and (o : options) (a b : string) : bool :=
  Bool.eqb (present o a) (present o b).

(** [Joi.assert(options, internals.schema, ...)] does not throw. *)
Definition schema_ok (o : options) : bool :=
  forallb key_ok (map_to_list o)
  && joi_without o "expiresIn" "expiresAt"
  && joi_with o "staleIn" "generateFunc"
  && joi_with o "generateOnReadError" "generateFunc"
  && joi_with o "generateIgnoreWriteError" "generateFunc"
  && joi_with o "dropOnError" "generateFunc"
  && joi_and o "generateFunc" "generateTimeout"
  && joi_and o "staleIn" "staleTimeout".

(** ToNumber on the values that reach a comparison; [None] is NaN. *)
Definition to_number (v : jsval) : option Z :=
  match v with
  | JNum z => Some z
  | JNull => Some 0
  | JBool b => Some (if b then 1 else 0)
  | JStr s => string_number s
  | _ => None
  end.

(** [a < b]: two strings are compared as strings, character by character;
    anything else is compared as numbers.  [a < (b - c)]: the right-hand
    side is a number. *)
Definition js_lt (a b : jsval) : bool :=
  match a, b with
  | JStr s, JStr t => String.ltb s t
  | _, _ =>
      match to_number a, to_number b with
      | Some x, Some y => x <? y
      | _, _ => false
      end
  end.

Definition js_lt_diff (a b c : jsval) : bool :=
  match to_number a, to_number b, to_number c with
  | Some x, Some y, Some z => x <? y - z
  | _, _, _ => false
  end.

Definition is_string (v : jsval) : bool :=
  match v with JStr _ => true | _ => false end.

(** [Hoek.isInteger] *)
Definition isInteger (v : jsval) : bool :=
  match v with JNum _ => true | _ => false end.

Inductive result (A : Type) :=
| Ok (a : A)
| Throws (message : string).
#[global] Arguments Ok {A} a.
#[global] Arguments Throws {A} message.

(** The seven [Hoek.assert] lines of [compile], in order; [None] when all
    hold, else the message of the first that fails. *)
Definition compile_asserts (o : options) (serverSide : bool) : option string :=
  let hasExpiresIn := negb (is_undefined (prop o "expiresIn"))
                      && negb (bool_decide (prop o "expiresIn" = JNull)) in
  let hasExpiresAt := negb (is_undefined (prop o "expiresAt"))
                      && negb (bool_decide (prop o "expiresAt" = JNull)) in
  let staleIn := prop o "staleIn" in
  let staleTimeout := prop o "staleTimeout" in
  if negb (negb hasExpiresAt || is_string (prop o "expiresAt")) then
    Some "expiresAt must be a string"
  else if negb (negb hasExpiresIn || isInteger (prop o "expiresIn")) then
    Some "expiresIn must be an integer"
  else if negb (negb hasExpiresIn || negb (truthy staleIn) || is_function staleIn
                || js_lt staleIn (prop o "expiresIn")) then
    Some "staleIn must be less than expiresIn"
  else if negb (negb (truthy staleIn) || serverSide) then
    Some "Cannot use stale options without server-side caching"
  else if negb (negb (truthy staleTimeout) || negb hasExpiresIn
                || js_lt staleTimeout (prop o "expiresIn")) then
    Some "staleTimeout must be less than expiresIn"
  else if negb (negb (truthy staleTimeout) || negb hasExpiresIn || is_function staleIn
                || js_lt_diff staleTimeout (prop o "expiresIn") staleIn) then
    Some "staleTimeout must be less than the delta between expiresIn and staleIn"
  else if negb (negb (truthy staleTimeout) || negb (truthy (prop o "pendingGenerateTimeout"))
                || js_lt staleTimeout (prop o "pendingGenerateTimeout")) then
    Some "pendingGenerateTimeout must be greater than staleTimeout if specified"
  else None.

(** Reading validated option values into the rule's typed fields; the
    schema has already refused every other shape.  The rule object keeps
    the option as it was given.  Where that is a string, the typed field
    holds what the policy's code makes of it: the number it reads in
    arithmetic, comparisons and timer delays, and for a switch its
    truthiness, which is all the code tests (so ["false"] counts as set). *)
Definition as_int (v : jsval) : option Z :=
  match v with JNum z => Some z | JStr s => string_number s | _ => None end.
Definition as_func (v : jsval) : option nat :=
  match v with JFunc f => Some f | _ => None end.
Definition as_bool (v : jsval) : option bool :=
  match v with JBool b => Some b | JStr s => Some (truthy (JStr s)) | _ => None end.
Definition as_timeout (v : jsval) : option (option Z) :=
  match v with
  | JBool false => Some None
  | JNum _ | JStr _ => Some <$> as_int v
  | _ => None
  end.
Definition as_stale (v : jsval) : option staleRule :=
  match v with
  | JFunc f => Some (StaleFn f)
  | JNum _ | JStr _ => StaleMs <$> as_int v
  | _ => None
  end.

(** [options.k !== undefined ? options.k : d] for a boolean option *)
Definition bool_or_default (v : jsval) (d : bool) : option bool :=
  if is_undefined v then Some d else as_bool v.

(** [internals.Policy.compile = function (options, serverSide)];
    [options] is [None] for a missing (falsy) argument. *)
Definition compile (opts : option options) (serverSide : bool) : result Rule :=
  match opts with
  | None => Ok emptyRule
  | Some o =>
      if (size o =? 0)%nat then Ok emptyRule
      else if negb (schema_ok o) then Throws "Invalid cache policy configuration"
      else
        match compile_asserts o serverSide with
        | Some msg => Throws msg
        | None =>
            let hasExpiresAt := negb (is_undefined (prop o "expiresAt"))
                                && negb (bool_decide (prop o "expiresAt" = JNull)) in
            let time :=
              match prop o "expiresAt" with
              | JStr s => exec_time s
              | _ => None
              end in
            if hasExpiresAt && negb (bool_decide (is_Some time)) then
              Throws "TypeError: Cannot read property '1' of null"
            else
              let withGen := truthy (prop o "generateFunc") in
              let withStale := withGen && truthy (prop o "staleIn") in
              Ok {| expiresAt :=
                      if hasExpiresAt
                      then (fun t => (parseInt t.1, parseInt t.2)) <$> time
                      else None;
                    expiresIn :=
                      if hasExpiresAt then None
                      else if truthy (prop o "expiresIn")
                           then as_int (prop o "expiresIn") else Some 0;
                    generateFunc :=
                      if withGen then as_func (prop o "generateFunc") else None;
                    generateTimeout :=
                      if withGen then as_timeout (prop o "generateTimeout") else None;
                    staleIn :=
                      if withStale then as_stale (prop o "staleIn") else None;
                    staleTimeout :=
                      if withStale then as_int (prop o "staleTimeout") else None;
                    dropOnError :=
                      if withGen then bool_or_default (prop o "dropOnError") true else None;
                    pendingGenerateTimeout :=
                      if withGen
                      then (if is_undefined (prop o "pendingGenerateTimeout") then Some 0
                            else as_int (prop o "pendingGenerateTimeout"))
                      else None;
                    generateOnReadError :=
                      bool_or_default (prop o "generateOnReadError") true;
                    generateIgnoreWriteError :=
                      bool_or_default (prop o "generateIgnoreWriteError") true |}
        end
  end.

(** ** The policy object *)

(** Error values are opaque; an [err] argument is [None] when it is falsy
    ([null] or [undefined]). *)
Definition error := string.

(** An id: the scalar that names a cache item. *)
Inductive ident :=
| IdUndefined
| IdNull
| IdStr (s : string)
| IdNum (z : Z).

(** A key is an id or an object [{ id, ... }] with further fields. *)
Inductive key :=
| KId (i : ident)
| KObj (id : ident) (rest : nat).

(** [(key && typeof key === 'object') ? key.id : key] *)
Definition key_id (k : key) : ident :=
  match k with
  | KId i => i
  | KObj i _ => i
  end.

(** [!!id] *)
Definition id_truthy (i : ident) : bool :=
  match i with
  | IdUndefined | IdNull => false
  | IdStr s => negb (String.eqb s "")
  | IdNum z => negb (z =? 0)
  end.

(** ['+' + id] *)
Definition id_string (i : ident) : string :=
  match i with
  | IdUndefined => "undefined"
  | IdNull => "null"
  | IdStr s => s
  | IdNum z => pretty z
  end.

Definition pendingsId (i : ident) : string := "+" +:+ id_string i.

(** A number that may be NaN ([cached.ttl] after the stale adjustment). *)
Inductive number :=
| Num (z : Z)
| NaN.

(** [a - b] where [b] may be [undefined] *)
Definition number_minus (a : number) (b : option Z) : number :=
  match a, b with
  | Num x, Some y => Num (x - y)
  | _, _ => NaN
  end.

(** [a > 0] *)
Definition number_pos (a : number) : bool :=
  match a with
  | Num x => 0 <? x
  | NaN => false
  end.

(** What the backend's [get] hands to its callback. *)
Record entry := {
  e_item : jsval;
  e_stored : Z;
  e_ttl : Z
}.

(** The same object once the policy holds it: it is shared by reference
    between the policy, its timers and the waiters, and the policy writes
    [isStale] and [ttl] into it. *)
Record cachedObj := {
  c_item : jsval;
  c_stored : Z;
  c_ttl : number;
  c_isStale : option bool
}.

(** The per-get report; optional fields are [None] while unset. *)
Record Report := {
  r_msec : Z;
  r_error : option error;
  r_stored : option Z;
  r_ttl : option number;
  r_isStale : option bool
}.

(** An element of a pendings list: the callback, bound to the domain that
    was active when it was pushed (the first one is stored unbound). *)
Record waiter := {
  w_callback : nat;
  w_domain : option nat
}.

(** The arguments [(err, value, cached, report)] a waiter is called with;
    [cached] is a reference into the heap of cached objects. *)
Record completion := {
  d_err : option error;
  d_value : jsval;
  d_cached : option nat;
  d_report : Report
}.

(** The [callback] parameter of [set] and [drop]. *)
Inductive callback :=
| CbIgnore                                          (* Hoek.ignore *)
| CbUser (f : nat)
| CbFinalize (once : nat) (id : ident) (generateError : option error)
             (value : jsval) (cached : option nat) (report : Report).

(** The arrow functions the policy hands to the backend, to timers and to
    [generateFunc], with the variables they capture. *)
Inductive closure :=
| OnGet (id : ident) (k : key)
| OnStaleTimeout (once : nat) (id : ident) (cached : nat) (report : Report)
| OnGenerateTimeout (once : nat) (id : ident) (report : Report)
| OnPendingTimeout (pendingId : string)
| OnGenerated (once : nat) (id : ident) (k : key) (cached : option nat) (report : Report)
| OnThrow (once : nat) (id : ident) (report : Report)     (* the catch clause of _generate *)
| OnBackendDone (cb : callback).

#[global] Instance ident_eq_dec : EqDecision ident.
Proof. solve_decision. Defined.
#[global] Instance key_eq_dec : EqDecision key.
Proof. solve_decision. Defined.
#[global] Instance number_eq_dec : EqDecision number.
Proof. solve_decision. Defined.
#[global] Instance Report_eq_dec : EqDecision Report.
Proof. solve_decision. Defined.
#[global] Instance callback_eq_dec : EqDecision callback.
Proof. solve_decision. Defined.
#[global] Instance closure_eq_dec : EqDecision closure.
Proof. solve_decision. Defined.

(** What the policy does to the outside world, in order.  A [NextTick]
    also records the pendings entry its waiter was taken from. *)
Inductive effect :=
| BackendGet (id : ident) (k : closure)                   (* _cache.get({ segment, id }, k) *)
| BackendSet (id : ident) (value : jsval) (ttl : Z) (k : closure)
| BackendDrop (id : ident) (k : closure)
| TickCall (k : closure)                                  (* Hoek.nextTick(k)(null, null) *)
| NextTick (pendingsId : string) (w : waiter) (c : completion)
                                                          (* Hoek.nextTick(pendings[i])(...) *)
| SetTimeout (k : closure) (delay : option Z)
| CallGenerate (f : nat) (k : key) (next : closure) (catch : closure)
| CallUser (f : nat) (err : option error).

Record Stats := {
  sets : nat;
  gets : nat;
  hits : nat;
  stales : nat;
  generates : nat;
  errors : nat
}.

Inductive counter := Sets | Gets | Hits | Stales | Generates | Errors.

Definition bump (c : counter) (n : nat) (s : Stats) : Stats :=
  match c with
  | Sets => {| sets := sets s + n; gets := gets s; hits := hits s; stales := stales s;
               generates := generates s; errors := errors s |}
  | Gets => {| sets := sets s; gets := gets s + n; hits := hits s; stales := stales s;
               generates := generates s; errors := errors s |}
  | Hits => {| sets := sets s; gets := gets s; hits := hits s + n; stales := stales s;
               generates := generates s; errors := errors s |}
  | Stales => {| sets := sets s; gets := gets s; hits := hits s; stales := stales s + n;
                 generates := generates s; errors := errors s |}
  | Generates => {| sets := sets s; gets := gets s; hits := hits s; stales := stales s;
                    generates := generates s + n; errors := errors s |}
  | Errors => {| sets := sets s; gets := gets s; hits := hits s; stales := stales s;
                 generates := generates s; errors := errors s + n |}
  end%nat.

(** The policy instance.  [heap] holds the cached objects received from
    the backend, [onces] the flags of the [Hoek.once] wrappers, [effects]
    the calls made so far (oldest first). *)
Record Policy := {
  _cache : bool;
  rule : Rule;
  _pendings : gmap string (list waiter);
  _pendingGenerateCall : gmap string bool;
  stats : Stats;
  heap : list cachedObj;
  onces : list bool;
  effects : list effect
}.

Definition with_rule (r : Rule) (p : Policy) : Policy :=
  {| _cache := _cache p; rule := r; _pendings := _pendings p;
     _pendingGenerateCall := _pendingGenerateCall p; stats := stats p;
     heap := heap p; onces := onces p; effects := effects p |}.

Definition with_pendings (f : gmap string (list waiter) -> gmap string (list waiter))
    (p : Policy) : Policy :=
  {| _cache := _cache p; rule := rule p; _pendings := f (_pendings p);
     _pendingGenerateCall := _pendingGenerateCall p; stats := stats p;
     heap := heap p; onces := onces p; effects := effects p |}.

Definition with_pendingGenerateCall (f : gmap string bool -> gmap string bool)
    (p : Policy) : Policy :=
  {| _cache := _cache p; rule := rule p; _pendings := _pendings p;
     _pendingGenerateCall := f (_pendingGenerateCall p); stats := stats p;
     heap := heap p; onces := onces p; effects := effects p |}.

Definition with_stats (f : Stats -> Stats) (p : Policy) : Policy :=
  {| _cache := _cache p; rule := rule p; _pendings := _pendings p;
     _pendingGenerateCall := _pendingGenerateCall p; stats := f (stats p);
     heap := heap p; onces := onces p; effects := effects p |}.

Definition with_heap (f : list cachedObj -> list cachedObj) (p : Policy) : Policy :=
  {| _cache := _cache p; rule := rule p; _pendings := _pendings p;
     _pendingGenerateCall := _pendingGenerateCall p; stats := stats p;
     heap := f (heap p); onces := onces p; effects := effects p |}.

Definition with_onces (f : list bool -> list bool) (p : Policy) : Policy :=
  {| _cache := _cache p; rule := rule p; _pendings := _pendings p;
     _pendingGenerateCall := _pendingGenerateCall p; stats := stats p;
     heap := heap p; onces := f (onces p); effects := effects p |}.

Definition with_effects (f : list effect -> list effect) (p : Policy) : Policy :=
  {| _cache := _cache p; rule := rule p; _pendings := _pendings p;
     _pendingGenerateCall := _pendingGenerateCall p; stats := stats p;
     heap := heap p; onces := onces p; effects := f (effects p) |}.

(** *** Statements: state passing with exceptions

    A statement transforms the policy and either completes or throws; what
    it changed before throwing stays changed. *)
Definition M (A : Type) : Type := Policy -> result A * Policy.

Definition ret {A} (a : A) : M A := fun p => (Ok a, p).

Definition bind {A B} (m : M A) (f : A -> M B) : M B :=
  fun p =>
    match m p with
    | (Ok a, p') => f a p'
    | (Throws e, p') => (Throws e, p')
    end.

Definition throw {A} (msg : string) : M A := fun p => (Throws msg, p).

Definition this : M Policy := fun p => (Ok p, p).

Definition modify (f : Policy -> Policy) : M unit := fun p => (Ok tt, f p).

#[global] Instance M_ret : MRet M := @ret.
#[global] Instance M_bind : MBind M := fun A B f m => bind m f.

Definition emit (e : effect) : M unit := modify (with_effects (fun l => l ++ [e])).

Definition count (c : counter) (n : nat) : M unit := modify (with_stats (bump c n)).

Definition when (b : bool) (m : M unit) : M unit := if b then m else ret tt.

(** [!!x] for optional rule fields *)
Definition flag (b : option bool) : bool := default false b.

(** [Boom.serverTimeout()] *)
Definition serverTimeout : error := "Service Unavailable".

Section Machine.

Variable localDate : Z -> Z -> Z -> Z.

(** [internals.respond = function (policy, id, err, value, cached, report)] *)
Definition respond (id : ident) (err : option error) (value : jsval)
    (cached : option nat) (report : Report) : M unit :=
  let id := pendingsId id in
  p ← this;
  let pendings := _pendings p !! id in
  modify (with_pendings (delete id));;
  match pendings with
  | None => throw "TypeError: Cannot read property 'length' of undefined"
  | Some pendings =>
      let length := length pendings in
      modify (with_effects (fun l => l ++
        map (fun w => NextTick id w {| d_err := err; d_value := value;
                                       d_cached := cached; d_report := report |})
            pendings));;
      when (bool_decide (r_isStale report ≠ None)) (count Hits length)
  end.

(** [Hoek.once(internals.respond)]: a fresh wrapper with its flag down.
    ([Hoek.once] is the library's run-at-most-once wrapper: the wrapper
    keeps a flag, and a call runs the wrapped function only while the flag
    is down, raising it first.) *)
Definition new_once : M nat :=
  p ← this;
  modify (with_onces (fun l => l ++ [false]));;
  mret (List.length (onces p)).

(** Calling the wrapper [once]: the wrapped [respond] runs only if the
    flag is still down, and the flag goes up first. *)
Definition respond_once (once : nat) (id : ident) (err : option error) (value : jsval)
    (cached : option nat) (report : Report) : M unit :=
  p ← this;
  match onces p !! once with
  | Some false =>
      modify (with_onces (<[once := true]>));;
      respond id err value cached report
  | _ => mret tt
  end.

(** [cached.item] through a reference *)
Definition item_of (p : Policy) (c : nat) : jsval :=
  default JUndefined (c_item <$> heap p !! c).

(** The closure [finalize] of [_callGenerateFunc], called with [err]. *)
Definition finalize (once : nat) (id : ident) (generateError : option error)
    (value : jsval) (cached : option nat) (report : Report) (err : option error) : M unit :=
  p ← this;
  let error :=
    match generateError with
    | Some e => Some e
    | None => if flag (generateIgnoreWriteError (rule p)) then None else err
    end in
  match cached, error with
  | Some c, Some _ =>
      if negb (flag (dropOnError (rule p)))
      then respond_once once id error (item_of p c) (Some c) report
      else respond_once once id error value None report
  | _, _ => respond_once once id error value None report
  end.

(** [callback(err)] *)
Definition call (cb : callback) (err : option error) : M unit :=
  match cb with
  | CbIgnore => mret tt
  | CbUser f => emit (CallUser f err)
  | CbFinalize once id generateError value cached report =>
      finalize once id generateError value cached report err
  end.

(** [internals.Policy.prototype.set = function (key, value, ttl, callback)];
    [clock] is [Date.now()]. *)
Definition set (k : key) (value : jsval) (ttl_ : option Z) (cb : callback)
    (clock : Z) : M unit :=
  count Sets 1;;
  p ← this;
  if negb (_cache p) then call cb None
  else
    let ttl_ := num_or ttl_ (ttl localDate (rule p) None None clock) in
    let id := key_id k in
    emit (BackendSet id value ttl_ (OnBackendDone cb)).

(** [internals.Policy.prototype.drop = function (key, callback)] *)
Definition drop (k : key) (cb : callback) : M unit :=
  p ← this;
  if negb (_cache p) then call cb None
  else
    let id := key_id k in
    if negb (id_truthy id) then call cb (Some "Invalid key"%string)
    else emit (BackendDrop id (OnBackendDone cb)).

(** The arrow function given to [_cache.set] and [_cache.drop]. *)
Definition on_backend_done (cb : callback) (err : option error) : M unit :=
  when (bool_decide (err ≠ None)) (count Errors 1);;
  call cb err.

(** The arrow function given to [generateFunc], called with
    [(generateError, value, ttl)]. *)
Definition on_generated (once : nat) (id : ident) (k : key) (cached : option nat)
    (report : Report) (generateError : option error) (value : jsval) (ttl_ : option Z)
    (clock : Z) : M unit :=
  modify (with_pendingGenerateCall (delete (pendingsId id)));;
  p ← this;
  let finalize := CbFinalize once id generateError value cached report in
  if (bool_decide (generateError ≠ None) && flag (dropOnError (rule p)))
     || bool_decide (ttl_ = Some 0)
  then drop (KId id) finalize
  else if bool_decide (generateError = None) then set (KId id) value ttl_ finalize clock
  else call finalize None.

(** The catch clause of [_generate]. *)
Definition on_throw (once : nat) (id : ident) (report : Report)
    (err : option error) : M unit :=
  modify (with_pendingGenerateCall (delete (pendingsId id)));;
  respond_once once id err JNull None report.

(** [internals.Policy.prototype._callGenerateFunc]; a rule without
    [generateFunc] makes the call throw into the catch clause. *)
Definition _callGenerateFunc (id : ident) (k : key) (cached : option nat)
    (report : Report) (once : nat) : M unit :=
  p ← this;
  match generateFunc (rule p) with
  | Some f => emit (CallGenerate f k (OnGenerated once id k cached report)
                                 (OnThrow once id report))
  | None => on_throw once id report (Some "TypeError"%string)
  end.

(** [internals.Policy.prototype._generate = function (id, key, cached, report)] *)
Definition _generate (id : ident) (k : key) (cached : option nat)
    (report : Report) : M unit :=
  respond ← new_once;
  p ← this;
  match cached with
  | Some c =>
      modify (with_heap (fun h =>
        match h !! c with
        | Some o => <[c := {| c_item := c_item o; c_stored := c_stored o;
                              c_ttl := number_minus (c_ttl o) (staleTimeout (rule p));
                              c_isStale := c_isStale o |}]> h
        | None => h
        end));;
      p' ← this;
      when (default false (number_pos ∘ c_ttl <$> heap p' !! c))
           (emit (SetTimeout (OnStaleTimeout respond id c report) (staleTimeout (rule p))))
  | None =>
      match generateTimeout (rule p) with
      | Some (Some ms) =>
          when (negb (ms =? 0))
               (emit (SetTimeout (OnGenerateTimeout respond id report) (Some ms)))
      | _ => mret tt
      end
  end;;
  let pendingId := pendingsId id in
  p ← this;
  if negb (default false (_pendingGenerateCall p !! pendingId)) then
    count Generates 1;;
    when (num_truthy (pendingGenerateTimeout (rule p)))
         (modify (with_pendingGenerateCall (<[pendingId := true]>));;
          emit (SetTimeout (OnPendingTimeout pendingId) (pendingGenerateTimeout (rule p))));;
    _callGenerateFunc id k cached report respond
  else mret tt.

(** [typeof rule.staleIn === 'function' ? rule.staleIn(stored, ttl) : rule.staleIn];
    [userStaleIn] is what the function returns when there is one, and a
    missing [staleIn] is falsy like 0. *)
Definition staleIn_of (r : Rule) (userStaleIn : Z) : Z :=
  match staleIn r with
  | Some (StaleFn _) => userStaleIn
  | Some (StaleMs ms) => ms
  | None => 0
  end.

(** [staleIn ? (Date.now() - cached.stored) >= staleIn : false] *)
Definition isStale_of (r : Rule) (e : entry) (now userStaleIn : Z) : bool :=
  let staleIn := staleIn_of r userStaleIn in
  if negb (staleIn =? 0) then now - e_stored e >=? staleIn else false.

(** The arrow function [get] gives to [_get], called with [(err, cached)].
    [msec] is [timer.elapsed()], [now] is [Date.now()], [userStaleIn] is
    what the rule's [staleIn] function returns when it is one.  The object
    [cached] of each reply is a new one: it gets the next free heap
    address. *)
Definition on_get (id : ident) (k : key) (err : option error) (cached : option entry)
    (msec now userStaleIn : Z) : M unit :=
  when (bool_decide (err ≠ None)) (count Errors 1);;
  p ← this;
  match cached with
  | Some e =>
      let isStale := isStale_of (rule p) e now userStaleIn in
      let c := List.length (heap p) in
      modify (with_heap (fun h => h ++
        [{| c_item := e_item e; c_stored := e_stored e; c_ttl := Num (e_ttl e);
            c_isStale := Some isStale |}]));;
      let report := {| r_msec := msec; r_error := err; r_stored := Some (e_stored e);
                       r_ttl := Some (Num (e_ttl e)); r_isStale := Some isStale |} in
      when isStale (count Stales 1);;
      if negb (bool_decide (is_Some (generateFunc (rule p))))
         || (bool_decide (err ≠ None) && negb (flag (generateOnReadError (rule p))))
      then respond id err (e_item e) (Some c) report
      else if negb isStale then respond id None (e_item e) (Some c) report
      else _generate id k (Some c) report
  | None =>
      let report := {| r_msec := msec; r_error := err; r_stored := None;
                       r_ttl := None; r_isStale := None |} in
      if negb (bool_decide (is_Some (generateFunc (rule p))))
         || (bool_decide (err ≠ None) && negb (flag (generateOnReadError (rule p))))
      then respond id err JNull None report
      else _generate id k None report
  end.

(** [internals.Policy.prototype._get = function (id, callback)] *)
Definition _get (id : ident) (k : closure) : M unit :=
  p ← this;
  if negb (_cache p) then emit (TickCall k)
  else emit (BackendGet id k).

(** [internals.Policy.prototype.get = function (key, callback)];
    [domain] is [process.domain] at the time of the call. *)
Definition get (k : key) (cb : nat) (domain : option nat) : M unit :=
  count Gets 1;;
  let id := key_id k in
  let pendingsId := pendingsId id in
  p ← this;
  match _pendings p !! pendingsId with
  | Some l =>
      modify (with_pendings
                (<[pendingsId := l ++ [{| w_callback := cb; w_domain := domain |}]]>))
  | None =>
      modify (with_pendings (<[pendingsId := [{| w_callback := cb; w_domain := None |}]]>));;
      _get id (OnGet id k)
  end.

(** [internals.Policy.prototype.rules = function (options)] *)
Definition rules (o : option options) : M unit :=
  p ← this;
  match compile o (_cache p) with
  | Ok r => modify (with_rule r)
  | Throws msg => throw msg
  end.

(** [internals.Policy.prototype.ttl = function (created)] *)
Definition policy_ttl (p : Policy) (created : option Z) (clock : Z) : Z :=
  ttl localDate (rule p) created None clock.

(** The constructor, for a backend that accepts the segment name. *)
Definition newPolicy (o : option options) (cache : bool) : result Policy :=
  match compile o cache with
  | Ok r =>
      Ok {| _cache := cache; rule := r; _pendings := ∅; _pendingGenerateCall := ∅;
            stats := {| sets := 0; gets := 0; hits := 0; stales := 0;
                        generates := 0; errors := 0 |};
            heap := []; onces := []; effects := [] |}
  | Throws msg => Throws msg
  end.

(** *** The environment

    Callers invoke the public methods; the backend, the timers and the
    producer invoke the closures they were given, with the arguments and
    clock readings that apply. *)
Record args := {
  a_err : option error;
  a_cached : option entry;
  a_value : jsval;
  a_ttl : option Z;
  a_now : Z;
  a_msec : Z;
  a_staleIn : Z
}.

Inductive event :=
| CallGet (k : key) (cb : nat) (domain : option nat)
| CallSet (k : key) (value : jsval) (ttl_ : option Z) (cb : option nat) (clock : Z)
| CallDrop (k : key) (cb : option nat)
| CallRules (o : option options)
| Fire (k : closure) (a : args).

(** [callback = callback || Hoek.ignore] *)
Definition user_callback (cb : option nat) : callback :=
  match cb with
  | Some f => CbUser f
  | None => CbIgnore
  end.

Definition fire (k : closure) (a : args) : M unit :=
  match k with
  | OnGet id key => on_get id key (a_err a) (a_cached a) (a_msec a) (a_now a) (a_staleIn a)
  | OnStaleTimeout once id c report =>
      p ← this;
      respond_once once id None (item_of p c) (Some c) report
  | OnGenerateTimeout once id report =>
      respond_once once id (Some serverTimeout) JNull None report
  | OnPendingTimeout pendingId =>
      modify (with_pendingGenerateCall (delete pendingId))
  | OnGenerated once id key cached report =>
      on_generated once id key cached report (a_err a) (a_value a) (a_ttl a) (a_now a)
  | OnThrow once id report => on_throw once id report (a_err a)
  | OnBackendDone cb => on_backend_done cb (a_err a)
  end.

Definition step (e : event) : M unit :=
  match e with
  | CallGet k cb domain => get k cb domain
  | CallSet k value ttl_ cb clock => set k value ttl_ (user_callback cb) clock
  | CallDrop k cb => drop k (user_callback cb)
  | CallRules o => rules o
  | Fire k a => fire k a
  end.

(** Running a sequence of events; a handler that throws leaves the
    policy as it was at the throw. *)
Definition exec (m : M unit) (p : Policy) : Policy := (m p).2.

Definition run (trace : list event) (p : Policy) : Policy :=
  fold_left (fun p e => exec (step e) p) trace p.

End Machine.

Arguments respond : simpl never.
Arguments respond_once : simpl never.
Arguments _generate : simpl never.
Arguments _callGenerateFunc : simpl never.
Arguments finalize : simpl never.
Arguments pendingsId : simpl never.
Arguments isStale_of : simpl never.

(** ** Observations on a run *)

(** The waiters that [respond] has called back for the pendings entry
    [pid], oldest first. *)
Definition delivered_for (pid : string) (l : list effect) : list waiter :=
  omap (fun e =>
          match e with
          | NextTick pid' w _ => if decide (pid' = pid) then Some w else None
          | _ => None
          end) l.

(** The waiters still listed under [pid]. *)
Definition waiting_for (pid : string) (p : Policy) : list waiter :=
  default [] (_pendings p !! pid).

(** Everyone ever attached under [pid] and not lost: those already called
    back, then those waiting. *)
Definition tokens (pid : string) (p : Policy) : list waiter :=
  delivered_for pid (effects p) ++ waiting_for pid p.

(** The callbacks that the [get] calls of a trace attach under [pid]. *)
Definition attached_for (pid : string) (trace : list event) : list nat :=
  omap (fun e =>
          match e with
          | CallGet k cb _ =>
              if decide (pendingsId (key_id k) = pid) then Some cb else None
          | _ => None
          end) trace.

(** The completions delivered with a report that carries [isStale]. *)
Definition carries_isStale (e : effect) : bool :=
  match e with
  | NextTick _ _ c => bool_decide (r_isStale (d_report c) ≠ None)
  | _ => false
  end.

Definition stale_reported (l : list effect) : nat :=
  List.length (List.filter carries_isStale l).

(** The closures handed to the backend, to timers and to the producer; the
    catch clause is not among them (it runs only if the producer throws). *)
Definition scheduled (l : list effect) : list closure :=
  omap (fun e =>
          match e with
          | BackendGet _ k | BackendSet _ _ _ k | BackendDrop _ k
          | TickCall k | SetTimeout k _ | CallGenerate _ _ k _ => Some k
          | NextTick _ _ _ | CallUser _ _ => None
          end) l.

(** The closures a trace invokes. *)
Definition fired (trace : list event) : list closure :=
  omap (fun e => match e with Fire k _ => Some k | _ => None end) trace.

(** The timers among some effects whose closure resolves waiters. *)
Definition is_fallback_timer (e : effect) : bool :=
  match e with
  | SetTimeout (OnStaleTimeout _ _ _ _) _ | SetTimeout (OnGenerateTimeout _ _ _) _ => true
  | _ => false
  end.

(** What [_generate] emits after its timers: nothing while the id is
    marked pending; else the pending timer, if the rule has one, and the
    call of the producer [f]. *)
Definition producer_effects (p : Policy) (once : nat) (id : ident) (k : key)
    (cached : option nat) (report : Report) (f : nat) : list effect :=
  if default false (_pendingGenerateCall p !! pendingsId id) then []
  else
    (if num_truthy (pendingGenerateTimeout (rule p))
     then [SetTimeout (OnPendingTimeout (pendingsId id)) (pendingGenerateTimeout (rule p))]
     else [])
    ++ [CallGenerate f k (OnGenerated once id k cached report) (OnThrow once id report)].

(** The timer [_generate] arms on the miss path: the generate timeout,
    when the rule's [generateTimeout] is a number (not [false]). *)
Definition miss_timer (r : Rule) (once : nat) (id : ident) (report : Report) : list effect :=
  match generateTimeout r with
  | Some (Some ms) =>
      if negb (ms =? 0) then [SetTimeout (OnGenerateTimeout once id report) (Some ms)]
      else []
  | _ => []
  end.

(** The cached object after [cached.ttl = cached.ttl - rule.staleTimeout]. *)
Definition adjusted (r : Rule) (o : cachedObj) : cachedObj :=
  {| c_item := c_item o; c_stored := c_stored o;
     c_ttl := number_minus (c_ttl o) (staleTimeout r); c_isStale := c_isStale o |}.

(** ** A policy for the examples *)

Definition demoOptions : options :=
  <[ "expiresIn" := JNum 100000 ]>
  (<[ "staleIn" := JNum 20000 ]>
  (<[ "staleTimeout" := JNum 500 ]>
  (<[ "generateFunc" := JFunc 7 ]>
  (<[ "generateTimeout" := JBool false ]>
  (<[ "dropOnError" := JBool false ]>
  {[ "pendingGenerateTimeout" := JNum 60000 ]}))))).

Definition demoRule : Rule :=
  {| expiresIn := Some 100000; expiresAt := None; generateFunc := Some 7%nat;
     generateTimeout := Some None; staleIn := Some (StaleMs 20000);
     staleTimeout := Some 500; dropOnError := Some false;
     pendingGenerateTimeout := Some 60000;
     generateOnReadError := Some true; generateIgnoreWriteError := Some true |}.

(** Options that name only the producer: the other fields take their
    defaults. *)
Definition bareOptions : options :=
  <[ "expiresIn" := JNum 1000 ]>
  (<[ "generateFunc" := JFunc 7 ]>
  {[ "generateTimeout" := JBool false ]}).

Definition bareRule : Rule :=
  {| expiresIn := Some 1000; expiresAt := None; generateFunc := Some 7%nat;
     generateTimeout := Some None; staleIn := None; staleTimeout := None;
     dropOnError := Some true; pendingGenerateTimeout := Some 0;
     generateOnReadError := Some true; generateIgnoreWriteError := Some true |}.

(** Options whose two timeouts and switch are given as strings.  The
    validation converts them in a copy; [compile] reads the strings. *)
Definition stringOptions : options :=
  <[ "expiresIn" := JNum 100000 ]>
  (<[ "staleIn" := JNum 20000 ]>
  (<[ "staleTimeout" := JStr "500" ]>
  (<[ "generateFunc" := JFunc 7 ]>
  (<[ "generateTimeout" := JBool false ]>
  (<[ "dropOnError" := JStr "false" ]>
  {[ "pendingGenerateTimeout" := JStr "60" ]}))))).

Definition stringRule : Rule :=
  {| expiresIn := Some 100000; expiresAt := None; generateFunc := Some 7%nat;
     generateTimeout := Some None; staleIn := Some (StaleMs 20000);
     staleTimeout := Some 500; dropOnError := Some true;
     pendingGenerateTimeout := Some 60;
     generateOnReadError := Some true; generateIgnoreWriteError := Some true |}.

Definition noStats : Stats :=
  {| sets := 0; gets := 0; hits := 0; stales := 0; generates := 0; errors := 0 |}.

Definition freshPolicy (r : Rule) (cache : bool) : Policy :=
  {| _cache := cache; rule := r; _pendings := ∅; _pendingGenerateCall := ∅;
     stats := noStats; heap := []; onces := []; effects := [] |}.

Definition noArgs : args :=
  {| a_err := None; a_cached := None; a_value := JUndefined; a_ttl := None;
     a_now := 0; a_msec := 0; a_staleIn := 0 |}.

(** Reports and replies for the run below. *)
Definition staleReport (msec ttl_ : Z) : Report :=
  {| r_msec := msec; r_error := None; r_stored := Some 101000;
     r_ttl := Some (Num ttl_); r_isStale := Some true |}.

Definition backendReply (ttl_ now msec : Z) : args :=
  {| a_err := None;
     a_cached := Some {| e_item := JStr "old"; e_stored := 101000; e_ttl := ttl_ |};
     a_value := JUndefined; a_ttl := None; a_now := now; a_msec := msec; a_staleIn := 0 |}.

Definition producerReply (value : jsval) (now : Z) : args :=
  {| a_err := None; a_cached := None; a_value := value; a_ttl := None;
     a_now := now; a_msec := 0; a_staleIn := 0 |}.

(** A run in which a waiter is left behind.  The first [get] finds a stale
    entry with 1000 ms to live: the stale timer is armed, the producer is
    called and marked pending.  The timer fires and serves the first caller.
    A second [get] then finds the entry stale with 400 ms to live, less
    than [staleTimeout]: no timer is armed, and the pending mark keeps the
    producer from being called.  The producer's result, its write-back and
    the pending timer follow. *)
Definition stuckTrace : list event :=
  [ CallGet (KId (IdStr "k")) 1 None;
    Fire (OnGet (IdStr "k") (KId (IdStr "k"))) (backendReply 1000 200000 3);
    Fire (OnStaleTimeout 0 (IdStr "k") 0 (staleReport 3 1000)) noArgs;
    CallGet (KId (IdStr "k")) 2 None;
    Fire (OnGet (IdStr "k") (KId (IdStr "k"))) (backendReply 400 200600 2);
    Fire (OnGenerated 0 (IdStr "k") (KId (IdStr "k")) (Some 0%nat) (staleReport 3 1000))
         (producerReply (JStr "new") 205000);
    Fire (OnBackendDone (CbFinalize 0 (IdStr "k") None (JStr "new") (Some 0%nat)
                                    (staleReport 3 1000))) noArgs;
    Fire (OnPendingTimeout "+k") noArgs ].

(** ** Relations between the policy before and after a statement *)

(** [preserves R m]: running [m] from any policy leads to a policy related
    to it by [R]. *)
Definition preserves (R : Policy -> Policy -> Prop) {A : Type} (m : M A) : Prop :=
  forall p, R p (m p).2.

(** [stable p p']: between [p] and [p'] no waiter was attached, lost or
    called twice, and [stats.hits] moved by the number of completions that
    were delivered with an [isStale] report. *)
Definition stable (p p' : Policy) : Prop :=
  (forall pid, tokens pid p' = tokens pid p)
  /\ (hits (stats p') + stale_reported (effects p)
      = hits (stats p) + stale_reported (effects p'))%nat.

Abbreviation keeps := (preserves stable).

(** The effects that call a waiter back. *)
Definition is_delivery (e : effect) : bool :=
  match e with NextTick _ _ _ => true | _ => false end.

(** The once-wrapper through which a closure resolves waiters, if any. *)
Definition guard_of (k : closure) : option nat :=
  match k with
  | OnStaleTimeout once _ _ _ | OnGenerateTimeout once _ _
  | OnGenerated once _ _ _ _ | OnThrow once _ _
  | OnBackendDone (CbFinalize once _ _ _ _ _) => Some once
  | _ => None
  end.

(** [quiet once p p']: if the wrapper [once] was already used in [p], it
    still is in [p'], and no waiter was touched, nothing was delivered, and
    [stats.hits] is the same. *)
Definition quiet (once : nat) (p p' : Policy) : Prop :=
  onces p !! once = Some true ->
  onces p' !! once = Some true
  /\ _pendings p' = _pendings p
  /\ List.filter is_delivery (effects p') = List.filter is_delivery (effects p)
  /\ hits (stats p') = hits (stats p).

(** The lookups ([_get]: a backend [get], or the empty reply of a policy
    without backend) started for the pendings entry [pid]. *)
Definition is_lookup_for (pid : string) (e : effect) : bool :=
  match e with
  | BackendGet _ (OnGet id _) | TickCall (OnGet id _) => bool_decide (pendingsId id = pid)
  | _ => false
  end.

Definition lookups_for (pid : string) (l : list effect) : nat :=
  List.length (List.filter (is_lookup_for pid) l).

(** [same_lookups pid p p']: no lookup was started for [pid]. *)
Definition same_lookups (pid : string) (p p' : Policy) : Prop :=
  lookups_for pid (effects p') = lookups_for pid (effects p).

(** [same_heap p p']: no cached object was written or added. *)
Definition same_heap (p p' : Policy) : Prop := heap p' = heap p.

(** ** Further observations *)

(** [unchanged f p p']: the component [f] of the policy is the same. *)
Definition unchanged {X : Type} (f : Policy -> X) (p p' : Policy) : Prop := f p' = f p.

(** [counters_grow p p']: none of the six counters went down. *)
Definition counters_grow (p p' : Policy) : Prop :=
  (sets (stats p) <= sets (stats p')
   /\ gets (stats p) <= gets (stats p')
   /\ hits (stats p) <= hits (stats p')
   /\ stales (stats p) <= stales (stats p')
   /\ generates (stats p) <= generates (stats p')
   /\ errors (stats p) <= errors (stats p'))%nat.

(** The [get] calls of a trace. *)
Definition calls_get (trace : list event) : nat :=
  List.length (List.filter (fun e => match e with CallGet _ _ _ => true | _ => false end)
                           trace).

(** Whether an event is a reply of the backend (to [get], [set] or [drop])
    that carries an error. *)
Definition is_error_reply (e : event) : bool :=
  match e with
  | Fire (OnGet _ _) a | Fire (OnBackendDone _) a => bool_decide (a_err a ≠ None)
  | _ => false
  end.

Definition error_replies (trace : list event) : nat :=
  List.length (List.filter is_error_reply trace).

(** The invocations of the producer among some effects. *)
Definition is_producer_call (e : effect) : bool :=
  match e with CallGenerate _ _ _ _ => true | _ => false end.

Definition producer_calls (l : list effect) : nat :=
  List.length (List.filter is_producer_call l).

(** The calls to the backend among some effects. *)
Definition is_backend_call (e : effect) : bool :=
  match e with
  | BackendGet _ _ | BackendSet _ _ _ _ | BackendDrop _ _ => true
  | _ => false
  end.

(** [no_backend p p']: a policy without backend stays so and calls none. *)
Definition no_backend (p p' : Policy) : Prop :=
  _cache p = false ->
  _cache p' = false
  /\ List.filter is_backend_call (effects p') = List.filter is_backend_call (effects p).

(** [generates_match p p']: [stats.generates] was raised as often as the
    producer was invoked. *)
Definition generates_match (p p' : Policy) : Prop :=
  (producer_calls (effects p') + generates (stats p)
   = generates (stats p') + producer_calls (effects p))%nat.

(** [flags_stay p p']: every once-wrapper used in [p] is still used in [p']. *)
Definition flags_stay (p p' : Policy) : Prop :=
  forall once, onces p !! once = Some true -> onces p' !! once = Some true.

(** The prefixed id an event works for: that of the key of a [get], or of
    the id held by a closure. *)
Definition closure_pid (k : closure) : option string :=
  match k with
  | OnGet id _ | OnStaleTimeout _ id _ _ | OnGenerateTimeout _ id _
  | OnGenerated _ id _ _ _ | OnThrow _ id _
  | OnBackendDone (CbFinalize _ id _ _ _ _) => Some (pendingsId id)
  | OnPendingTimeout pid => Some pid
  | OnBackendDone CbIgnore | OnBackendDone (CbUser _) => None
  end.

Definition event_pid (e : event) : option string :=
  match e with
  | CallGet k _ _ => Some (pendingsId (key_id k))
  | Fire k _ => closure_pid k
  | CallSet _ _ _ _ _ | CallDrop _ _ | CallRules _ => None
  end.

(** [same_entry pid p p']: the waiters listed under [pid], the pending
    mark of [pid] and the completions delivered for [pid] are the same. *)
Definition same_entry (pid : string) (p p' : Policy) : Prop :=
  _pendings p' !! pid = _pendings p !! pid
  /\ _pendingGenerateCall p' !! pid = _pendingGenerateCall p !! pid
  /\ delivered_for pid (effects p') = delivered_for pid (effects p).

(** The cached objects that were found stale when they were read. *)
Definition stale_objects (h : list cachedObj) : nat :=
  List.length (List.filter (fun o => bool_decide (c_isStale o = Some true)) h).

(** [stales_match p p']: [stats.stales] was raised as often as a stale
    object was received. *)
Definition stales_match (p p' : Policy) : Prop :=
  (stales (stats p') + stale_objects (heap p)
   = stales (stats p) + stale_objects (heap p'))%nat.

(** A rule with a producer that must answer within 200 ms. *)
Definition timedRule : Rule :=
  {| expiresIn := Some 5000; expiresAt := None; generateFunc := Some 7%nat;
     generateTimeout := Some (Some 200); staleIn := None; staleTimeout := None;
     dropOnError := Some true; pendingGenerateTimeout := Some 0;
     generateOnReadError := Some true; generateIgnoreWriteError := Some true |}.

(** The report of a lookup that found nothing. *)
Definition missReport (msec : Z) (err : option error) : Report :=
  {| r_msec := msec; r_error := err; r_stored := None; r_ttl := None; r_isStale := None |}.

(** A policy without a backend and without a producer, and a run that
    uses every public method on it. *)
Definition localRule : Rule :=
  {| expiresIn := Some 5000; expiresAt := None; generateFunc := None;
     generateTimeout := None; staleIn := None; staleTimeout := None;
     dropOnError := None; pendingGenerateTimeout := None;
     generateOnReadError := Some true; generateIgnoreWriteError := Some true |}.

Definition localTrace : list event :=
  [ CallSet (KId (IdStr "k")) (JStr "v") None (Some 1%nat) 1000;
    CallGet (KId (IdStr "k")) 2 None;
    Fire (OnGet (IdStr "k") (KId (IdStr "k"))) noArgs;
    CallDrop (KId (IdStr "k")) (Some 3%nat) ].

(** ** Orderly runs *)

(** The closures that some effects hand to the backend, to timers and to
    the producer, the catch clause included. *)
Definition handed_out (l : list effect) : list closure :=
  flat_map (fun e =>
              match e with
              | BackendGet _ k | BackendSet _ _ _ k | BackendDrop _ k
              | TickCall k | SetTimeout k _ => [k]
              | CallGenerate _ _ k c => [k; c]
              | NextTick _ _ _ | CallUser _ _ => []
              end) l.

(** One occurrence of [k] less. *)
Fixpoint remove_one (k : closure) (l : list closure) : list closure :=
  match l with
  | [] => []
  | x :: l => if decide (x = k) then l else x :: remove_one k l
  end.

(** [orderly trace p out]: in the run of [trace] from [p], the backend,
    the timers and the producer only invoke closures that the policy
    handed out and that were not invoked yet, starting with those of
    [out]; every closure is invoked at most once. *)
Fixpoint orderly (localDate : Z -> Z -> Z -> Z) (trace : list event) (p : Policy)
    (out : list closure) : bool :=
  match trace with
  | [] => true
  | e :: trace =>
      let p' := exec (step localDate e) p in
      let new := handed_out (List.skipn (List.length (effects p)) (effects p')) in
      match e with
      | Fire k _ =>
          bool_decide (k ∈ out) && orderly localDate trace p' (remove_one k out ++ new)
      | _ => orderly localDate trace p' (out ++ new)
      end
  end.

(** The closures that call [respond], directly or through a once-wrapper. *)
Definition is_resolver (c : closure) : bool :=
  match c with
  | OnPendingTimeout _ | OnBackendDone CbIgnore | OnBackendDone (CbUser _) => false
  | _ => true
  end.

(** Whether the once-wrapper of a closure, if it has one, is unused. *)
Definition unspent (p : Policy) (c : closure) : bool :=
  match guard_of c with
  | Some o => bool_decide (onces p !! o = Some false)
  | None => true
  end.

(** The closures that would still call the waiters of [pid] back. *)
Definition is_live (p : Policy) (pid : string) (c : closure) : bool :=
  is_resolver c && bool_decide (closure_pid c = Some pid) && unspent p c.

Definition live_for (p : Policy) (pid : string) (out : list closure) : list closure :=
  List.filter (is_live p pid) out.

(** What holds of the closures not yet invoked, per id: if one of them
    would still call the waiters back, the waiter list is there; and
    either they all go through one once-wrapper, or there is at most one. *)
Definition inv_at (p : Policy) (out : list closure) (pid : string) : Prop :=
  let l := live_for p pid out in
  (l <> [] -> is_Some (_pendings p !! pid))
  /\ ((exists o, Forall (fun c => guard_of c = Some o) l) \/ (List.length l <= 1)%nat).

Definition guards_valid (p : Policy) (out : list closure) : Prop :=
  Forall (fun c => forall o, guard_of c = Some o -> (o < List.length (onces p))%nat) out.

Definition inv (p : Policy) (out : list closure) : Prop :=
  guards_valid p out /\ forall pid, inv_at p out pid.

(** [hands P p p']: the effects only grew, and every closure handed out
    in between satisfies [P]. *)
Definition hands (P : closure -> Prop) (p p' : Policy) : Prop :=
  exists new, effects p' = effects p ++ new /\ Forall P (handed_out new).

(** [resolving o pid p p']: either the waiter lists and the once-wrappers
    are as before, or the wrapper [o] was unused, is used now, and the
    entry of [pid] was removed. *)
Definition resolving (o : nat) (pid : string) (p p' : Policy) : Prop :=
  (_pendings p' = _pendings p /\ onces p' = onces p)
  \/ (onces p !! o = Some false
      /\ _pendings p' = delete pid (_pendings p)
      /\ onces p' = <[o := true]> (onces p)).

(** [sound I R m]: from a policy that satisfies [I], the statement [m]
    completes without throwing, in a policy that satisfies [I] again and is
    related to the first by [R]. *)
Definition sound (I : Policy -> Prop) (R : Policy -> Policy -> Prop) {A : Type}
    (m : M A) : Prop :=
  forall p, I p -> (exists a, (m p).1 = Ok a) /\ I (m p).2 /\ R p (m p).2.

(** The entry of [pid] is there if the wrapper [o] is unused. *)
Definition entry_if_unspent (o : nat) (pid : string) (p : Policy) : Prop :=
  onces p !! o = Some false -> is_Some (_pendings p !! pid).

(** What a closure that resolves [pid] through the wrapper [o] may do. *)
Definition guarded_step (o : nat) (pid : string) (p p' : Policy) : Prop :=
  resolving o pid p p'
  /\ hands (fun c => guard_of c = Some o /\ closure_pid c = Some pid) p p'.

(** What an event that calls no waiter back may do. *)
Definition idle_step (p p' : Policy) : Prop :=
  (_pendings p' = _pendings p /\ onces p' = onces p)
  /\ hands (fun c => is_resolver c = false) p p'.

(** The events that call no waiter back: [set], [drop], and the closures
    that are not resolvers. *)
Definition is_idle (e : event) : bool :=
  match e with
  | CallSet _ _ _ _ _ | CallDrop _ _ => true
  | Fire k _ => negb (is_resolver k)
  | CallGet _ _ _ | CallRules _ => false
  end.

(** A run that is not orderly: the backend answers one lookup twice. *)
Definition doubleReply : list event :=
  [ CallGet (KId (IdStr "k")) 1 None;
    Fire (OnGet (IdStr "k") (KId (IdStr "k"))) noArgs;
    Fire (OnGet (IdStr "k") (KId (IdStr "k"))) noArgs ].

(** * Properties *)

(** ** The expiry calculator *)

Lemma num_or_nonzero (z d : Z) : z <> 0 -> num_or (Some z) d = z.
Proof.
  intros Hz. unfold num_or.
  destruct (Z.eqb_spec z 0) as [E | _]; [contradiction | reflexivity].
Qed.

Lemma num_truthy_nonzero (e : Z) : e <> 0 -> num_truthy (Some e) = true.
Proof.
  intros He. unfold num_truthy.
  destruct (Z.eqb_spec e 0); [contradiction | reflexivity].
Qed.

(** Scenario 7 of the specification: 03:00 rule, created 04:00, read 04:30
    (UTC): the expiry rolls over to the next day, 22.5 hours ahead. *)
Example ttl_rollover :
  ttl utcDate (ruleAt 3 0) (Some (10 * day + 4 * 3600000))
      (Some (10 * day + 4 * 3600000 + 30 * 60000)) 0 = 81000000.
Proof. reflexivity. Qed.

(** C5, as amended.  For creation and read instants other than 0 (a zero or
    missing [now] is replaced by the clock, a zero or missing [created] by
    [now]): the result is 0 when [now < created]; it is
    [max (expiresIn - (now - created)) 0] for a rule whose [expiresIn] is
    set (and not 0) when [now >= created]; it is 0 for a rule with neither
    [expiresIn] nor [expiresAt]; and with a positive [expiresIn] the value
    at the creation instant is [expiresIn] and the value [expiresIn] later
    is 0. *)
Theorem ttl_formula (localDate : Z -> Z -> Z -> Z) (r : Rule) (created now clock : Z) :
  created <> 0 -> now <> 0 ->
  (now < created -> ttl localDate r (Some created) (Some now) clock = 0)
  /\ (forall e, expiresIn r = Some e -> e <> 0 -> created <= now ->
        ttl localDate r (Some created) (Some now) clock = Z.max (e - (now - created)) 0)
  /\ (num_truthy (expiresIn r) = false -> expiresAt r = None ->
        ttl localDate r (Some created) (Some now) clock = 0)
  /\ (forall e, expiresIn r = Some e -> 0 < e -> created + e <> 0 ->
        ttl localDate r (Some created) (Some created) clock = e
        /\ ttl localDate r (Some created) (Some (created + e)) clock = 0).
Proof.
  intros Hc Hn. split; [| split; [| split]].
  - intros Hlt. unfold ttl. rewrite !num_or_nonzero by assumption.
    destruct (Z.ltb_spec (now - created) 0); [reflexivity | lia].
  - intros e He Hpos Hle. unfold ttl. rewrite !num_or_nonzero by assumption.
    destruct (Z.ltb_spec (now - created) 0); [lia |].
    rewrite He, num_truthy_nonzero by assumption. reflexivity.
  - intros Hno Hat. unfold ttl. rewrite !num_or_nonzero by assumption.
    rewrite Hno, Hat. destruct (now - created <? 0); reflexivity.
  - intros e He Hpos Hsum. split.
    + unfold ttl. rewrite !num_or_nonzero by assumption.
      replace (created - created) with 0 by lia. cbn [Z.ltb Z.compare].
      rewrite He, num_truthy_nonzero by lia. simpl. lia.
    + unfold ttl. rewrite !num_or_nonzero by assumption.
      destruct (Z.ltb_spec (created + e - created) 0); [reflexivity |].
      rewrite He, num_truthy_nonzero by lia. simpl. lia.
Qed.

Lemma ttl_formula_witness :
  ttl utcDate (ruleIn 500) (Some 1000) (Some 1200) 0 = Z.max (500 - (1200 - 1000)) 0
  /\ ttl utcDate (ruleIn 500) (Some 1000) (Some 1000) 0 = 500
  /\ ttl utcDate (ruleIn 500) (Some 1000) (Some (1000 + 500)) 0 = 0.
Proof.
  destruct (ttl_formula utcDate (ruleIn 500) 1000 1200 0) as (_ & Hin & _ & Hat);
    [lia | lia |].
  split.
  - apply Hin; [reflexivity | lia | lia].
  - apply Hat; [reflexivity | lia | lia].
Defined.

(** C5 as stated fails at [created = 0]: the code takes a zero [created]
    for a missing one and measures the age from [now]. *)
Lemma ttl_created_zero :
  expiresIn (ruleIn 500) = Some 500
  /\ ttl utcDate (ruleIn 500) (Some 0) (Some 1000) 1000 = 500
  /\ Z.max (500 - (1000 - 0)) 0 = 0.
Proof. repeat split. Qed.

(** C6, as amended.  For a fixed rule and a fixed non-zero [created], the
    value is non-increasing in [now] over the non-zero instants from
    [created] on, and over the instants before [created] (where it is 0);
    this covers rules with [expiresIn], with [expiresAt] (roll-over and
    24-hour cut-off included, in any time zone) and with neither. *)
Theorem ttl_nonincreasing (localDate : Z -> Z -> Z -> Z) (r : Rule)
    (created now1 now2 clock : Z) :
  created <> 0 -> now1 <> 0 -> now2 <> 0 ->
  now1 <= now2 ->
  created <= now1 \/ now2 < created ->
  ttl localDate r (Some created) (Some now2) clock
  <= ttl localDate r (Some created) (Some now1) clock.
Proof.
  intros Hc H1 H2 Hle Hside. unfold ttl.
  rewrite !num_or_nonzero by assumption.
  destruct (Z.ltb_spec (now1 - created) 0), (Z.ltb_spec (now2 - created) 0);
    try lia.
  destruct (num_truthy (expiresIn r)); [lia |].
  destruct (expiresAt r) as [[hours minutes] |]; [| lia].
  set (e := localDate created hours minutes).
  set (expires := if e <=? created then e + day else e).
  destruct (Z.gtb_spec (now1 - created) day), (Z.gtb_spec (now2 - created) day);
    destruct (Z.geb_spec now1 expires), (Z.geb_spec now2 expires); lia.
Qed.

Lemma ttl_nonincreasing_witness :
  ttl utcDate (ruleAt 3 0) (Some (10 * day)) (Some (10 * day + 7200000)) 0
  <= ttl utcDate (ruleAt 3 0) (Some (10 * day)) (Some (10 * day + 3600000)) 0.
Proof.
  apply ttl_nonincreasing; unfold day; lia.
Defined.

(** C6 as stated fails across the creation instant: just before
    [created] the value is 0, at [created] it is [expiresIn]. *)
Lemma ttl_rises_at_creation :
  999 <= 1000
  /\ ~ (ttl utcDate (ruleIn 500) (Some 1000) (Some 1000) 0
        <= ttl utcDate (ruleIn 500) (Some 1000) (Some 999) 0).
Proof. split; [lia |]. vm_compute. intros H. apply H. reflexivity. Qed.

(** ** The rule compiler *)

Lemma is_digit_range (c : ascii) :
  is_digit c = true -> 0 <= Z.of_nat (nat_of_ascii c) - 48 <= 9.
Proof.
  unfold is_digit. intros H. apply andb_prop in H as [Hlo Hhi].
  apply Nat.leb_le in Hlo, Hhi. lia.
Qed.

Lemma is_colon_char (c : ascii) : is_colon c = true -> c = ":"%char.
Proof.
  unfold is_colon. intros H. apply Nat.eqb_eq in H.
  rewrite <- (ascii_nat_embedding c), H. reflexivity.
Qed.

(** What a successful match of the time pattern looks like. *)
Lemma exec_time_shape (s hs ms : string) :
  exec_time s = Some (hs, ms) ->
  s = hs +:+ ":" +:+ ms
  /\ (String.length hs = 1 \/ String.length hs = 2)%nat
  /\ String.length ms = 2%nat
  /\ 0 <= parseInt hs <= 99
  /\ 0 <= parseInt ms <= 99.
Proof.
  intros H.
  destruct s as [| h1 [| x2 [| x3 [| x4 [| x5 [| x6 rest]]]]]];
    cbn in H; try discriminate.
  - (* H:MM *)
    destruct (is_digit h1) eqn:D1; cbn in H; [| discriminate].
    destruct (is_colon x2) eqn:C; cbn in H; [| discriminate].
    destruct (is_digit x3) eqn:D3; cbn in H; [| discriminate].
    destruct (is_digit x4) eqn:D4; cbn in H; [| discriminate].
    injection H as <- <-.
    apply is_colon_char in C as ->.
    apply is_digit_range in D1, D3, D4.
    unfold parseInt. cbn [parseInt_from String.length].
    repeat split; try reflexivity; try lia.
  - (* HH:MM *)
    destruct (is_digit h1) eqn:D1; cbn in H; [| discriminate].
    destruct (is_digit x2) eqn:D2; cbn in H; [| discriminate].
    destruct (is_colon x3) eqn:C; cbn in H; [| discriminate].
    destruct (is_digit x4) eqn:D4; cbn in H; [| discriminate].
    destruct (is_digit x5) eqn:D5; cbn in H; [| discriminate].
    injection H as <- <-.
    apply is_colon_char in C as ->.
    apply is_digit_range in D1, D2, D4, D5.
    unfold parseInt. cbn [parseInt_from String.length].
    repeat split; try reflexivity; try lia.
Qed.

(** A property the schema accepted has an accepted value. *)
Lemma schema_key_ok (o : options) (k : string) (v : jsval) :
  forallb key_ok (map_to_list o) = true -> o !! k = Some v -> key_ok (k, v) = true.
Proof.
  intros Hall Hk. rewrite forallb_forall in Hall. apply Hall.
  apply list_elem_of_In. by apply elem_of_map_to_list.
Qed.

(** C8, as amended.  When [compile] succeeds on options that contain
    [expiresAt], [expiresIn] is absent and [expiresAt] is a string made of
    one or two decimal digits, a colon and two decimal digits; the rule's
    [expiresAt] carries the two numbers parsed from it, each between 0 and
    99 (no check confines them to 0-23 and 0-59). *)
Theorem compile_expiresAt (o : options) (serverSide : bool) (r : Rule) :
  compile (Some o) serverSide = Ok r ->
  present o "expiresAt" = true ->
  prop o "expiresIn" = JUndefined
  /\ exists s hs ms,
       prop o "expiresAt" = JStr s
       /\ exec_time s = Some (hs, ms)
       /\ s = hs +:+ ":" +:+ ms
       /\ (String.length hs = 1 \/ String.length hs = 2)%nat
       /\ String.length ms = 2%nat
       /\ expiresAt r = Some (parseInt hs, parseInt ms)
       /\ 0 <= parseInt hs <= 99
       /\ 0 <= parseInt ms <= 99.
Proof.
  intros Hc Hp. unfold compile in Hc.
  assert (Hlook : exists v, o !! "expiresAt" = Some v /\ v <> JUndefined).
  { unfold present, prop in Hp. destruct (o !! "expiresAt") as [v |] eqn:E.
    - exists v. split; [reflexivity |]. intros ->. discriminate.
    - discriminate. }
  destruct Hlook as (v & Hv & Hdef).
  destruct (Nat.eqb_spec (size o) 0) as [Hz | _].
  { apply map_size_empty_iff in Hz. subst o. rewrite lookup_empty in Hv. discriminate. }
  destruct (schema_ok o) eqn:Hs; cbn [negb] in Hc; [| discriminate].
  destruct (compile_asserts o serverSide); [discriminate |].
  unfold schema_ok in Hs. repeat (apply andb_prop in Hs as [Hs ?]).
  pose proof (schema_key_ok o _ v Hs Hv) as Hk.
  assert (Hat : prop o "expiresAt" = v) by (unfold prop; rewrite Hv; reflexivity).
  unfold key_ok in Hk. cbn in Hk.
  destruct v as [| | b | z | s | f | ob]; cbn in Hk; try discriminate; try congruence.
  apply bool_decide_eq_true in Hk. destruct Hk as [[hs ms] Ht].
  assert (Hin : prop o "expiresIn" = JUndefined).
  { match goal with
    | Hw : joi_without o "expiresIn" "expiresAt" = true |- _ =>
        unfold joi_without in Hw; rewrite Hp in Hw; cbn in Hw;
        unfold present in Hw; rewrite orb_false_r in Hw
    end.
    destruct (prop o "expiresIn"); cbn in *; congruence. }
  rewrite Hat, Ht in Hc. cbn in Hc.
  injection Hc as <-. cbn [expiresAt].
  destruct (exec_time_shape s hs ms Ht) as (Hshape & Hl1 & Hl2 & Hh & Hm).
  split; [exact Hin |].
  exists s, hs, ms. repeat split; try assumption; try lia.
Qed.

(** What [Joi.number().integer()] lets through is a number or a string,
    and reads as the safe integer that was validated. *)
Lemma joi_integer_value (v : jsval) (z : Z) :
  joi_integer v = Some z ->
  as_int v = Some z /\ to_number v = Some z
  /\ - max_safe_integer <= z <= max_safe_integer
  /\ (v = JNum z \/ exists s, v = JStr s /\ string_number s = Some z).
Proof.
  unfold joi_integer. destruct v as [| | b | n | s | f | ob]; try discriminate.
  - destruct ((- max_safe_integer <=? n) && (n <=? max_safe_integer)) eqn:Hsafe;
      [| discriminate].
    intros [= ->]. apply andb_prop in Hsafe as [H1 H2]. apply Z.leb_le in H1, H2.
    split; [reflexivity | split; [reflexivity | split; [lia | left; reflexivity]]].
  - cbn [as_int to_number]. destruct (string_number s) as [n |] eqn:Hn; [| discriminate].
    cbn. destruct ((- max_safe_integer <=? n) && (n <=? max_safe_integer)) eqn:Hsafe;
      [| discriminate].
    intros [= ->]. apply andb_prop in Hsafe as [H1 H2]. apply Z.leb_le in H1, H2.
    split; [reflexivity | split; [reflexivity | split; [lia | right; eauto]]].
Qed.

Lemma joi_integer_min1_value (v : jsval) :
  joi_integer_min1 v = true ->
  exists z, joi_integer v = Some z /\ as_int v = Some z /\ to_number v = Some z /\ 1 <= z.
Proof.
  unfold joi_integer_min1. destruct (joi_integer v) as [z |] eqn:Hj; [| discriminate].
  intros Hz. apply Z.leb_le in Hz. destruct (joi_integer_value v z Hj) as (Ha & Hn & _).
  exists z. auto.
Qed.

(** A compiled rule that has [staleIn] has a [staleTimeout] of at least
    1 ms: the subtraction on the stale path of [_generate] is between
    numbers. *)
Lemma compile_stale_timeout (o : options) (serverSide : bool) (r : Rule) :
  compile (Some o) serverSide = Ok r ->
  staleIn r <> None ->
  exists st, staleTimeout r = Some st /\ 1 <= st.
Proof.
  intros Hc Hstale. unfold compile in Hc.
  destruct (size o =? 0)%nat.
  { injection Hc as <-. contradiction. }
  destruct (schema_ok o) eqn:Hs; cbn [negb] in Hc; [| discriminate].
  destruct (compile_asserts o serverSide); [discriminate |].
  match type of Hc with
  | (if ?b then _ else _) = _ => destruct b; [discriminate |]
  end.
  injection Hc as <-. cbn [staleIn staleTimeout] in *.
  destruct (truthy (prop o "generateFunc") && truthy (prop o "staleIn")) eqn:Hw;
    [| contradiction].
  apply andb_prop in Hw as [_ Hin].
  unfold schema_ok in Hs. repeat (apply andb_prop in Hs as [Hs ?]).
  assert (Hpresent : present o "staleTimeout" = true).
  { match goal with
    | Ha : joi_and o "staleIn" "staleTimeout" = true |- _ =>
        unfold joi_and in Ha; apply Bool.eqb_prop in Ha; rewrite <- Ha
    end.
    unfold present. destruct (prop o "staleIn"); cbn in *; congruence. }
  unfold present, prop in Hpresent.
  destruct (o !! "staleTimeout") as [v |] eqn:Hv; [| discriminate].
  pose proof (schema_key_ok o _ v Hs Hv) as Hk.
  unfold prop. rewrite Hv. cbn [default from_option id].
  unfold key_ok in Hk. cbn [fst snd] in Hk.
  change (schema_type schema_keys "staleTimeout") with (Some joi_integer_min1) in Hk.
  assert (Hj : joi_integer_min1 v = true).
  { destruct v; cbn in Hpresent; try discriminate; exact Hk. }
  destruct (joi_integer_min1_value v Hj) as (z & _ & Hz & _ & Hz1).
  exists z. split; [exact Hz | exact Hz1].
Qed.

(** ** The policy object: how statements compose *)

Lemma run_snoc (localDate : Z -> Z -> Z -> Z) (trace : list event) (e : event) (p : Policy) :
  run localDate (trace ++ [e]) p = exec (step localDate e) (run localDate trace p).
Proof. unfold run. rewrite fold_left_app. reflexivity. Qed.

Lemma run_cons (localDate : Z -> Z -> Z -> Z) (e : event) (trace : list event) (p : Policy) :
  run localDate (e :: trace) p = run localDate trace (exec (step localDate e) p).
Proof. reflexivity. Qed.

Lemma delivered_for_app (pid : string) (l1 l2 : list effect) :
  delivered_for pid (l1 ++ l2) = delivered_for pid l1 ++ delivered_for pid l2.
Proof. unfold delivered_for. apply omap_app. Qed.

Lemma stale_reported_app (l1 l2 : list effect) :
  stale_reported (l1 ++ l2) = (stale_reported l1 + stale_reported l2)%nat.
Proof. unfold stale_reported. rewrite List.filter_app, length_app. reflexivity. Qed.

(** The deliveries of one [respond]: every waiter of the entry, in the
    entry's order, once. *)
Lemma delivered_for_ticks (pid pid' : string) (c : completion) (ws : list waiter) :
  delivered_for pid (map (fun w => NextTick pid' w c) ws)
  = if decide (pid' = pid) then ws else [].
Proof.
  unfold delivered_for. induction ws as [| w ws IH]; cbn.
  - destruct (decide (pid' = pid)); reflexivity.
  - rewrite IH. destruct (decide (pid' = pid)); reflexivity.
Qed.

Lemma stale_reported_ticks (pid : string) (c : completion) (ws : list waiter) :
  stale_reported (map (fun w => NextTick pid w c) ws)
  = if bool_decide (r_isStale (d_report c) ≠ None) then List.length ws else 0%nat.
Proof.
  unfold stale_reported. induction ws as [| w ws IH]; cbn.
  - destruct (bool_decide _); reflexivity.
  - destruct (bool_decide (r_isStale (d_report c) ≠ None)) eqn:E; cbn; rewrite IH;
      reflexivity.
Qed.

(** *** Relations that every statement of a handler maintains *)

Section Preservation.

Variable R : Policy -> Policy -> Prop.
Hypothesis R_refl : forall p, R p p.
Hypothesis R_trans : forall p1 p2 p3, R p1 p2 -> R p2 p3 -> R p1 p3.

Lemma preserves_ret {A : Type} (a : A) : preserves R (mret a).
Proof. intros p. apply R_refl. Qed.

Lemma preserves_throw {A : Type} (msg : string) : preserves R (@throw A msg).
Proof. intros p. apply R_refl. Qed.

Lemma preserves_this : preserves R this.
Proof. intros p. apply R_refl. Qed.

Lemma preserves_bind {A B : Type} (m : M A) (f : A -> M B) :
  preserves R m -> (forall a, preserves R (f a)) -> preserves R (m ≫= f).
Proof.
  intros Hm Hf p. specialize (Hm p).
  unfold mbind, M_bind, bind. destruct (m p) as [[a | msg] p']; cbn in *.
  - eapply R_trans; [exact Hm | apply Hf].
  - exact Hm.
Qed.

Lemma preserves_when (b : bool) (m : M unit) : preserves R m -> preserves R (when b m).
Proof. intros Hm. destruct b; [exact Hm | apply (preserves_ret tt)]. Qed.

Lemma preserves_modify (f : Policy -> Policy) :
  (forall p, R p (f p)) -> preserves R (modify f).
Proof. intros Hf p. apply Hf. Qed.

End Preservation.

(** One structural step of a preservation proof, for a relation with the
    given proofs of reflexivity and transitivity. *)
Ltac preserves_step refl trans :=
  match goal with
  | |- preserves _ (mbind _ _) => apply (preserves_bind _ trans); [| intros ?]
  | |- preserves _ (mret _) => apply (preserves_ret _ refl)
  | |- preserves _ this => apply (preserves_this _ refl)
  | |- preserves _ (throw _) => apply (preserves_throw _ refl)
  | |- preserves _ (when _ _) => apply (preserves_when _ refl)
  | |- preserves _ (match ?x with _ => _ end) => destruct x
  | |- preserves _ _ => progress cbv beta zeta
  end.

Lemma stable_refl (p : Policy) : stable p p.
Proof. split; [reflexivity | lia]. Qed.

Lemma stable_trans (p1 p2 p3 : Policy) : stable p1 p2 -> stable p2 p3 -> stable p1 p3.
Proof.
  intros [Ht1 Hh1] [Ht2 Hh2]. split.
  - intros pid. rewrite Ht2. apply Ht1.
  - lia.
Qed.

Lemma keeps_modify (f : Policy -> Policy) :
  (forall p, _pendings (f p) = _pendings p /\ effects (f p) = effects p
             /\ hits (stats (f p)) = hits (stats p)) ->
  keeps (modify f).
Proof.
  intros Hf p. destruct (Hf p) as (Hp & He & Hh). cbn. split.
  - intros pid. unfold tokens, waiting_for. rewrite Hp, He. reflexivity.
  - rewrite He, Hh. reflexivity.
Qed.

Lemma keeps_count (c : counter) (n : nat) : c <> Hits -> keeps (count c n).
Proof.
  intros Hc. apply keeps_modify. intros p.
  destruct c; try contradiction; repeat split.
Qed.

Lemma keeps_emit (e : effect) : is_delivery e = false -> keeps (emit e).
Proof.
  intros He p. unfold emit, modify, stable, tokens, waiting_for.
  cbn [snd effects _pendings with_effects stats]. split.
  - intros pid. rewrite delivered_for_app.
    destruct e; try discriminate; cbn; rewrite app_nil_r; reflexivity.
  - rewrite stale_reported_app.
    destruct e; try discriminate; cbn; lia.
Qed.
(** What [respond] does when the entry exists, and when it does not. *)
Lemma respond_resolves (id : ident) (err : option error) (value : jsval)
    (cached : option nat) (report : Report) (p : Policy) (ws : list waiter) :
  _pendings p !! pendingsId id = Some ws ->
  respond id err value cached report p =
    (Ok tt,
     let q := with_effects (fun l => l ++
                map (fun w => NextTick (pendingsId id) w
                       {| d_err := err; d_value := value;
                          d_cached := cached; d_report := report |}) ws)
                (with_pendings (delete (pendingsId id)) p) in
     if bool_decide (r_isStale report ≠ None)
     then with_stats (bump Hits (List.length ws)) q else q).
Proof.
  intros Hws. unfold respond.
  cbv [mbind M_bind bind this modify when count mret M_ret ret throw].
  rewrite Hws. cbv zeta. destruct (bool_decide (r_isStale report ≠ None)); reflexivity.
Qed.

Lemma respond_missing (id : ident) (err : option error) (value : jsval)
    (cached : option nat) (report : Report) (p : Policy) :
  _pendings p !! pendingsId id = None ->
  respond id err value cached report p =
    (Throws "TypeError: Cannot read property 'length' of undefined",
     with_pendings (delete (pendingsId id)) p).
Proof.
  intros Hws. unfold respond.
  cbv [mbind M_bind bind this modify when count mret M_ret ret throw].
  rewrite Hws. reflexivity.
Qed.

Lemma keeps_respond (id : ident) (err : option error) (value : jsval)
    (cached : option nat) (report : Report) :
  keeps (respond id err value cached report).
Proof.
  intros p. destruct (_pendings p !! pendingsId id) as [ws |] eqn:Hws.
  - rewrite (respond_resolves _ _ _ _ _ _ ws Hws). cbv zeta.
    set (c := {| d_err := err; d_value := value; d_cached := cached; d_report := report |}).
    assert (Hr : r_isStale report = r_isStale (d_report c)) by reflexivity.
    split.
    + intros pid. unfold tokens, waiting_for.
      destruct (bool_decide (r_isStale report ≠ None));
        cbn [snd effects _pendings with_effects with_pendings with_stats];
        rewrite delivered_for_app, delivered_for_ticks;
        (destruct (decide (pendingsId id = pid)) as [<- | Hne];
         [ rewrite lookup_delete_eq, Hws; cbn; rewrite app_nil_r; reflexivity
         | rewrite lookup_delete_ne by exact Hne; rewrite app_nil_r; reflexivity ]).
    + rewrite Hr.
      destruct (bool_decide (r_isStale (d_report c) ≠ None)) eqn:E;
        cbn [snd effects stats with_effects with_pendings with_stats hits bump];
        rewrite stale_reported_app, stale_reported_ticks, E; lia.
  - rewrite (respond_missing _ _ _ _ _ _ Hws). split.
    + intros pid. unfold tokens, waiting_for. cbn.
      destruct (decide (pendingsId id = pid)) as [<- | Hne].
      * rewrite lookup_delete_eq, Hws. reflexivity.
      * rewrite lookup_delete_ne by exact Hne. reflexivity.
    + reflexivity.
Qed.

Create HintDb policy.
#[local] Hint Resolve keeps_respond : policy.

Ltac keeps_base :=
  match goal with
  | |- keeps (count _ _) => apply keeps_count; discriminate
  | |- keeps (emit _) => apply keeps_emit; reflexivity
  | |- keeps (modify _) => apply keeps_modify; intros ?; repeat split
  | |- keeps _ => solve [auto with policy]
  end.

Ltac keeps_all := repeat first [keeps_base | preserves_step stable_refl stable_trans].

Lemma keeps_respond_once (once : nat) (id : ident) (err : option error) (value : jsval)
    (cached : option nat) (report : Report) :
  keeps (respond_once once id err value cached report).
Proof. unfold respond_once. keeps_all. Qed.
#[local] Hint Resolve keeps_respond_once : policy.

Lemma keeps_finalize (once : nat) (id : ident) (generateError : option error)
    (value : jsval) (cached : option nat) (report : Report) (err : option error) :
  keeps (finalize once id generateError value cached report err).
Proof. unfold finalize. keeps_all. Qed.
#[local] Hint Resolve keeps_finalize : policy.

Lemma keeps_call (cb : callback) (err : option error) : keeps (call cb err).
Proof. unfold call. keeps_all. Qed.
#[local] Hint Resolve keeps_call : policy.

Lemma keeps_set (localDate : Z -> Z -> Z -> Z) (k : key) (value : jsval)
    (ttl_ : option Z) (cb : callback) (clock : Z) :
  keeps (set localDate k value ttl_ cb clock).
Proof. unfold set. keeps_all. Qed.
#[local] Hint Resolve keeps_set : policy.

Lemma keeps_drop (k : key) (cb : callback) : keeps (drop k cb).
Proof. unfold drop. keeps_all. Qed.
#[local] Hint Resolve keeps_drop : policy.

Lemma keeps_on_backend_done (cb : callback) (err : option error) :
  keeps (on_backend_done cb err).
Proof. unfold on_backend_done. keeps_all. Qed.
#[local] Hint Resolve keeps_on_backend_done : policy.

Lemma keeps_on_generated (localDate : Z -> Z -> Z -> Z) (once : nat) (id : ident)
    (k : key) (cached : option nat) (report : Report) (generateError : option error)
    (value : jsval) (ttl_ : option Z) (clock : Z) :
  keeps (on_generated localDate once id k cached report generateError value ttl_ clock).
Proof. unfold on_generated. keeps_all. Qed.
#[local] Hint Resolve keeps_on_generated : policy.

Lemma keeps_on_throw (once : nat) (id : ident) (report : Report) (err : option error) :
  keeps (on_throw once id report err).
Proof. unfold on_throw. keeps_all. Qed.
#[local] Hint Resolve keeps_on_throw : policy.

Lemma keeps_callGenerateFunc (id : ident) (k : key) (cached : option nat)
    (report : Report) (once : nat) :
  keeps (_callGenerateFunc id k cached report once).
Proof. unfold _callGenerateFunc. keeps_all. Qed.
#[local] Hint Resolve keeps_callGenerateFunc : policy.

Lemma keeps_new_once : keeps new_once.
Proof. unfold new_once. keeps_all. Qed.
#[local] Hint Resolve keeps_new_once : policy.

Lemma keeps_generate (id : ident) (k : key) (cached : option nat) (report : Report) :
  keeps (_generate id k cached report).
Proof. unfold _generate. keeps_all. Qed.
#[local] Hint Resolve keeps_generate : policy.

Lemma keeps_on_get (id : ident) (k : key) (err : option error) (cached : option entry)
    (msec now userStaleIn : Z) :
  keeps (on_get id k err cached msec now userStaleIn).
Proof. unfold on_get. keeps_all. Qed.
#[local] Hint Resolve keeps_on_get : policy.

Lemma keeps_rules (o : option options) : keeps (rules o).
Proof. unfold rules. keeps_all. Qed.
#[local] Hint Resolve keeps_rules : policy.

Lemma keeps_fire (localDate : Z -> Z -> Z -> Z) (k : closure) (a : args) :
  keeps (fire localDate k a).
Proof. unfold fire. keeps_all. Qed.
#[local] Hint Resolve keeps_fire : policy.

Lemma keeps_step (localDate : Z -> Z -> Z -> Z) (e : event) :
  (forall k cb domain, e <> CallGet k cb domain) -> keeps (step localDate e).
Proof.
  intros Hne. destruct e as [k cb domain | | | |]; cbn [step].
  - exfalso. exact (Hne k cb domain eq_refl).
  - auto with policy.
  - auto with policy.
  - auto with policy.
  - auto with policy.
Qed.

(** ** get *)

(** The backend read that the first caller for an id starts. *)
Lemma get_coalesced (k : key) (cb : nat) (domain : option nat) (p : Policy)
    (ws : list waiter) :
  _pendings p !! pendingsId (key_id k) = Some ws ->
  get k cb domain p =
    (Ok tt,
     with_pendings
       (<[pendingsId (key_id k) := ws ++ [{| w_callback := cb; w_domain := domain |}]]>)
       (with_stats (bump Gets 1) p)).
Proof.
  intros Hws. unfold get.
  cbv [mbind M_bind bind this modify count mret M_ret ret].
  cbn [_pendings with_stats]. rewrite Hws. reflexivity.
Qed.

Lemma get_first (k : key) (cb : nat) (domain : option nat) (p : Policy) :
  _pendings p !! pendingsId (key_id k) = None ->
  get k cb domain p =
    (Ok tt,
     with_effects
       (fun l => l ++ [if _cache p then BackendGet (key_id k) (OnGet (key_id k) k)
                       else TickCall (OnGet (key_id k) k)])
       (with_pendings
          (<[pendingsId (key_id k) := [{| w_callback := cb; w_domain := None |}]]>)
          (with_stats (bump Gets 1) p))).
Proof.
  intros Hws. unfold get, _get, emit.
  cbv [mbind M_bind bind this modify count mret M_ret ret].
  cbn [_pendings with_stats]. rewrite Hws.
  cbn [_cache with_stats with_pendings].
  destruct (_cache p); reflexivity.
Qed.

(** One event moves nobody out of [tokens], adds the callback of a [get]
    at the end of the list of its id, and keeps [stats.hits] in step with
    the deliveries. *)
Lemma step_tokens (localDate : Z -> Z -> Z -> Z) (e : event) (p : Policy) (pid : string) :
  w_callback <$> tokens pid (exec (step localDate e) p)
  = (w_callback <$> tokens pid p) ++ attached_for pid [e].
Proof.
  destruct e as [k cb domain | k v t cb clock | k cb | o | k a].
  - cbn [step]. unfold attached_for, exec, tokens, waiting_for. cbn [omap list_omap].
    destruct (_pendings p !! pendingsId (key_id k)) as [ws |] eqn:Hws.
    + rewrite (get_coalesced _ _ _ _ ws Hws).
      cbn [snd effects _pendings with_pendings with_stats].
      destruct (decide (pendingsId (key_id k) = pid)) as [Heq | Hne].
      * subst pid. rewrite lookup_insert_eq, Hws. cbn.
        rewrite !fmap_app, <- app_assoc. reflexivity.
      * rewrite lookup_insert_ne by exact Hne. cbn. rewrite app_nil_r. reflexivity.
    + rewrite (get_first _ _ _ _ Hws).
      cbn [snd effects _pendings with_pendings with_stats with_effects].
      rewrite delivered_for_app.
      replace (delivered_for pid [if _cache p then BackendGet (key_id k) (OnGet (key_id k) k)
                                  else TickCall (OnGet (key_id k) k)])
        with (@nil waiter) by (destruct (_cache p); reflexivity).
      rewrite app_nil_r.
      destruct (decide (pendingsId (key_id k) = pid)) as [Heq | Hne].
      * subst pid. rewrite lookup_insert_eq, Hws. cbn.
        rewrite ?fmap_app. cbn. rewrite ?app_nil_r. reflexivity.
      * rewrite lookup_insert_ne by exact Hne. cbn. rewrite app_nil_r. reflexivity.
  - cbn [attached_for omap]. rewrite app_nil_r.
    destruct (keeps_step localDate (CallSet k v t cb clock)) with (p := p) as [-> _];
      [intros; discriminate | reflexivity].
  - cbn [attached_for omap]. rewrite app_nil_r.
    destruct (keeps_step localDate (CallDrop k cb)) with (p := p) as [-> _];
      [intros; discriminate | reflexivity].
  - cbn [attached_for omap]. rewrite app_nil_r.
    destruct (keeps_step localDate (CallRules o)) with (p := p) as [-> _];
      [intros; discriminate | reflexivity].
  - cbn [attached_for omap]. rewrite app_nil_r.
    destruct (keeps_step localDate (Fire k a)) with (p := p) as [-> _];
      [intros; discriminate | reflexivity].
Qed.


Lemma attached_for_app (pid : string) (t1 t2 : list event) :
  attached_for pid (t1 ++ t2) = attached_for pid t1 ++ attached_for pid t2.
Proof. unfold attached_for. apply omap_app. Qed.

(** Over a whole run: the callbacks attached under an id are, in the order
    of their [get] calls, those already called back followed by those still
    waiting. *)
Lemma run_tokens (localDate : Z -> Z -> Z -> Z) (trace : list event) (p : Policy)
    (pid : string) :
  w_callback <$> tokens pid (run localDate trace p)
  = (w_callback <$> tokens pid p) ++ attached_for pid trace.
Proof.
  induction trace as [| e trace IH] using rev_ind.
  - cbn. rewrite app_nil_r. reflexivity.
  - rewrite run_snoc, step_tokens, IH, attached_for_app, app_assoc. reflexivity.
Qed.


(** Only a [get] that finds no entry starts a lookup. *)
Lemma same_lookups_refl (pid : string) (p : Policy) : same_lookups pid p p.
Proof. reflexivity. Qed.

Lemma same_lookups_trans (pid : string) (p1 p2 p3 : Policy) :
  same_lookups pid p1 p2 -> same_lookups pid p2 p3 -> same_lookups pid p1 p3.
Proof. unfold same_lookups. congruence. Qed.

Lemma lookups_for_app (pid : string) (l1 l2 : list effect) :
  lookups_for pid (l1 ++ l2) = (lookups_for pid l1 + lookups_for pid l2)%nat.
Proof. unfold lookups_for. rewrite List.filter_app, length_app. reflexivity. Qed.

Lemma lookups_for_ticks (pid pid' : string) (c : completion) (ws : list waiter) :
  lookups_for pid (map (fun w => NextTick pid' w c) ws) = 0%nat.
Proof. unfold lookups_for. induction ws as [| w ws IH]; [reflexivity | exact IH]. Qed.

Lemma lookups_modify (pid : string) (f : Policy -> Policy) :
  (forall p, effects (f p) = effects p) -> preserves (same_lookups pid) (modify f).
Proof. intros Hf p. unfold same_lookups, modify. cbn [snd]. rewrite Hf. reflexivity. Qed.

Lemma lookups_emit (pid : string) (e : effect) :
  is_lookup_for pid e = false -> preserves (same_lookups pid) (emit e).
Proof.
  intros He p. unfold same_lookups, emit, modify. cbn [snd effects with_effects].
  rewrite lookups_for_app. unfold lookups_for at 2. cbn. rewrite He. cbn. lia.
Qed.

Lemma lookups_respond (pid : string) (id : ident) (err : option error) (value : jsval)
    (cached : option nat) (report : Report) :
  preserves (same_lookups pid) (respond id err value cached report).
Proof.
  intros p. unfold same_lookups.
  destruct (_pendings p !! pendingsId id) as [ws |] eqn:Hws.
  - rewrite (respond_resolves _ _ _ _ _ _ ws Hws). cbv zeta.
    destruct (bool_decide (r_isStale report ≠ None));
      cbn [snd effects with_effects with_pendings with_stats];
      rewrite lookups_for_app, lookups_for_ticks; lia.
  - rewrite (respond_missing _ _ _ _ _ _ Hws). reflexivity.
Qed.

Ltac lookups_base :=
  match goal with
  | |- preserves (same_lookups _) (count _ _) =>
      apply lookups_modify; intros ?; reflexivity
  | |- preserves (same_lookups _) (emit _) => apply lookups_emit; reflexivity
  | |- preserves (same_lookups _) (modify _) =>
      apply lookups_modify; intros ?; reflexivity
  | |- preserves (same_lookups _) (respond _ _ _ _ _) => apply lookups_respond
  end.

Ltac lookups_all pid :=
  repeat first [lookups_base
               | preserves_step (same_lookups_refl pid) (same_lookups_trans pid)].

Lemma lookups_step (localDate : Z -> Z -> Z -> Z) (pid : string) (e : event) :
  (forall k cb domain, e <> CallGet k cb domain) ->
  preserves (same_lookups pid) (step localDate e).
Proof.
  intros Hne. destruct e as [k cb domain | | | |]; cbn [step].
  - exfalso. exact (Hne k cb domain eq_refl).
  - unfold set, call, finalize, respond_once. lookups_all pid.
  - unfold drop, call, finalize, respond_once. lookups_all pid.
  - unfold rules. lookups_all pid.
  - unfold fire, on_get, on_generated, on_throw, on_backend_done, set, drop, call,
      finalize, _generate, _callGenerateFunc, on_throw, new_once, respond_once.
    lookups_all pid.
Qed.

(** While the entry of an id exists, no event starts a lookup for it. *)
Lemma step_no_lookup (localDate : Z -> Z -> Z -> Z) (pid : string) (e : event) (p : Policy) :
  _pendings p !! pid <> None ->
  lookups_for pid (effects (exec (step localDate e) p)) = lookups_for pid (effects p).
Proof.
  intros Hentry.
  destruct e as [k cb domain | k v t cb clock | k cb | o | k a].
  - cbn [step]. unfold exec.
    destruct (_pendings p !! pendingsId (key_id k)) as [ws |] eqn:Hws.
    + rewrite (get_coalesced _ _ _ _ ws Hws). reflexivity.
    + rewrite (get_first _ _ _ _ Hws).
      cbn [snd effects with_effects with_pendings with_stats].
      rewrite lookups_for_app.
      assert (Hne : pendingsId (key_id k) <> pid) by (intros <-; contradiction).
      unfold lookups_for at 2.
      destruct (_cache p); cbn; rewrite bool_decide_eq_false_2 by exact Hne; cbn; lia.
  - apply (lookups_step localDate pid (CallSet k v t cb clock)). intros; discriminate.
  - apply (lookups_step localDate pid (CallDrop k cb)). intros; discriminate.
  - apply (lookups_step localDate pid (CallRules o)). intros; discriminate.
  - apply (lookups_step localDate pid (Fire k a)). intros; discriminate.
Qed.

Lemma run_no_lookup (localDate : Z -> Z -> Z -> Z) (pid : string) (trace : list event)
    (p : Policy) :
  (forall n, (n < List.length trace)%nat ->
             _pendings (run localDate (take n trace) p) !! pid <> None) ->
  lookups_for pid (effects (run localDate trace p)) = lookups_for pid (effects p).
Proof.
  induction trace as [| e trace IH] using rev_ind; intros Hentry.
  - reflexivity.
  - rewrite run_snoc, step_no_lookup.
    + apply IH. intros n Hn.
      specialize (Hentry n). rewrite length_app in Hentry. cbn in Hentry.
      rewrite take_app_le in Hentry by lia. apply Hentry. lia.
    + specialize (Hentry (List.length trace)).
      rewrite length_app in Hentry. cbn in Hentry.
      rewrite take_app_le, firstn_all in Hentry by lia. apply Hentry. lia.
Qed.

(** Further callers for an id whose entry exists only lengthen the entry. *)
Lemma get_burst (localDate : Z -> Z -> Z -> Z) (pid : string)
    (others : list (key * nat * option nat)) :
  forall (q : Policy) (ws : list waiter),
  _pendings q !! pid = Some ws ->
  Forall (fun c => pendingsId (key_id c.1.1) = pid) others ->
  effects (run localDate (map (fun c => CallGet c.1.1 c.1.2 c.2) others) q) = effects q
  /\ _pendings (run localDate (map (fun c => CallGet c.1.1 c.1.2 c.2) others) q) !! pid
     = Some (ws ++ map (fun c => {| w_callback := c.1.2; w_domain := c.2 |}) others)
  /\ gets (stats (run localDate (map (fun c => CallGet c.1.1 c.1.2 c.2) others) q))
     = (gets (stats q) + List.length others)%nat.
Proof.
  induction others as [| [[k cb] domain] others IH]; intros q ws Hws Hall.
  - cbn. rewrite app_nil_r. auto.
  - apply Forall_cons in Hall as [Hk Hall]. cbn in Hk. subst pid.
    cbn [map fst snd]. rewrite !run_cons.
    assert (Hq : exec (step localDate (CallGet k cb domain)) q
                 = with_pendings
                     (<[pendingsId (key_id k)
                        := ws ++ [{| w_callback := cb; w_domain := domain |}]]>)
                     (with_stats (bump Gets 1) q)).
    { unfold exec. cbn [step]. rewrite (get_coalesced _ _ _ _ ws Hws). reflexivity. }
    destruct (IH (exec (step localDate (CallGet k cb domain)) q)
                 (ws ++ [{| w_callback := cb; w_domain := domain |}]))
      as (He & Hp & Hg); [| exact Hall |].
    + rewrite Hq. cbn [_pendings with_pendings with_stats]. apply lookup_insert_eq.
    + rewrite He, Hp, Hg, Hq. cbn. rewrite <- app_assoc. repeat split. lia.
Qed.

(** C1.  While the pendings table has an entry for the prefixed id, a
    further [get] for that id only counts the call and appends its callback
    to the entry: it makes no call to the backend (nor any other).  Hence
    of any number of [get] calls for an id that arrive before a resolution,
    the first one alone starts the lookup [_get] - a backend [get] when the
    policy has a backend - and the entry lists all callers in order.  More
    generally, over any sequence of events during which the entry of an id
    exists, no lookup is started for that id. *)
Theorem get_single_flight (localDate : Z -> Z -> Z -> Z) (p : Policy) (k : key)
    (cb : nat) (domain : option nat) :
  (forall ws, _pendings p !! pendingsId (key_id k) = Some ws ->
     get k cb domain p
     = (Ok tt,
        with_pendings
          (<[pendingsId (key_id k) := ws ++ [{| w_callback := cb; w_domain := domain |}]]>)
          (with_stats (bump Gets 1) p))
     /\ effects (exec (get k cb domain) p) = effects p)
  /\ (forall others : list (key * nat * option nat),
        _pendings p !! pendingsId (key_id k) = None ->
        Forall (fun c => pendingsId (key_id c.1.1) = pendingsId (key_id k)) others ->
        let p' := run localDate
                    (CallGet k cb domain :: map (fun c => CallGet c.1.1 c.1.2 c.2) others) p in
        effects p' = effects p ++
                     [if _cache p then BackendGet (key_id k) (OnGet (key_id k) k)
                      else TickCall (OnGet (key_id k) k)]
        /\ _pendings p' !! pendingsId (key_id k)
           = Some ({| w_callback := cb; w_domain := None |}
                   :: map (fun c => {| w_callback := c.1.2; w_domain := c.2 |}) others)
        /\ gets (stats p') = (gets (stats p) + 1 + List.length others)%nat)
  /\ (forall trace pid,
        (forall n, (n < List.length trace)%nat ->
                   _pendings (run localDate (take n trace) p) !! pid <> None) ->
        lookups_for pid (effects (run localDate trace p)) = lookups_for pid (effects p)).
Proof.
  split; [| split].
  - intros ws Hws. unfold exec. rewrite (get_coalesced _ _ _ _ ws Hws). auto.
  - intros others Hnone Hall p'. subst p'.
    rewrite !run_cons.
    assert (Hq : exec (step localDate (CallGet k cb domain)) p
                 = with_effects
                     (fun l => l ++ [if _cache p then BackendGet (key_id k) (OnGet (key_id k) k)
                                     else TickCall (OnGet (key_id k) k)])
                     (with_pendings
                        (<[pendingsId (key_id k) := [{| w_callback := cb; w_domain := None |}]]>)
                        (with_stats (bump Gets 1) p))).
    { unfold exec. cbn [step]. rewrite (get_first _ _ _ _ Hnone). reflexivity. }
    destruct (get_burst localDate (pendingsId (key_id k)) others
                (exec (step localDate (CallGet k cb domain)) p)
                [{| w_callback := cb; w_domain := None |}]) as (He & Hp & Hg);
      [| exact Hall |].
    + rewrite Hq. cbn [_pendings with_pendings with_stats with_effects].
      apply lookup_insert_eq.
    + rewrite He, Hp, Hg, Hq. cbn. repeat split.
  - intros trace pid Hentry. apply run_no_lookup. exact Hentry.
Qed.

(** ** respond and its once-wrapper *)

Lemma respond_once_first (once : nat) (id : ident) (err : option error) (value : jsval)
    (cached : option nat) (report : Report) (p : Policy) :
  onces p !! once = Some false ->
  respond_once once id err value cached report p
  = respond id err value cached report (with_onces (<[once := true]>) p).
Proof.
  intros Hflag. unfold respond_once.
  cbv [mbind M_bind bind this modify mret M_ret ret]. rewrite Hflag. reflexivity.
Qed.

Lemma respond_once_spent (once : nat) (id : ident) (err : option error) (value : jsval)
    (cached : option nat) (report : Report) (p : Policy) :
  onces p !! once = Some true ->
  respond_once once id err value cached report p = (Ok tt, p).
Proof.
  intros Hflag. unfold respond_once.
  cbv [mbind M_bind bind this modify mret M_ret ret]. rewrite Hflag. reflexivity.
Qed.

Lemma quiet_refl (once : nat) (p : Policy) : quiet once p p.
Proof. intros H. auto. Qed.

Lemma quiet_trans (once : nat) (p1 p2 p3 : Policy) :
  quiet once p1 p2 -> quiet once p2 p3 -> quiet once p1 p3.
Proof.
  intros H12 H23 H1. destruct (H12 H1) as (H2 & Hp & He & Hh).
  destruct (H23 H2) as (H3 & Hp' & He' & Hh').
  repeat split; congruence.
Qed.

Lemma quiet_modify (once : nat) (f : Policy -> Policy) :
  (forall p, onces (f p) = onces p /\ _pendings (f p) = _pendings p
             /\ effects (f p) = effects p /\ hits (stats (f p)) = hits (stats p)) ->
  preserves (quiet once) (modify f).
Proof.
  intros Hf p Hflag. destruct (Hf p) as (Ho & Hp & He & Hh). cbn.
  rewrite Ho, Hp, He, Hh. auto.
Qed.

Lemma quiet_count (once : nat) (c : counter) (n : nat) :
  c <> Hits -> preserves (quiet once) (count c n).
Proof.
  intros Hc. apply quiet_modify. intros p.
  destruct c; try contradiction; repeat split.
Qed.

Lemma quiet_emit (once : nat) (e : effect) :
  is_delivery e = false -> preserves (quiet once) (emit e).
Proof.
  intros He p Hflag. cbn. rewrite List.filter_app. cbn. rewrite He, app_nil_r. auto.
Qed.

Lemma quiet_respond_once (once : nat) (id : ident) (err : option error) (value : jsval)
    (cached : option nat) (report : Report) :
  preserves (quiet once) (respond_once once id err value cached report).
Proof. intros p Hflag. rewrite respond_once_spent by exact Hflag. auto. Qed.

Create HintDb quiet.
#[local] Hint Resolve quiet_respond_once : quiet.

Ltac quiet_base :=
  match goal with
  | |- preserves (quiet _) (count _ _) => apply quiet_count; discriminate
  | |- preserves (quiet _) (emit _) => apply quiet_emit; reflexivity
  | |- preserves (quiet _) (modify _) => apply quiet_modify; intros ?; repeat split
  | |- preserves (quiet _) _ => solve [auto with quiet]
  end.

Ltac quiet_all once :=
  repeat first [quiet_base | preserves_step (quiet_refl once) (quiet_trans once)].

Lemma quiet_finalize (once : nat) (id : ident) (generateError : option error)
    (value : jsval) (cached : option nat) (report : Report) (err : option error) :
  preserves (quiet once) (finalize once id generateError value cached report err).
Proof. unfold finalize. quiet_all once. Qed.
#[local] Hint Resolve quiet_finalize : quiet.

Lemma quiet_call (once : nat) (id : ident) (generateError : option error)
    (value : jsval) (cached : option nat) (report : Report) (err : option error) :
  preserves (quiet once) (call (CbFinalize once id generateError value cached report) err).
Proof. unfold call. quiet_all once. Qed.
#[local] Hint Resolve quiet_call : quiet.

Lemma quiet_fire (localDate : Z -> Z -> Z -> Z) (once : nat) (k : closure) (a : args) :
  guard_of k = Some once -> preserves (quiet once) (fire localDate k a).
Proof.
  intros Hk.
  destruct k as [| o | o | | o | o | [| | o]]; cbn in Hk; try discriminate;
    injection Hk as ->;
    unfold fire, on_generated, on_throw, on_backend_done, set, drop;
    quiet_all once.
Qed.

(** X22.  (1) Over any run, the callbacks attached under an id
    are, in attachment order, exactly those already called back followed by
    those still waiting: nobody is called twice, skipped over or called out
    of turn.  (2) The first call through a once-wrapper, made while the
    entry exists, calls every waiter of the entry once, in the entry's
    order, with the same [(err, value, cached, report)], and removes the
    entry.  (3) Once a wrapper is used, firing any closure that resolves
    through it (stale timer, generate timeout, producer callback, catch
    clause, write-back completion) touches no waiter and delivers nothing. *)
Theorem delivery_at_most_once_fifo (localDate : Z -> Z -> Z -> Z) (p : Policy) :
  (forall trace pid,
     w_callback <$> tokens pid (run localDate trace p)
     = (w_callback <$> tokens pid p) ++ attached_for pid trace)
  /\ (forall once id err value cached report ws,
        onces p !! once = Some false ->
        _pendings p !! pendingsId id = Some ws ->
        let p' := exec (respond_once once id err value cached report) p in
        effects p' = effects p ++
                     map (fun w => NextTick (pendingsId id) w
                                     {| d_err := err; d_value := value;
                                        d_cached := cached; d_report := report |}) ws
        /\ _pendings p' !! pendingsId id = None
        /\ onces p' !! once = Some true)
  /\ (forall k a once,
        guard_of k = Some once ->
        onces p !! once = Some true ->
        let p' := exec (fire localDate k a) p in
        _pendings p' = _pendings p
        /\ List.filter is_delivery (effects p') = List.filter is_delivery (effects p)).
Proof.
  split; [| split].
  - intros trace pid. apply run_tokens.
  - intros once id err value cached report ws Hflag Hws p'. subst p'. unfold exec.
    rewrite respond_once_first by exact Hflag.
    rewrite (respond_resolves _ _ _ _ _ _ ws) by exact Hws. cbv zeta.
    destruct (bool_decide (r_isStale report ≠ None));
      cbn [snd effects _pendings onces with_effects with_pendings with_stats with_onces];
      (repeat split;
       [ apply lookup_delete_eq
       | apply list_lookup_insert_eq; eapply lookup_lt_Some; exact Hflag ]).
  - intros k a once Hk Hflag p'. subst p'.
    destruct (quiet_fire localDate once k a Hk p Hflag) as (_ & Hp & He & _). auto.
Qed.

(** ** stats.hits *)



(** The miss path of [_generate], spelled out. *)
Lemma generate_miss (id : ident) (k : key) (report : Report) (p : Policy) (f : nat) :
  generateFunc (rule p) = Some f ->
  let once := List.length (onces p) in
  let p' := exec (_generate id k None report) p in
  effects p' = effects p ++ miss_timer (rule p) once id report
                         ++ producer_effects p once id k None report f
  /\ hits (stats p') = hits (stats p)
  /\ _pendings p' = _pendings p.
Proof.
  intros Hgen. destruct p as [ca r pend pgc st hp on ef]. cbn in Hgen.
  unfold exec, _generate, new_once, _callGenerateFunc, emit, producer_effects, miss_timer.
  cbv [mbind M_bind bind this modify count when mret M_ret ret]. cbn.
  destruct (generateTimeout r) as [[ms |] |]; cbn;
    try (destruct (negb (ms =? 0)); cbn);
    destruct (default false (pgc !! pendingsId id)); cbn;
    try (destruct (num_truthy (pendingGenerateTimeout r)); cbn; rewrite Hgen; cbn);
    rewrite <- ?app_assoc, ?app_nil_r; repeat split.
Qed.

(** The reply of the backend on the miss path of a policy with a producer:
    nothing is delivered yet, and every closure handed out holds a report
    without [isStale]. *)
Lemma on_get_miss (id : ident) (k : key) (err : option error)
    (msec now userStaleIn : Z) (p : Policy) (f : nat) :
  generateFunc (rule p) = Some f ->
  err = None \/ generateOnReadError (rule p) = Some true ->
  let once := List.length (onces p) in
  let report := {| r_msec := msec; r_error := err; r_stored := None;
                   r_ttl := None; r_isStale := None |} in
  let p1 := exec (on_get id k err None msec now userStaleIn) p in
  effects p1 = effects p ++ miss_timer (rule p) once id report
                         ++ producer_effects p once id k None report f
  /\ hits (stats p1) = hits (stats p).
Proof.
  intros Hgen Herr once report p1.
  set (q := if bool_decide (err ≠ None) then with_stats (bump Errors 1) p else p).
  assert (Hp1 : p1 = exec (_generate id k None report) q).
  { subst p1 q report. destruct p as [ca r pend pgc st hp on ef]. cbn in *.
    unfold exec, on_get.
    cbv [mbind M_bind bind this modify count when mret M_ret ret].
    destruct Herr as [-> | Hro].
    - cbn. rewrite Hgen. cbn. reflexivity.
    - destruct err as [msg |]; cbn; rewrite Hgen, ?Hro; cbn; reflexivity. }
  assert (Hq : rule q = rule p /\ effects q = effects p /\ onces q = onces p
               /\ _pendingGenerateCall q = _pendingGenerateCall p
               /\ hits (stats q) = hits (stats p)).
  { subst q. destruct (bool_decide (err ≠ None)); repeat split. }
  destruct Hq as (Hrule & Heff & Honce & Hpgc & Hhits).
  destruct (generate_miss id k report q f) as (He & Hh & _).
  { rewrite Hrule. exact Hgen. }
  rewrite Hp1. split.
  - rewrite He, Heff, Hrule, Honce. unfold producer_effects. rewrite Hpgc, Hrule.
    reflexivity.
  - rewrite Hh. exact Hhits.
Qed.


(** ** drop *)

(** C9, as amended.  For a policy with a backend: a [drop] whose key gives
    no id (the id is falsy: null, undefined, empty or zero) calls the
    callback at once with the error "Invalid key" and does nothing else;
    otherwise the drop goes to the backend, and when the backend answers,
    an error adds one to [stats.errors] and the callback receives the
    backend's answer.  For a policy without a backend, [drop] calls the
    callback at once with no error, whatever the key. *)
Theorem drop_dispatch (localDate : Z -> Z -> Z -> Z) (p : Policy) (k : key) (f : nat) :
  (_cache p = true -> id_truthy (key_id k) = false ->
     step localDate (CallDrop k (Some f)) p
     = (Ok tt, with_effects (fun l => l ++ [CallUser f (Some "Invalid key"%string)]) p))
  /\ (_cache p = true -> id_truthy (key_id k) = true ->
        step localDate (CallDrop k (Some f)) p
        = (Ok tt, with_effects
                    (fun l => l ++ [BackendDrop (key_id k) (OnBackendDone (CbUser f))]) p))
  /\ (forall a msg, a_err a = Some msg ->
        step localDate (Fire (OnBackendDone (CbUser f)) a) p
        = (Ok tt, with_effects (fun l => l ++ [CallUser f (Some msg)])
                    (with_stats (bump Errors 1) p)))
  /\ (forall a, a_err a = None ->
        step localDate (Fire (OnBackendDone (CbUser f)) a) p
        = (Ok tt, with_effects (fun l => l ++ [CallUser f None]) p))
  /\ (_cache p = false ->
        step localDate (CallDrop k (Some f)) p
        = (Ok tt, with_effects (fun l => l ++ [CallUser f None]) p)).
Proof.
  split; [| split; [| split; [| split]]].
  - intros Hc Hid. cbn. unfold drop, call, emit.
    cbv [mbind M_bind bind this modify mret M_ret ret]. rewrite Hc, Hid. reflexivity.
  - intros Hc Hid. cbn. unfold drop, call, emit.
    cbv [mbind M_bind bind this modify mret M_ret ret]. rewrite Hc, Hid. reflexivity.
  - intros a msg Ha. cbn. unfold on_backend_done, call, emit.
    cbv [mbind M_bind bind this modify count when mret M_ret ret]. rewrite Ha. reflexivity.
  - intros a Ha. cbn. unfold on_backend_done, call, emit.
    cbv [mbind M_bind bind this modify count when mret M_ret ret]. rewrite Ha. reflexivity.
  - intros Hc. cbn. unfold drop, call, emit.
    cbv [mbind M_bind bind this modify mret M_ret ret]. rewrite Hc. reflexivity.
Qed.

(** ** The producer's callback *)

Lemma finalize_delivers (once : nat) (id : ident) (generateError : option error)
    (value : jsval) (cached : option nat) (report : Report) (err : option error)
    (p : Policy) (ws : list waiter) :
  onces p !! once = Some false ->
  _pendings p !! pendingsId id = Some ws ->
  let error :=
    match generateError with
    | Some e => Some e
    | None => if flag (generateIgnoreWriteError (rule p)) then None else err
    end in
  let answer :=
    match cached, error with
    | Some c, Some _ =>
        if negb (flag (dropOnError (rule p)))
        then {| d_err := error; d_value := item_of p c; d_cached := Some c;
                d_report := report |}
        else {| d_err := error; d_value := value; d_cached := None; d_report := report |}
    | _, _ => {| d_err := error; d_value := value; d_cached := None; d_report := report |}
    end in
  effects (exec (finalize once id generateError value cached report err) p)
  = effects p ++ map (fun w => NextTick (pendingsId id) w answer) ws.
Proof.
  intros Hflag Hws error answer. subst error answer. unfold exec, finalize.
  cbv [mbind M_bind bind this].
  assert (Hgo : forall e v c,
    effects (respond_once once id e v c report p).2
    = effects p ++ map (fun w => NextTick (pendingsId id) w
                          {| d_err := e; d_value := v; d_cached := c;
                             d_report := report |}) ws).
  { intros e v c. rewrite respond_once_first by exact Hflag.
    rewrite (respond_resolves _ _ _ _ _ _ ws) by exact Hws. cbv zeta.
    destruct (bool_decide (r_isStale report ≠ None)); reflexivity. }
  destruct cached as [c |];
    destruct generateError as [e |];
    try destruct (flag (generateIgnoreWriteError (rule p)));
    try destruct err as [e' |];
    try destruct (flag (dropOnError (rule p)));
    cbn [negb]; apply Hgo.
Qed.

(** C3.  When the producer's callback fires with
    [(generateError, value, ttl)] the pending mark of the id is cleared and
    then: [drop(id, finalize)] is invoked if [generateError] is truthy and
    [dropOnError] is true, or if [ttl === 0]; otherwise
    [set(id, value, ttl, finalize)] is invoked if [generateError] is falsy;
    otherwise [finalize()] runs directly.  With a backend these are one
    backend [drop], resp. one backend [set], whose completion runs
    [finalize] with the backend's answer.  [finalize(err)] resolves with
    the error [generateError], or else [err] unless
    [generateIgnoreWriteError] is true; the waiters receive
    [(error, cached.item, cached, report)] when a cached entry exists, the
    error is truthy and [dropOnError] is false, and
    [(error, value, null, report)] otherwise. *)
Theorem producer_disposition (localDate : Z -> Z -> Z -> Z) (p : Policy) (once : nat)
    (id : ident) (k : key) (cached : option nat) (report : Report)
    (generateError : option error) (value : jsval) (ttl_ : option Z) (clock : Z) :
  let p0 := with_pendingGenerateCall (delete (pendingsId id)) p in
  let fin := CbFinalize once id generateError value cached report in
  let dropping :=
    (generateError <> None /\ dropOnError (rule p) = Some true) \/ ttl_ = Some 0 in
  let fired := on_generated localDate once id k cached report generateError value ttl_ clock p in
  (dropping -> fired = drop (KId id) fin p0)
  /\ (~ dropping -> generateError = None ->
        fired = set localDate (KId id) value ttl_ fin clock p0)
  /\ (~ dropping -> generateError <> None ->
        fired = finalize once id generateError value cached report None p0)
  /\ (dropping -> _cache p = true -> id_truthy id = true ->
        fired = (Ok tt, with_effects
                          (fun l => l ++ [BackendDrop id (OnBackendDone fin)]) p0))
  /\ (~ dropping -> generateError = None -> _cache p = true ->
        fired = (Ok tt, with_effects
                          (fun l => l ++ [BackendSet id value
                                            (num_or ttl_ (ttl localDate (rule p) None None clock))
                                            (OnBackendDone fin)])
                          (with_stats (bump Sets 1) p0)))
  /\ (forall a,
        fire localDate (OnBackendDone fin) a p
        = (when (bool_decide (a_err a ≠ None)) (count Errors 1);;
           finalize once id generateError value cached report (a_err a)) p)
  /\ (forall err ws,
        onces p !! once = Some false ->
        _pendings p !! pendingsId id = Some ws ->
        let error :=
          match generateError with
          | Some e => Some e
          | None => if flag (generateIgnoreWriteError (rule p)) then None else err
          end in
        let answer :=
          match cached, error with
          | Some c, Some _ =>
              if negb (flag (dropOnError (rule p)))
              then {| d_err := error; d_value := item_of p c; d_cached := Some c;
                      d_report := report |}
              else {| d_err := error; d_value := value; d_cached := None;
                      d_report := report |}
          | _, _ => {| d_err := error; d_value := value; d_cached := None;
                       d_report := report |}
          end in
        effects (exec (finalize once id generateError value cached report err) p)
        = effects p ++ map (fun w => NextTick (pendingsId id) w answer) ws).
Proof.
  intros p0 fin dropping fired.
  assert (Hdrop : dropping ->
            (bool_decide (generateError ≠ None) && flag (dropOnError (rule p)))
            || bool_decide (ttl_ = Some 0) = true).
  { intros [[Hg Hd] | Ht].
    - rewrite Hd. cbn. rewrite bool_decide_eq_true_2 by exact Hg. reflexivity.
    - rewrite (bool_decide_eq_true_2 _ Ht). apply orb_true_r. }
  assert (Hkeep : ~ dropping ->
            (bool_decide (generateError ≠ None) && flag (dropOnError (rule p)))
            || bool_decide (ttl_ = Some 0) = false).
  { intros Hn. apply orb_false_intro.
    - destruct (bool_decide (generateError ≠ None)) eqn:Hg; [| reflexivity].
      apply bool_decide_eq_true_1 in Hg. cbn.
      destruct (dropOnError (rule p)) as [[|] |] eqn:Hd; try reflexivity.
      exfalso. apply Hn. left. auto.
    - apply bool_decide_eq_false_2. intros Ht. apply Hn. right. exact Ht. }
  assert (Hfired : fired =
            (if (bool_decide (generateError ≠ None) && flag (dropOnError (rule p)))
                || bool_decide (ttl_ = Some 0)
             then drop (KId id) fin
             else if bool_decide (generateError = None)
                  then set localDate (KId id) value ttl_ fin clock
                  else call fin None) p0).
  { reflexivity. }
  split; [| split; [| split; [| split; [| split; [| split]]]]].
  - intros Hd. rewrite Hfired, (Hdrop Hd). reflexivity.
  - intros Hn Hg. rewrite Hfired, (Hkeep Hn), (bool_decide_eq_true_2 _ Hg). reflexivity.
  - intros Hn Hg. rewrite Hfired, (Hkeep Hn), (bool_decide_eq_false_2 _ Hg). reflexivity.
  - intros Hd Hc Hid. rewrite Hfired, (Hdrop Hd). unfold drop, emit.
    cbv [mbind M_bind bind this modify mret M_ret ret].
    subst p0. cbn [_cache with_pendingGenerateCall key_id]. rewrite Hc, Hid. reflexivity.
  - intros Hn Hg Hc. rewrite Hfired, (Hkeep Hn), (bool_decide_eq_true_2 _ Hg).
    unfold set, emit. cbv [mbind M_bind bind this modify count mret M_ret ret].
    subst p0. cbn [_cache rule with_stats with_pendingGenerateCall key_id].
    rewrite Hc. reflexivity.
  - intros a. reflexivity.
  - intros err ws Hflag Hws. apply finalize_delivers; assumption.
Qed.

(** ** _generate *)

(** The stale path of [_generate], spelled out. *)
Lemma generate_stale (id : ident) (k : key) (c : nat) (report : Report) (p : Policy)
    (obj : cachedObj) (f : nat) :
  heap p !! c = Some obj ->
  generateFunc (rule p) = Some f ->
  let once := List.length (onces p) in
  let p' := exec (_generate id k (Some c) report) p in
  heap p' = <[c := adjusted (rule p) obj]> (heap p)
  /\ effects p' = effects p ++
       (if number_pos (c_ttl (adjusted (rule p) obj))
        then [SetTimeout (OnStaleTimeout once id c report) (staleTimeout (rule p))]
        else [])
       ++ producer_effects p once id k (Some c) report f
  /\ _pendings p' = _pendings p
  /\ onces p' = onces p ++ [false]
  /\ rule p' = rule p.
Proof.
  intros Hobj Hgen. destruct p as [ca r pend pgc st hp on ef]. cbn in Hobj, Hgen.
  assert (Hlook : <[c := adjusted r obj]> hp !! c = Some (adjusted r obj)).
  { apply list_lookup_insert_eq. eapply lookup_lt_Some. exact Hobj. }
  unfold exec, _generate, new_once, _callGenerateFunc, emit, producer_effects.
  cbv [mbind M_bind bind this modify count when mret M_ret ret]. cbn.
  rewrite Hobj. fold (adjusted r obj). rewrite Hlook. cbn.
  destruct (number_pos (number_minus (c_ttl obj) (staleTimeout r))); cbn;
    destruct (default false (pgc !! pendingsId id)); cbn;
    try (destruct (num_truthy (pendingGenerateTimeout r)); cbn; rewrite Hgen; cbn);
    rewrite <- ?app_assoc, ?app_nil_r; repeat split; rewrite Hobj; reflexivity.
Qed.

(** ** The cached object is shared, and written once *)

Lemma same_heap_refl (p : Policy) : same_heap p p.
Proof. reflexivity. Qed.

Lemma same_heap_trans (p1 p2 p3 : Policy) :
  same_heap p1 p2 -> same_heap p2 p3 -> same_heap p1 p3.
Proof. unfold same_heap. congruence. Qed.

Lemma same_heap_modify (f : Policy -> Policy) :
  (forall p, heap (f p) = heap p) -> preserves same_heap (modify f).
Proof. intros Hf p. apply Hf. Qed.

Create HintDb heap.

Ltac heap_base :=
  match goal with
  | |- preserves same_heap (count _ _) => apply same_heap_modify; intros ?; reflexivity
  | |- preserves same_heap (emit _) => apply same_heap_modify; intros ?; reflexivity
  | |- preserves same_heap (modify _) => apply same_heap_modify; intros ?; reflexivity
  | |- preserves same_heap _ => solve [auto with heap]
  end.

Ltac heap_all := repeat first [heap_base | preserves_step same_heap_refl same_heap_trans].

Lemma heap_respond (id : ident) (err : option error) (value : jsval)
    (cached : option nat) (report : Report) :
  preserves same_heap (respond id err value cached report).
Proof. unfold respond. heap_all. Qed.
#[local] Hint Resolve heap_respond : heap.

Lemma heap_respond_once (once : nat) (id : ident) (err : option error) (value : jsval)
    (cached : option nat) (report : Report) :
  preserves same_heap (respond_once once id err value cached report).
Proof. unfold respond_once. heap_all. Qed.
#[local] Hint Resolve heap_respond_once : heap.

Lemma heap_finalize (once : nat) (id : ident) (generateError : option error)
    (value : jsval) (cached : option nat) (report : Report) (err : option error) :
  preserves same_heap (finalize once id generateError value cached report err).
Proof. unfold finalize. heap_all. Qed.
#[local] Hint Resolve heap_finalize : heap.

Lemma heap_call (cb : callback) (err : option error) : preserves same_heap (call cb err).
Proof. unfold call. heap_all. Qed.
#[local] Hint Resolve heap_call : heap.

Lemma heap_callGenerateFunc (id : ident) (k : key) (cached : option nat)
    (report : Report) (once : nat) :
  preserves same_heap (_callGenerateFunc id k cached report once).
Proof. unfold _callGenerateFunc, on_throw. heap_all. Qed.
#[local] Hint Resolve heap_callGenerateFunc : heap.

Lemma heap_get (k : key) (cb : nat) (domain : option nat) :
  preserves same_heap (get k cb domain).
Proof. unfold get, _get. heap_all. Qed.
#[local] Hint Resolve heap_get : heap.

Lemma heap_rules (o : option options) : preserves same_heap (rules o).
Proof. unfold rules. heap_all. Qed.
#[local] Hint Resolve heap_rules : heap.

Lemma heap_set (localDate : Z -> Z -> Z -> Z) (k : key) (value : jsval)
    (ttl_ : option Z) (cb : callback) (clock : Z) :
  preserves same_heap (set localDate k value ttl_ cb clock).
Proof. unfold set. heap_all. Qed.
#[local] Hint Resolve heap_set : heap.

Lemma heap_drop (k : key) (cb : callback) : preserves same_heap (drop k cb).
Proof. unfold drop. heap_all. Qed.
#[local] Hint Resolve heap_drop : heap.

(** [_generate] writes the heap at most at the object it was given. *)
Lemma generate_heap (id : ident) (k : key) (cached : option nat) (report : Report)
    (p : Policy) :
  heap (exec (_generate id k cached report) p)
  = match cached with
    | Some c =>
        match heap p !! c with
        | Some o => <[c := adjusted (rule p) o]> (heap p)
        | None => heap p
        end
    | None => heap p
    end.
Proof.
  assert (Hcall : forall o q, heap (_callGenerateFunc id k cached report o q).2 = heap q).
  { intros o q. apply heap_callGenerateFunc. }
  destruct p as [ca r pend pgc st hp on ef].
  unfold exec, _generate, new_once, emit.
  cbv [mbind M_bind bind this modify count when mret M_ret ret]. cbn.
  destruct cached as [c |].
  - destruct (hp !! c) as [o |] eqn:Ho; cbn; rewrite ?Ho; cbn;
      repeat (match goal with
              | |- context [if ?b then _ else _] => destruct b; cbn
              end);
      rewrite ?Hcall; cbn; rewrite ?Ho; reflexivity.
  - destruct (generateTimeout r) as [[ms |] |]; cbn;
      repeat (match goal with
              | |- context [if ?b then _ else _] => destruct b; cbn
              end);
      rewrite ?Hcall; reflexivity.
Qed.

Lemma heap_respond_eq (id : ident) (err : option error) (value : jsval)
    (cached : option nat) (report : Report) (p : Policy) :
  heap (respond id err value cached report p).2 = heap p.
Proof. apply heap_respond. Qed.

Lemma heap_fire_timer (localDate : Z -> Z -> Z -> Z) (k : closure) (a : args) :
  (forall id key, k <> OnGet id key) -> preserves same_heap (fire localDate k a).
Proof.
  intros Hk. destruct k as [id key | | | | | |]; cbn [fire].
  - exfalso. exact (Hk id key eq_refl).
  - heap_all.
  - heap_all.
  - heap_all.
  - unfold on_generated. heap_all.
  - unfold on_throw. heap_all.
  - unfold on_backend_done. heap_all.
Qed.

(** The reply of the backend adds one object to the heap and leaves the
    others as they are. *)
Lemma on_get_heap_frame (id : ident) (k : key) (err : option error)
    (cached : option entry) (msec now userStaleIn : Z) (p : Policy)
    (c : nat) (obj : cachedObj) :
  heap p !! c = Some obj ->
  heap (exec (on_get id k err cached msec now userStaleIn) p) !! c = Some obj.
Proof.
  intros Hobj.
  assert (Hlt : (c < List.length (heap p))%nat) by (eapply lookup_lt_Some; exact Hobj).
  destruct p as [ca r pend pgc st hp on ef]. cbn in Hobj, Hlt.
  unfold exec, on_get.
  cbv [mbind M_bind bind this modify count when mret M_ret ret].
  destruct cached as [e |]; destruct err as [msg |]; cbn;
    repeat (match goal with
            | |- context [if ?b then _ else _] => destruct b; cbn
            end);
    rewrite ?heap_respond_eq; cbn;
    try (rewrite lookup_app_l by exact Hlt; exact Hobj);
    try exact Hobj;
    match goal with
    | |- heap (_generate ?i ?k ?cc ?rep ?q).2 !! _ = _ =>
        change (heap (_generate i k cc rep q).2)
          with (heap (exec (_generate i k cc rep) q));
        rewrite generate_heap; cbn
    end;
    try exact Hobj;
    rewrite lookup_app_r by lia; rewrite Nat.sub_diag; cbn;
    rewrite list_lookup_insert_ne by lia;
    rewrite lookup_app_l by exact Hlt; exact Hobj.
Qed.

Lemma step_heap_frame (localDate : Z -> Z -> Z -> Z) (e : event) (p : Policy)
    (c : nat) (obj : cachedObj) :
  heap p !! c = Some obj ->
  heap (exec (step localDate e) p) !! c = Some obj.
Proof.
  intros Hobj.
  assert (Hsame : forall m : M unit, preserves same_heap m ->
                    heap (exec m p) !! c = Some obj).
  { intros m Hm. unfold exec. rewrite (Hm p). exact Hobj. }
  destruct e as [k cb domain | k v t cb clock | k cb | o | k a]; cbn [step].
  - apply Hsame. auto with heap.
  - apply Hsame. auto with heap.
  - apply Hsame. auto with heap.
  - apply Hsame. auto with heap.
  - destruct k as [id key | | | | | |];
      try (apply Hsame; apply heap_fire_timer; intros; discriminate).
    cbn [fire]. apply on_get_heap_frame. exact Hobj.
Qed.

Lemma run_heap_frame (localDate : Z -> Z -> Z -> Z) (trace : list event) (p : Policy)
    (c : nat) (obj : cachedObj) :
  heap p !! c = Some obj ->
  heap (run localDate trace p) !! c = Some obj.
Proof.
  revert p. induction trace as [| e trace IH]; intros p Hobj.
  - exact Hobj.
  - rewrite run_cons. apply IH. apply step_heap_frame. exact Hobj.
Qed.

(** The reply of the backend on the stale path: the object enters the heap
    with its [ttl] already lowered, and the closures that are handed out
    hold the report made before. *)
Lemma on_get_stale (id : ident) (k : key) (err : option error) (e : entry)
    (msec now userStaleIn : Z) (p : Policy) (f : nat) :
  generateFunc (rule p) = Some f ->
  isStale_of (rule p) e now userStaleIn = true ->
  err = None \/ generateOnReadError (rule p) = Some true ->
  let c := List.length (heap p) in
  let once := List.length (onces p) in
  let report := {| r_msec := msec; r_error := err; r_stored := Some (e_stored e);
                   r_ttl := Some (Num (e_ttl e)); r_isStale := Some true |} in
  let obj := {| c_item := e_item e; c_stored := e_stored e; c_ttl := Num (e_ttl e);
                c_isStale := Some true |} in
  let p1 := exec (on_get id k err (Some e) msec now userStaleIn) p in
  heap p1 = heap p ++ [adjusted (rule p) obj]
  /\ effects p1 = effects p ++
       (if number_pos (c_ttl (adjusted (rule p) obj))
        then [SetTimeout (OnStaleTimeout once id c report) (staleTimeout (rule p))]
        else [])
       ++ producer_effects p once id k (Some c) report f.
Proof.
  intros Hgen Hstale Herr c once report obj p1.
  set (q := with_stats (bump Stales 1)
              (with_heap (fun h => h ++ [obj])
                 (if bool_decide (err ≠ None) then with_stats (bump Errors 1) p else p))).
  assert (Hp1 : p1 = exec (_generate id k (Some c) report) q).
  { subst p1 q c report obj. destruct p as [ca r pend pgc st hp on ef]. cbn in *.
    unfold exec, on_get.
    cbv [mbind M_bind bind this modify count when mret M_ret ret].
    destruct Herr as [-> | Hro].
    - cbn. rewrite Hstale, Hgen. cbn. reflexivity.
    - destruct err as [msg |]; cbn; rewrite Hstale, Hgen, ?Hro; cbn; reflexivity. }
  assert (Hq : heap q = heap p ++ [obj] /\ rule q = rule p /\ effects q = effects p
               /\ onces q = onces p /\ _pendingGenerateCall q = _pendingGenerateCall p).
  { subst q. destruct (bool_decide (err ≠ None)); repeat split. }
  destruct Hq as (Hheap & Hrule & Heff & Honce & Hpgc).
  destruct (generate_stale id k c report q obj f) as (Hh & He & _).
  { rewrite Hheap. subst c. rewrite lookup_app_r by lia. rewrite Nat.sub_diag. reflexivity. }
  { rewrite Hrule. exact Hgen. }
  rewrite Hp1. split.
  - rewrite Hh, Hheap, Hrule. subst c.
    replace (List.length (heap p)) with (List.length (heap p) + 0)%nat at 1 by lia.
    rewrite insert_app_r. reflexivity.
  - rewrite He, Heff, Hrule, Honce. unfold producer_effects. rewrite Hpgc, Hrule.
    reflexivity.
Qed.

(** What the stale timer of [_generate] does when it fires while its
    once-wrapper is unused and the entry exists. *)
Lemma stale_timer_delivers (localDate : Z -> Z -> Z -> Z) (once : nat) (id : ident)
    (c : nat) (report : Report) (a : args) (q : Policy) (obj : cachedObj)
    (ws : list waiter) :
  onces q !! once = Some false ->
  _pendings q !! pendingsId id = Some ws ->
  heap q !! c = Some obj ->
  let q' := exec (fire localDate (OnStaleTimeout once id c report) a) q in
  effects q' = effects q ++
    map (fun w => NextTick (pendingsId id) w
                    {| d_err := None; d_value := c_item obj;
                       d_cached := Some c; d_report := report |}) ws
  /\ _pendings q' !! pendingsId id = None
  /\ onces q' !! once = Some true.
Proof.
  intros Hflag Hws Hobj q'. subst q'. unfold exec. cbn [fire].
  cbv [mbind M_bind bind this].
  assert (Hitem : item_of q c = c_item obj).
  { unfold item_of. rewrite Hobj. reflexivity. }
  rewrite respond_once_first by exact Hflag.
  rewrite (respond_resolves _ _ _ _ _ _ ws) by exact Hws. cbv zeta.
  rewrite Hitem.
  destruct (bool_decide (r_isStale report ≠ None));
    cbn [snd effects _pendings onces with_effects with_pendings with_stats with_onces];
    (repeat split;
     [ apply lookup_delete_eq
     | apply list_lookup_insert_eq; eapply lookup_lt_Some; exact Hflag ]).
Qed.

(** C4.  On the stale path of [_generate] (a cached object is passed, with
    [ttl] the backend-reported time to live), the effects are: the stale
    timer with delay [staleTimeout] exactly when [ttl - staleTimeout > 0],
    then the producer's part, which holds no timer that resolves waiters -
    so without the stale timer only the producer's completion can resolve
    them.  [_generate] leaves the waiters as they were and the once-wrapper
    it made for this timer unused, so the timer it armed is live: fired
    next, it calls every waiter of the entry, in order, with
    [(null, cached.item, cached, report)], removes the entry and uses up
    the wrapper; and so it does after any further events that left the
    wrapper unused and an entry in place. *)
Theorem stale_fallback_scheduling (localDate : Z -> Z -> Z -> Z) (p : Policy) (id : ident)
    (k : key) (c : nat) (report : Report) (obj : cachedObj) (f : nat) (t st : Z) :
  heap p !! c = Some obj ->
  c_ttl obj = Num t ->
  staleTimeout (rule p) = Some st ->
  generateFunc (rule p) = Some f ->
  let once := List.length (onces p) in
  let timer := SetTimeout (OnStaleTimeout once id c report) (Some st) in
  let p' := exec (_generate id k (Some c) report) p in
  let new := (if 0 <? t - st then [timer] else [])
             ++ producer_effects p once id k (Some c) report f in
  let served (ws : list waiter) :=
    map (fun w => NextTick (pendingsId id) w
                    {| d_err := None; d_value := c_item obj;
                       d_cached := Some c; d_report := report |}) ws in
  effects p' = effects p ++ new
  /\ List.filter is_fallback_timer new = (if 0 <? t - st then [timer] else [])
  /\ (In timer new <-> t - st > 0)
  /\ _pendings p' = _pendings p
  /\ onces p' = onces p ++ [false]
  /\ onces p' !! once = Some false
  /\ heap p' !! c = Some {| c_item := c_item obj; c_stored := c_stored obj;
                            c_ttl := Num (t - st); c_isStale := c_isStale obj |}
  /\ (forall ws a,
        _pendings p !! pendingsId id = Some ws ->
        let q' := exec (fire localDate (OnStaleTimeout once id c report) a) p' in
        effects q' = effects p' ++ served ws
        /\ _pendings q' !! pendingsId id = None
        /\ onces q' !! once = Some true)
  /\ (forall trace ws a,
        let q := run localDate trace p' in
        onces q !! once = Some false ->
        _pendings q !! pendingsId id = Some ws ->
        let q' := exec (fire localDate (OnStaleTimeout once id c report) a) q in
        effects q' = effects q ++ served ws
        /\ _pendings q' !! pendingsId id = None
        /\ onces q' !! once = Some true).
Proof.
  intros Hobj Httl Hst Hgen once timer p' new served.
  destruct (generate_stale id k c report p obj f Hobj Hgen)
    as (Hheap & He & Hpend & Honces & _).
  fold once p' in Hheap, He, Hpend, Honces.
  assert (Hadj : adjusted (rule p) obj
                 = {| c_item := c_item obj; c_stored := c_stored obj;
                      c_ttl := Num (t - st); c_isStale := c_isStale obj |}).
  { unfold adjusted. rewrite Httl, Hst. reflexivity. }
  assert (Hpos : number_pos (c_ttl (adjusted (rule p) obj)) = (0 <? t - st)).
  { rewrite Hadj. reflexivity. }
  assert (Hprod : List.filter is_fallback_timer
                    (producer_effects p once id k (Some c) report f) = []).
  { unfold producer_effects.
    destruct (default false (_pendingGenerateCall p !! pendingsId id)); [reflexivity |].
    destruct (num_truthy (pendingGenerateTimeout (rule p))); reflexivity. }
  assert (Hfilter : List.filter is_fallback_timer new
                    = (if 0 <? t - st then [timer] else [])).
  { subst new. rewrite List.filter_app, Hprod, app_nil_r.
    destruct (0 <? t - st); reflexivity. }
  assert (Hunused : onces p' !! once = Some false).
  { rewrite Honces. subst once. rewrite lookup_app_r by lia.
    rewrite Nat.sub_diag. reflexivity. }
  assert (Hcell : heap p' !! c = Some (adjusted (rule p) obj)).
  { rewrite Hheap. apply list_lookup_insert_eq. eapply lookup_lt_Some. exact Hobj. }
  repeat match goal with |- _ /\ _ => split end.
  - subst new. rewrite He, Hpos, Hst. reflexivity.
  - exact Hfilter.
  - split.
    + intros Hin.
      assert (Hf : In timer (List.filter is_fallback_timer new)).
      { apply List.filter_In. split; [exact Hin | reflexivity]. }
      rewrite Hfilter in Hf. destruct (Z.ltb_spec 0 (t - st)); [lia | destruct Hf].
    + intros Hgt. subst new. apply in_or_app. left.
      destruct (Z.ltb_spec 0 (t - st)); [left; reflexivity | lia].
  - exact Hpend.
  - exact Honces.
  - exact Hunused.
  - rewrite Hcell, Hadj. reflexivity.
  - intros ws a Hws.
    apply (stale_timer_delivers localDate once id c report a p' (adjusted (rule p) obj) ws);
      [exact Hunused | rewrite Hpend; exact Hws | exact Hcell].
  - intros trace ws a q Hflag Hws.
    apply (stale_timer_delivers localDate once id c report a q (adjusted (rule p) obj) ws);
      [exact Hflag | exact Hws | apply run_heap_frame; exact Hcell].
Qed.

(** C10.  When the backend's reply is stale and generation starts, the
    cached object enters the heap with [ttl] equal to the backend-reported
    [ttl] minus [staleTimeout], while the report keeps the reported [ttl].
    The object is never written again: after any further events, the
    waiters served by the stale timer, and those served by [finalize] with
    a producer error when [dropOnError] is false, receive a reference to
    this object - whose [ttl] is the lowered one - together with the
    report, whose [ttl] is the original. *)
Theorem stale_ttl_overwritten (localDate : Z -> Z -> Z -> Z) (p : Policy) (id : ident)
    (k : key) (err : option error) (e : entry) (msec now userStaleIn st : Z) (f : nat) :
  staleTimeout (rule p) = Some st ->
  generateFunc (rule p) = Some f ->
  isStale_of (rule p) e now userStaleIn = true ->
  err = None \/ generateOnReadError (rule p) = Some true ->
  let c := List.length (heap p) in
  let once := List.length (onces p) in
  let report := {| r_msec := msec; r_error := err; r_stored := Some (e_stored e);
                   r_ttl := Some (Num (e_ttl e)); r_isStale := Some true |} in
  let shared := {| c_item := e_item e; c_stored := e_stored e;
                   c_ttl := Num (e_ttl e - st); c_isStale := Some true |} in
  let p1 := exec (on_get id k err (Some e) msec now userStaleIn) p in
  heap p1 !! c = Some shared
  /\ effects p1 = effects p ++
       (if 0 <? e_ttl e - st
        then [SetTimeout (OnStaleTimeout once id c report) (Some st)] else [])
       ++ producer_effects p once id k (Some c) report f
  /\ forall trace,
       let q := run localDate trace p1 in
       heap q !! c = Some shared
       /\ (forall ws a,
             onces q !! once = Some false ->
             _pendings q !! pendingsId id = Some ws ->
             let q' := exec (fire localDate (OnStaleTimeout once id c report) a) q in
             effects q' = effects q ++
               map (fun w => NextTick (pendingsId id) w
                               {| d_err := None; d_value := e_item e;
                                  d_cached := Some c; d_report := report |}) ws
             /\ heap q' !! c = Some shared)
       /\ (forall ws msg value err',
             onces q !! once = Some false ->
             _pendings q !! pendingsId id = Some ws ->
             flag (dropOnError (rule q)) = false ->
             let q' := exec (finalize once id (Some msg) value (Some c) report err') q in
             effects q' = effects q ++
               map (fun w => NextTick (pendingsId id) w
                               {| d_err := Some msg; d_value := e_item e;
                                  d_cached := Some c; d_report := report |}) ws
             /\ heap q' !! c = Some shared).
Proof.
  intros Hst Hgen Hstale Herr c once report shared p1.
  destruct (on_get_stale id k err e msec now userStaleIn p f Hgen Hstale Herr)
    as (Hheap & Heff).
  fold c once report p1 in Hheap, Heff.
  assert (Hadj : adjusted (rule p)
                   {| c_item := e_item e; c_stored := e_stored e; c_ttl := Num (e_ttl e);
                      c_isStale := Some true |} = shared).
  { unfold adjusted. cbn. rewrite Hst. reflexivity. }
  rewrite Hadj in Hheap, Heff.
  assert (Hcell : heap p1 !! c = Some shared).
  { rewrite Hheap. subst c. rewrite lookup_app_r by lia. rewrite Nat.sub_diag. reflexivity. }
  split; [exact Hcell | split].
  - rewrite Heff, Hst. reflexivity.
  - intros trace q.
    assert (Hq : heap q !! c = Some shared) by (apply run_heap_frame; exact Hcell).
    assert (Hitem : item_of q c = e_item e).
    { unfold item_of. rewrite Hq. reflexivity. }
    split; [exact Hq | split].
    + intros ws a Hflag Hws q'. subst q'. split.
      * unfold exec. cbn [fire]. cbv [mbind M_bind bind this].
        rewrite respond_once_first by exact Hflag.
        rewrite (respond_resolves _ _ _ _ _ _ ws) by exact Hws. cbv zeta.
        rewrite Hitem. reflexivity.
      * unfold exec. rewrite heap_fire_timer by (intros; discriminate). exact Hq.
    + intros ws msg value err' Hflag Hws Hdrop q'. subst q'. split.
      * rewrite (finalize_delivers once id (Some msg) value (Some c) report err' q ws Hflag Hws).
        rewrite Hdrop, Hitem. reflexivity.
      * unfold exec. rewrite heap_finalize. exact Hq.
Qed.

(** * Further properties *)

(** ** Policy.ttl: bounds and the daily clock *)

(** X1.  [Policy.ttl] never returns a negative number, whatever the rule,
    the arguments (given, zero or missing) and the clock; and with
    [expiresIn] set it never returns more than [expiresIn] (nor more than 0
    when [expiresIn] is negative). *)
Theorem ttl_bounds (localDate : Z -> Z -> Z -> Z) (r : Rule) (created now : option Z)
    (clock : Z) :
  0 <= ttl localDate r created now clock
  /\ (forall e, expiresIn r = Some e -> e <> 0 ->
        ttl localDate r created now clock <= Z.max e 0).
Proof.
  unfold ttl.
  set (n := num_or now clock). set (c := num_or created n).
  split.
  - destruct (Z.ltb_spec (n - c) 0); [lia |].
    destruct (num_truthy (expiresIn r)); [lia |].
    destruct (expiresAt r) as [[hours minutes] |]; [| lia].
    destruct (n - c >? day); [lia |].
    set (e := localDate c hours minutes).
    destruct (e <=? c); [destruct (Z.geb_spec n (e + day)) | destruct (Z.geb_spec n e)];
      lia.
  - intros e He Hnz. rewrite He, num_truthy_nonzero by exact Hnz. cbn [default from_option id].
    destruct (Z.ltb_spec (n - c) 0); unfold id; lia.
Qed.

Lemma ttl_bounds_witness :
  ttl utcDate (ruleIn 500) None (Some 1000) 77 <= Z.max 500 0.
Proof.
  apply (ttl_bounds utcDate (ruleIn 500) None (Some 1000) 77); [reflexivity | lia].
Defined.

(** X2.  With both arguments missing (as [set] calls it) the age is 0: a
    rule with a positive [expiresIn] yields [expiresIn], whatever the
    clock; the same holds when only [created] is missing or zero. *)
Theorem ttl_fresh (localDate : Z -> Z -> Z -> Z) (r : Rule) (e : Z) (now : option Z)
    (clock : Z) :
  expiresIn r = Some e -> 0 < e ->
  ttl localDate r None now clock = e
  /\ ttl localDate r (Some 0) now clock = e.
Proof.
  intros He Hpos. unfold ttl. cbn [num_or]. cbn.
  rewrite Z.sub_diag. cbn. rewrite He, num_truthy_nonzero by lia.
  cbn. split; lia.
Qed.

Lemma ttl_fresh_witness :
  ttl utcDate (ruleIn 500) None None 123456 = 500
  /\ ttl utcDate (ruleIn 500) (Some 0) None 123456 = 500.
Proof. apply (ttl_fresh utcDate (ruleIn 500) 500 None 123456); [reflexivity | lia]. Defined.

(** X3.  In a time zone at a fixed offset from UTC, for a rule that expires
    at [hours:minutes] (hours 0-23, minutes 0-59), non-zero instants and
    [now >= created]: the result is at most one day; and when it is
    positive, [now + ttl] is an instant whose local time of day is exactly
    [hours:minutes:00.000], later than [created] and at most one day after
    it - the first such instant after [created]. *)
Theorem ttl_expiresAt_clock (offset : Z) (r : Rule) (hours minutes created now clock : Z) :
  num_truthy (expiresIn r) = false ->
  expiresAt r = Some (hours, minutes) ->
  0 <= hours < 24 -> 0 <= minutes < 60 ->
  created <> 0 -> now <> 0 -> created <= now ->
  let t := ttl (fixedZoneDate offset) r (Some created) (Some now) clock in
  0 <= t <= day
  /\ (0 < t ->
      (now + t + offset) mod day = hours * 3600000 + minutes * 60000
      /\ created < now + t <= created + day).
Proof.
  intros Hin Hat Hh Hm Hc Hn Hle t. subst t. unfold ttl.
  rewrite !num_or_nonzero by assumption. rewrite Hin, Hat.
  destruct (Z.ltb_spec (now - created) 0); [lia |].
  unfold fixedZoneDate.
  set (q := (created + offset) `div` day).
  set (tod := hours * 3600000 + minutes * 60000).
  assert (HH : 0 <= tod < day) by (unfold tod, day; lia).
  assert (Hq : created + offset = day * q + (created + offset) mod day)
    by (apply Z.div_mod; unfold day; lia).
  assert (Hrem : 0 <= (created + offset) mod day < day)
    by (apply Z.mod_pos_bound; unfold day; lia).
  replace (q * day + hours * 3600000 + minutes * 60000 - offset)
    with (q * day + tod - offset) by (unfold tod; lia).
  assert (Hmod1 : (q * day + tod - offset + offset) mod day = tod).
  { replace (q * day + tod - offset + offset) with (tod + q * day) by lia.
    rewrite Z.mod_add by (unfold day; lia). apply Z.mod_small. exact HH. }
  assert (Hmod2 : (q * day + tod - offset + day + offset) mod day = tod).
  { replace (q * day + tod - offset + day + offset) with (tod + (q + 1) * day) by lia.
    rewrite Z.mod_add by (unfold day; lia). apply Z.mod_small. exact HH. }
  destruct (Z.gtb_spec (now - created) day).
  - split; [unfold day; lia | lia].
  - destruct (Z.leb_spec (q * day + tod - offset) created).
    + destruct (Z.geb_spec now (q * day + tod - offset + day)).
      * split; [unfold day; lia | lia].
      * split; [lia |]. intros _.
        replace (now + (q * day + tod - offset + day - now) + offset)
          with (q * day + tod - offset + day + offset) by lia.
        split; [exact Hmod2 | lia].
    + destruct (Z.geb_spec now (q * day + tod - offset)).
      * split; [unfold day; lia | lia].
      * split; [lia |]. intros _.
        replace (now + (q * day + tod - offset - now) + offset)
          with (q * day + tod - offset + offset) by lia.
        split; [exact Hmod1 | lia].
Qed.

Lemma ttl_expiresAt_clock_witness :
  let t := ttl (fixedZoneDate 3600000) (ruleAt 3 0) (Some (10 * day + 4 * 3600000))
               (Some (10 * day + 4 * 3600000 + 30 * 60000)) 0 in
  0 <= t <= day
  /\ (0 < t ->
      (10 * day + 4 * 3600000 + 30 * 60000 + t + 3600000) mod day
      = 3 * 3600000 + 0 * 60000
      /\ 10 * day + 4 * 3600000 < 10 * day + 4 * 3600000 + 30 * 60000 + t
         <= 10 * day + 4 * 3600000 + day).
Proof.
  apply (ttl_expiresAt_clock 3600000 (ruleAt 3 0) 3 0); try reflexivity; unfold day; lia.
Defined.

(** ** Policy.compile: what a compiled rule guarantees *)

(** A successful compilation of non-empty options passed the schema and the
    assertions. *)
Lemma compile_checked (o : options) (serverSide : bool) (r : Rule) :
  compile (Some o) serverSide = Ok r ->
  size o <> 0%nat ->
  schema_ok o = true /\ compile_asserts o serverSide = None.
Proof.
  intros Hc Hsize. unfold compile in Hc.
  destruct (Nat.eqb_spec (size o) 0); [contradiction |].
  destruct (schema_ok o); cbn [negb] in Hc; [| discriminate].
  destruct (compile_asserts o serverSide); [discriminate | auto].
Qed.

(** The schema types every option: a property is missing (or [undefined])
    or has the shape its key asks for. *)
Lemma schema_typed (o : options) (k : string) (t : jsval -> bool) :
  schema_ok o = true ->
  schema_type schema_keys k = Some t ->
  prop o k = JUndefined \/ t (prop o k) = true.
Proof.
  intros Hs Ht. unfold schema_ok in Hs. repeat (apply andb_prop in Hs as [Hs ?]).
  unfold prop. destruct (o !! k) as [v |] eqn:Hv; [| left; reflexivity].
  pose proof (schema_key_ok o k v Hs Hv) as Hk. unfold key_ok in Hk. cbn [fst snd] in Hk.
  rewrite Ht in Hk. cbn [default from_option id].
  destruct v; cbn in Hk |- *; auto.
Qed.

(** X4.  Options that carry a key the schema does not list (with a defined
    value) are refused: [compile] throws the configuration error, whatever
    the other options are. *)
Theorem compile_unknown_key (o : options) (serverSide : bool) (k : string) (v : jsval) :
  o !! k = Some v ->
  schema_type schema_keys k = None ->
  compile (Some o) serverSide = Throws "Invalid cache policy configuration".
Proof.
  intros Hv Hk. unfold compile.
  destruct (Nat.eqb_spec (size o) 0) as [Hz | _].
  { apply map_size_empty_iff in Hz. subst o. rewrite lookup_empty in Hv. discriminate. }
  assert (Hs : schema_ok o = false).
  { destruct (schema_ok o) eqn:Hs; [| reflexivity]. exfalso.
    unfold schema_ok in Hs. repeat (apply andb_prop in Hs as [Hs ?]).
    pose proof (schema_key_ok o k v Hs Hv) as Hok. unfold key_ok in Hok.
    cbn [fst] in Hok. rewrite Hk in Hok. discriminate. }
  rewrite Hs. reflexivity.
Qed.


(** The rule [compile] builds from checked options, field by field. *)
Lemma compile_fields (o : options) (serverSide : bool) (r : Rule) :
  compile (Some o) serverSide = Ok r ->
  size o <> 0%nat ->
  let withGen := truthy (prop o "generateFunc") in
  let withStale := withGen && truthy (prop o "staleIn") in
  generateFunc r = (if withGen then as_func (prop o "generateFunc") else None)
  /\ generateTimeout r = (if withGen then as_timeout (prop o "generateTimeout") else None)
  /\ staleIn r = (if withStale then as_stale (prop o "staleIn") else None)
  /\ staleTimeout r = (if withStale then as_int (prop o "staleTimeout") else None)
  /\ dropOnError r = (if withGen then bool_or_default (prop o "dropOnError") true else None)
  /\ pendingGenerateTimeout r
     = (if withGen
        then (if is_undefined (prop o "pendingGenerateTimeout") then Some 0
              else as_int (prop o "pendingGenerateTimeout"))
        else None)
  /\ generateOnReadError r = bool_or_default (prop o "generateOnReadError") true
  /\ generateIgnoreWriteError r = bool_or_default (prop o "generateIgnoreWriteError") true.
Proof.
  intros Hc Hsize. destruct (compile_checked o serverSide r Hc Hsize) as [Hs Ha].
  unfold compile in Hc.
  destruct (Nat.eqb_spec (size o) 0); [contradiction |].
  rewrite Hs, Ha in Hc. cbn [negb] in Hc.
  match type of Hc with
  | (if ?b then _ else _) = _ => destruct b; [discriminate |]
  end.
  injection Hc as <-. cbn. repeat split.
Qed.

(** Presence constraints of the schema, one by one. *)
Lemma schema_peers (o : options) :
  schema_ok o = true ->
  joi_without o "expiresIn" "expiresAt" = true
  /\ joi_with o "staleIn" "generateFunc" = true
  /\ joi_with o "generateOnReadError" "generateFunc" = true
  /\ joi_with o "generateIgnoreWriteError" "generateFunc" = true
  /\ joi_with o "dropOnError" "generateFunc" = true
  /\ joi_and o "generateFunc" "generateTimeout" = true
  /\ joi_and o "staleIn" "staleTimeout" = true.
Proof.
  intros Hs. unfold schema_ok in Hs. repeat (apply andb_prop in Hs as [Hs ?]).
  repeat split; assumption.
Qed.

(** The assertions of [compile], when none fails. *)
Lemma compile_asserts_hold (o : options) (serverSide : bool) :
  compile_asserts o serverSide = None ->
  let hasExpiresIn := negb (is_undefined (prop o "expiresIn"))
                      && negb (bool_decide (prop o "expiresIn" = JNull)) in
  let hasExpiresAt := negb (is_undefined (prop o "expiresAt"))
                      && negb (bool_decide (prop o "expiresAt" = JNull)) in
  let staleIn := prop o "staleIn" in
  let staleTimeout := prop o "staleTimeout" in
  (negb hasExpiresAt || is_string (prop o "expiresAt")) = true
  /\ (negb hasExpiresIn || isInteger (prop o "expiresIn")) = true
  /\ (negb hasExpiresIn || negb (truthy staleIn) || is_function staleIn
      || js_lt staleIn (prop o "expiresIn")) = true
  /\ (negb (truthy staleIn) || serverSide) = true
  /\ (negb (truthy staleTimeout) || negb hasExpiresIn
      || js_lt staleTimeout (prop o "expiresIn")) = true
  /\ (negb (truthy staleTimeout) || negb hasExpiresIn || is_function staleIn
      || js_lt_diff staleTimeout (prop o "expiresIn") staleIn) = true
  /\ (negb (truthy staleTimeout) || negb (truthy (prop o "pendingGenerateTimeout"))
      || js_lt staleTimeout (prop o "pendingGenerateTimeout")) = true.
Proof.
  unfold compile_asserts. cbv zeta.
  repeat match goal with
         | |- (if negb ?b then _ else _) = None -> _ =>
             destruct b eqn:?; cbn [negb]; [| discriminate]
         end.
  intros _. repeat split; reflexivity.
Qed.

(** The expiry fields [compile] builds from checked options. *)
Lemma compile_expiry_fields (o : options) (serverSide : bool) (r : Rule) :
  compile (Some o) serverSide = Ok r ->
  size o <> 0%nat ->
  let hasExpiresAt := negb (is_undefined (prop o "expiresAt"))
                      && negb (bool_decide (prop o "expiresAt" = JNull)) in
  expiresIn r = (if hasExpiresAt then None
                 else if truthy (prop o "expiresIn")
                      then as_int (prop o "expiresIn") else Some 0).
Proof.
  intros Hc Hsize. destruct (compile_checked o serverSide r Hc Hsize) as [Hs Ha].
  unfold compile in Hc.
  destruct (Nat.eqb_spec (size o) 0); [contradiction |].
  rewrite Hs, Ha in Hc. cbn [negb] in Hc.
  match type of Hc with
  | (if ?b then _ else _) = _ => destruct b; [discriminate |]
  end.
  injection Hc as <-. reflexivity.
Qed.

(** A non-zero [expiresIn] of a compiled rule is the option itself, which
    is a number: a string there fails [Hoek.isInteger]. *)
Lemma compile_expiresIn_number (o : options) (serverSide : bool) (r : Rule) (e : Z) :
  compile (Some o) serverSide = Ok r ->
  size o <> 0%nat ->
  expiresIn r = Some e -> e <> 0 ->
  prop o "expiresIn" = JNum e.
Proof.
  intros Hc Hsize He Hnz.
  destruct (compile_checked o serverSide r Hc Hsize) as [_ Ha].
  apply compile_asserts_hold in Ha. cbv zeta in Ha. destruct Ha as (_ & Hint & _).
  rewrite (compile_expiry_fields o serverSide r Hc Hsize) in He. cbv zeta in He.
  match type of He with
  | (if ?b then _ else _) = _ => destruct b; [discriminate |]
  end.
  destruct (truthy (prop o "expiresIn")) eqn:Ht; [| congruence].
  destruct (prop o "expiresIn") as [| | b | z | s | f | ob]; cbn in He, Hint;
    try discriminate.
  congruence.
Qed.

(** What the schema's types let through, and how the rule reads it. *)
Lemma joi_integer_min1_truthy (v : jsval) : joi_integer_min1 v = true -> truthy v = true.
Proof.
  intros Hj. destruct (joi_integer_min1_value v Hj) as (z & Hz & _ & _ & Hz1).
  destruct (joi_integer_value v z Hz) as (_ & _ & _ & [-> | (s & -> & Hs)]); cbn.
  - destruct (Z.eqb_spec z 0); [lia | reflexivity].
  - unfold string_number in Hs. destruct (String.eqb s ""); [| reflexivity].
    injection Hs as <-. lia.
Qed.

Lemma joi_boolean_switch (v : jsval) : joi_boolean v = true -> as_bool v = Some (truthy v).
Proof. destruct v; cbn; intros H; try discriminate; reflexivity. Qed.

Lemma switch_default (v : jsval) :
  v = JUndefined \/ joi_boolean v = true ->
  bool_or_default v true = Some (if is_undefined v then true else truthy v).
Proof.
  intros [-> | Hb]; [reflexivity |]. unfold bool_or_default.
  destruct (is_undefined v); [reflexivity | apply joi_boolean_switch, Hb].
Qed.

Lemma joi_generateTimeout_value (v : jsval) :
  joi_generateTimeout v = true ->
  v = JBool false /\ as_timeout v = Some None
  \/ exists ms, as_timeout v = Some (Some ms) /\ 1 <= ms /\ to_number v = Some ms.
Proof.
  intros Hj.
  assert (Hnum : joi_integer_min1 v = true ->
            exists ms, as_timeout v = Some (Some ms) /\ 1 <= ms /\ to_number v = Some ms).
  { intros Hm. destruct (joi_integer_min1_value v Hm) as (z & Hz & Ha & Hn & Hz1).
    exists z. split; [| auto].
    destruct (joi_integer_value v z Hz) as (_ & _ & _ & [-> | (s & -> & Hs)]);
      unfold as_timeout; rewrite Ha; reflexivity. }
  destruct v as [| | [|] | z | s | f | ob]; cbn in Hj; try discriminate; auto.
Qed.

Lemma joi_staleIn_value (v : jsval) :
  joi_staleIn v = true ->
  (exists f, v = JFunc f)
  \/ exists z, as_stale v = Some (StaleMs z) /\ to_number v = Some z
               /\ 1 <= z <= 86399999.
Proof.
  intros Hj. destruct v as [| | b | z | s | f | ob]; try discriminate; eauto; right;
    unfold joi_staleIn in Hj;
    match type of Hj with
    | match joi_integer ?v with _ => _ end = true =>
        destruct (joi_integer v) as [n |] eqn:Hn; [| discriminate];
        destruct (joi_integer_value v n Hn) as (Ha & Ht & _);
        apply andb_prop in Hj as [H1 H2]; apply Z.leb_le in H1, H2;
        exists n; unfold as_stale; rewrite Ha;
        split; [reflexivity | split; [exact Ht | lia]]
    end.
Qed.

(** Comparisons of a validated value with a number. *)
Lemma js_lt_number (a : jsval) (x e : Z) :
  to_number a = Some x -> js_lt a (JNum e) = (x <? e).
Proof. intros Ha. destruct a; unfold js_lt; rewrite Ha; reflexivity. Qed.

Lemma js_lt_diff_number (a c : jsval) (x y e : Z) :
  to_number a = Some x -> to_number c = Some y ->
  js_lt_diff a (JNum e) c = (x <? e - y).
Proof. intros Ha Hc. unfold js_lt_diff. rewrite Ha, Hc. reflexivity. Qed.

Lemma js_lt_numbers (a b : jsval) (x y : Z) :
  to_number a = Some x -> to_number b = Some y ->
  is_string a && is_string b = false ->
  js_lt a b = (x <? y).
Proof.
  intros Ha Hb Hs.
  assert (Hnum : forall ta tb : option Z, ta = Some x -> tb = Some y ->
            match ta, tb with Some x, Some y => x <? y | _, _ => false end = (x <? y)).
  { intros ta tb -> ->. reflexivity. }
  destruct a, b; cbn in Hs; try discriminate; unfold js_lt; apply Hnum; assumption.
Qed.

(** X6.  The producer's fields of a rule compiled from non-empty options.
    The two error switches are always set: to [true] when the option is
    missing, else to the option read as a switch (the boolean itself; a
    string counts as set when it is not empty, so ["false"] switches on).
    Without [generateFunc] none of [generateTimeout], [staleIn],
    [staleTimeout], [dropOnError], [pendingGenerateTimeout] is set.  With
    [generateFunc], the rule holds that function, [generateTimeout] is
    [false] or the option's number, at least 1; [dropOnError] is [true]
    when missing and the option read as a switch otherwise; and
    [pendingGenerateTimeout] is 0 when missing and the option's number, at
    least 1, otherwise. *)
Theorem compile_producer_fields (o : options) (serverSide : bool) (r : Rule) :
  compile (Some o) serverSide = Ok r ->
  size o <> 0%nat ->
  let switch (k : string) := if is_undefined (prop o k) then true else truthy (prop o k) in
  generateOnReadError r = Some (switch "generateOnReadError")
  /\ generateIgnoreWriteError r = Some (switch "generateIgnoreWriteError")
  /\ (generateFunc r = None ->
      prop o "generateFunc" = JUndefined
      /\ generateTimeout r = None /\ staleIn r = None /\ staleTimeout r = None
      /\ dropOnError r = None /\ pendingGenerateTimeout r = None
      /\ generateOnReadError r = Some true /\ generateIgnoreWriteError r = Some true)
  /\ (forall f, generateFunc r = Some f ->
      prop o "generateFunc" = JFunc f
      /\ (prop o "generateTimeout" = JBool false /\ generateTimeout r = Some None
          \/ exists ms, generateTimeout r = Some (Some ms) /\ 1 <= ms
                        /\ to_number (prop o "generateTimeout") = Some ms)
      /\ dropOnError r = Some (switch "dropOnError")
      /\ (prop o "pendingGenerateTimeout" = JUndefined /\ pendingGenerateTimeout r = Some 0
          \/ exists pg, pendingGenerateTimeout r = Some pg /\ 1 <= pg
                        /\ to_number (prop o "pendingGenerateTimeout") = Some pg)).
Proof.
  intros Hc Hsize switch. destruct (compile_checked o serverSide r Hc Hsize) as [Hs Ha].
  destruct (compile_fields o serverSide r Hc Hsize)
    as (Hgf & Hgt & Hsi & Hst & Hde & Hpg & Hre & Hwe).
  destruct (schema_peers o Hs) as (_ & _ & Pre & Pwe & Pde & Pgt & _).
  pose proof (schema_typed o "generateFunc" _ Hs eq_refl) as Tgf.
  pose proof (schema_typed o "generateTimeout" _ Hs eq_refl) as Tgt.
  pose proof (schema_typed o "dropOnError" _ Hs eq_refl) as Tde.
  pose proof (schema_typed o "pendingGenerateTimeout" _ Hs eq_refl) as Tpg.
  pose proof (schema_typed o "generateOnReadError" _ Hs eq_refl) as Tre.
  pose proof (schema_typed o "generateIgnoreWriteError" _ Hs eq_refl) as Twe.
  rewrite Hgf, Hgt, Hsi, Hst, Hde, Hpg, Hre, Hwe.
  clear Hc Ha Hs Hgf Hgt Hsi Hst Hde Hpg Hre Hwe.
  rewrite (switch_default _ Tre), (switch_default _ Twe). subst switch. cbv beta.
  split; [reflexivity | split; [reflexivity | split]].
  - destruct Tgf as [Egf | Egf];
      [| destruct (prop o "generateFunc"); cbn in Egf; discriminate].
    intros _. rewrite Egf. cbn [truthy andb].
    unfold joi_with, present in Pre, Pwe. rewrite Egf in Pre, Pwe. cbn in Pre, Pwe.
    rewrite orb_false_r in Pre, Pwe. apply negb_true_iff, negb_false_iff in Pre, Pwe.
    rewrite Pre, Pwe. repeat split.
  - intros f Hf.
    assert (Egf : prop o "generateFunc" = JFunc f).
    { destruct Tgf as [E | E]; [rewrite E in Hf; discriminate |].
      destruct (prop o "generateFunc"); cbn in E; try discriminate.
      cbn in Hf. congruence. }
    rewrite Egf. cbn [truthy]. split; [reflexivity | split; [| split]].
    + unfold joi_and, present in Pgt. rewrite Egf in Pgt. cbn in Pgt.
      destruct Tgt as [Egt | Egt]; [rewrite Egt in Pgt; discriminate |].
      destruct (joi_generateTimeout_value _ Egt) as [[E1 E2] | (ms & E1 & E2 & E3)];
        [left | right; exists ms]; auto.
    + apply switch_default. exact Tde.
    + destruct Tpg as [E | E]; [left; rewrite E; auto | right].
      destruct (joi_integer_min1_value _ E) as (pg & _ & Hai & Htn & Hpg1).
      assert (Hdef : is_undefined (prop o "pendingGenerateTimeout") = false).
      { pose proof (joi_integer_min1_truthy _ E) as Ht.
        destruct (prop o "pendingGenerateTimeout"); cbn in Ht |- *; congruence. }
      rewrite Hdef. exists pg. auto.
Qed.

(** X7.  A compiled rule with [staleIn] was compiled for a policy with a
    backend and has a producer and a [staleTimeout] of at least 1 ms; the
    [staleTimeout] is below a set [expiresIn]; a numeric [staleIn] lies
    between 1 ms and one day less 1 ms, is below [expiresIn], and leaves
    more than [staleTimeout] before [expiresIn].  The [staleTimeout] is
    below a non-zero [pendingGenerateTimeout] unless both options were
    given as strings: then the code compares their text, and only the
    text of [staleTimeout] precedes that of [pendingGenerateTimeout]. *)
Theorem compile_stale_constraints (o : options) (serverSide : bool) (r : Rule)
    (sr : staleRule) :
  compile (Some o) serverSide = Ok r ->
  staleIn r = Some sr ->
  serverSide = true
  /\ generateFunc r <> None
  /\ exists st,
       staleTimeout r = Some st /\ 1 <= st
       /\ (forall e, expiresIn r = Some e -> e <> 0 -> st < e)
       /\ (forall pg, pendingGenerateTimeout r = Some pg -> pg <> 0 ->
             is_string (prop o "staleTimeout")
             && is_string (prop o "pendingGenerateTimeout") = false ->
             st < pg)
       /\ (forall s1 s2, prop o "staleTimeout" = JStr s1 ->
             prop o "pendingGenerateTimeout" = JStr s2 ->
             String.ltb s1 s2 = true)
       /\ (forall s, sr = StaleMs s ->
             1 <= s <= 86399999
             /\ (forall e, expiresIn r = Some e -> e <> 0 -> s < e /\ st < e - s)).
Proof.
  intros Hc Hsr.
  assert (Hsize : size o <> 0%nat).
  { intros Hz. unfold compile in Hc. rewrite Hz in Hc. cbn in Hc.
    injection Hc as <-. discriminate. }
  destruct (compile_checked o serverSide r Hc Hsize) as [Hs Ha].
  destruct (compile_fields o serverSide r Hc Hsize)
    as (Hgf & _ & Hsi & Hst & _ & Hpg & _ & _).
  pose proof (compile_expiresIn_number o serverSide r) as Hexp.
  specialize (fun e => Hexp e Hc Hsize).
  destruct (schema_peers o Hs) as (_ & _ & _ & _ & _ & _ & Pst).
  pose proof (schema_typed o "staleIn" _ Hs eq_refl) as Tsi.
  pose proof (schema_typed o "staleTimeout" _ Hs eq_refl) as Tst.
  pose proof (schema_typed o "pendingGenerateTimeout" _ Hs eq_refl) as Tpg.
  pose proof (schema_typed o "generateFunc" _ Hs eq_refl) as Tgf.
  apply compile_asserts_hold in Ha. cbv zeta in Ha.
  destruct Ha as (_ & _ & A3 & A4 & A5 & A6 & A7).
  clear Hc Hs.
  rewrite Hsr in Hsi.
  destruct (truthy (prop o "generateFunc")) eqn:Hgen; cbn [andb] in Hsi, Hst;
    [| discriminate].
  destruct (truthy (prop o "staleIn")) eqn:Hstale; [| discriminate].
  cbn [negb orb] in A3, A4, A5, A6, A7.
  assert (Hf : generateFunc r <> None).
  { rewrite Hgf. destruct Tgf as [E | E]; [rewrite E in Hgen; discriminate |].
    destruct (prop o "generateFunc"); cbn in E; discriminate. }
  assert (Hj : joi_integer_min1 (prop o "staleTimeout") = true).
  { unfold joi_and, present in Pst. apply Bool.eqb_prop in Pst.
    destruct Tst as [E | E]; [| exact E].
    rewrite E in Pst. cbn in Pst. destruct (prop o "staleIn"); cbn in *; discriminate. }
  destruct (joi_integer_min1_value _ Hj) as (st & _ & Hai & Htn & Hst1).
  rewrite (joi_integer_min1_truthy _ Hj) in A5, A6, A7. cbn [negb orb] in A5, A6, A7.
  assert (Hin : forall e, expiresIn r = Some e -> e <> 0 ->
            prop o "expiresIn" = JNum e
            /\ negb (is_undefined (prop o "expiresIn"))
               && negb (bool_decide (prop o "expiresIn" = JNull)) = true).
  { intros e He Hnz. rewrite (Hexp e He Hnz). split; reflexivity. }
  split; [exact A4 | split; [exact Hf |]].
  exists st. split; [rewrite Hst; exact Hai | split; [exact Hst1 |]].
  split; [| split; [| split]].
  - intros e He Hez. destruct (Hin e He Hez) as [E Hhas].
    rewrite Hhas, E in A5. cbn [negb orb] in A5.
    rewrite (js_lt_number _ st e Htn) in A5. apply Z.ltb_lt, A5.
  - intros pg Hp Hpz Hnot. rewrite Hpg in Hp.
    destruct Tpg as [E | E].
    { rewrite E in Hp. cbn in Hp. injection Hp as <-. contradiction. }
    destruct (joi_integer_min1_value _ E) as (pg' & _ & Hai' & Htn' & _).
    assert (Hdef : is_undefined (prop o "pendingGenerateTimeout") = false).
    { pose proof (joi_integer_min1_truthy _ E) as Ht.
      destruct (prop o "pendingGenerateTimeout"); cbn in Ht |- *; congruence. }
    rewrite Hdef, Hai' in Hp. injection Hp as ->.
    rewrite (joi_integer_min1_truthy _ E) in A7. cbn [negb orb] in A7.
    rewrite (js_lt_numbers _ _ st pg Htn Htn' Hnot) in A7. apply Z.ltb_lt, A7.
  - intros s1 s2 E1 E2.
    assert (E : joi_integer_min1 (prop o "pendingGenerateTimeout") = true).
    { destruct Tpg as [E | E]; [rewrite E in E2; discriminate | exact E]. }
    rewrite (joi_integer_min1_truthy _ E) in A7. cbn [negb orb] in A7.
    rewrite E1, E2 in A7. exact A7.
  - intros s ->. destruct Tsi as [E | E]; [rewrite E in Hstale; discriminate |].
    destruct (joi_staleIn_value _ E) as [[f Ef] | (z & Has & Htz & Hz)].
    { rewrite Ef in Hsi. discriminate. }
    rewrite Has in Hsi. injection Hsi as ->. split; [exact Hz |].
    assert (Hnf : is_function (prop o "staleIn") = false).
    { destruct (prop o "staleIn"); try reflexivity. discriminate. }
    rewrite Hnf in A3, A6. cbn [orb] in A3, A6.
    intros e He Hez. destruct (Hin e He Hez) as [Ee Hhas].
    rewrite Hhas, Ee in A3, A6. cbn [negb orb] in A3, A6.
    rewrite (js_lt_number _ z e Htz) in A3.
    rewrite (js_lt_diff_number _ _ st z e Htn Htz) in A6.
    apply Z.ltb_lt in A3, A6. split; assumption.
Qed.

(** ** The policy object: counters *)

Lemma unchanged_refl {X : Type} (f : Policy -> X) (p : Policy) : unchanged f p p.
Proof. reflexivity. Qed.

Lemma unchanged_trans {X : Type} (f : Policy -> X) (p1 p2 p3 : Policy) :
  unchanged f p1 p2 -> unchanged f p2 p3 -> unchanged f p1 p3.
Proof. unfold unchanged. congruence. Qed.

Lemma unchanged_modify {X : Type} (f : Policy -> X) (g : Policy -> Policy) :
  (forall p, f (g p) = f p) -> preserves (unchanged f) (modify g).
Proof. intros Hg p. apply Hg. Qed.

(** Handlers down to their elementary statements. *)
Ltac unfold_handlers :=
  unfold step, fire, on_get, on_generated, on_backend_done, set, drop, rules, get, _get,
    call, finalize, _generate, _callGenerateFunc, on_throw, new_once, respond_once, respond,
    emit, count.

Ltac unchanged_all f :=
  repeat first [ apply unchanged_modify; intros ?; reflexivity
               | preserves_step (unchanged_refl f) (unchanged_trans f) ].

Lemma bind_when_count {A : Type} (b : bool) (c : counter) (n : nat) (m : M A) (p : Policy) :
  (when b (count c n) ;; m) p = m (if b then with_stats (bump c n) p else p).
Proof. destruct b; reflexivity. Qed.

Lemma bind_modify {A : Type} (g : Policy -> Policy) (m : M A) (p : Policy) :
  (modify g ;; m) p = m (g p).
Proof. reflexivity. Qed.

Lemma step_gets (localDate : Z -> Z -> Z -> Z) (e : event) (p : Policy) :
  gets (stats (exec (step localDate e) p))
  = (gets (stats p) + calls_get [e])%nat.
Proof.
  destruct e as [k cb domain | k v t cb clock | k cb | o | k a].
  - cbn [step]. unfold exec.
    destruct (_pendings p !! pendingsId (key_id k)) as [ws |] eqn:Hws.
    + rewrite (get_coalesced _ _ _ _ ws Hws). reflexivity.
    + rewrite (get_first _ _ _ _ Hws). reflexivity.
  - cbn [calls_get List.filter List.length]. rewrite Nat.add_0_r.
    revert p. change (preserves (unchanged (fun p => gets (stats p)))
                                (step localDate (CallSet k v t cb clock))).
    unfold_handlers. unchanged_all (fun p => gets (stats p)).
  - cbn [calls_get List.filter List.length]. rewrite Nat.add_0_r.
    revert p. change (preserves (unchanged (fun p => gets (stats p)))
                                (step localDate (CallDrop k cb))).
    unfold_handlers. unchanged_all (fun p => gets (stats p)).
  - cbn [calls_get List.filter List.length]. rewrite Nat.add_0_r.
    revert p. change (preserves (unchanged (fun p => gets (stats p)))
                                (step localDate (CallRules o))).
    unfold_handlers. unchanged_all (fun p => gets (stats p)).
  - cbn [calls_get List.filter List.length]. rewrite Nat.add_0_r.
    revert p. change (preserves (unchanged (fun p => gets (stats p)))
                                (step localDate (Fire k a))).
    unfold_handlers. unchanged_all (fun p => gets (stats p)).
Qed.

(** X8.  [stats.gets] counts the calls of [get]: over any run it grows by
    exactly the number of [get] calls in the run, coalesced or not, and no
    other event changes it. *)
Theorem gets_counts_calls (localDate : Z -> Z -> Z -> Z) (trace : list event) (p : Policy) :
  gets (stats (run localDate trace p)) = (gets (stats p) + calls_get trace)%nat.
Proof.
  induction trace as [| e trace IH] using rev_ind.
  - cbn. lia.
  - rewrite run_snoc, step_gets, IH. unfold calls_get.
    rewrite List.filter_app, length_app. lia.
Qed.

Lemma step_errors (localDate : Z -> Z -> Z -> Z) (e : event) (p : Policy) :
  errors (stats (exec (step localDate e) p))
  = (errors (stats p) + if is_error_reply e then 1 else 0)%nat.
Proof.
  assert (Hsame : forall m : M unit,
            preserves (unchanged (fun p => errors (stats p))) m ->
            forall q, errors (stats (m q).2) = errors (stats q)).
  { intros m Hm q. apply Hm. }
  destruct e as [k cb domain | k v t cb clock | k cb | o | k a].
  - cbn [step is_error_reply]. unfold exec.
    destruct (_pendings p !! pendingsId (key_id k)) as [ws |] eqn:Hws.
    + rewrite (get_coalesced _ _ _ _ ws Hws). cbn. lia.
    + rewrite (get_first _ _ _ _ Hws). cbn. lia.
  - cbn [is_error_reply]. rewrite Nat.add_0_r. apply Hsame.
    unfold_handlers. unchanged_all (fun p => errors (stats p)).
  - cbn [is_error_reply]. rewrite Nat.add_0_r. apply Hsame.
    unfold_handlers. unchanged_all (fun p => errors (stats p)).
  - cbn [is_error_reply]. rewrite Nat.add_0_r. apply Hsame.
    unfold_handlers. unchanged_all (fun p => errors (stats p)).
  - destruct k as [id key | once id c report | once id report | pid
                  | once id key cached report | once id report | cb];
      cbn [step fire is_error_reply];
      try (rewrite Nat.add_0_r; apply Hsame; unfold_handlers;
           unchanged_all (fun p => errors (stats p))).
    + unfold exec, on_get. rewrite bind_when_count. rewrite Hsame.
      * destruct (bool_decide (a_err a ≠ None)); cbn; lia.
      * unfold_handlers. unchanged_all (fun p => errors (stats p)).
    + unfold exec, on_backend_done. rewrite bind_when_count. rewrite Hsame.
      * destruct (bool_decide (a_err a ≠ None)); cbn; lia.
      * unfold_handlers. unchanged_all (fun p => errors (stats p)).
Qed.

(** X9.  [stats.errors] counts the backend's failures: over any run it
    grows by exactly the number of replies of the backend - to a [get], a
    [set] or a [drop] - that carry an error; producer errors, timeouts and
    invalid keys do not count. *)
Theorem errors_count_backend_failures (localDate : Z -> Z -> Z -> Z) (trace : list event)
    (p : Policy) :
  errors (stats (run localDate trace p)) = (errors (stats p) + error_replies trace)%nat.
Proof.
  induction trace as [| e trace IH] using rev_ind.
  - cbn. lia.
  - rewrite run_snoc, step_errors, IH. unfold error_replies.
    rewrite List.filter_app, length_app. cbn [List.filter].
    destruct (is_error_reply e); cbn; lia.
Qed.

Lemma counters_grow_refl (p : Policy) : counters_grow p p.
Proof. unfold counters_grow. lia. Qed.

Lemma counters_grow_trans (p1 p2 p3 : Policy) :
  counters_grow p1 p2 -> counters_grow p2 p3 -> counters_grow p1 p3.
Proof. unfold counters_grow. lia. Qed.

Lemma counters_grow_modify (g : Policy -> Policy) :
  (forall p, stats (g p) = stats p) -> preserves counters_grow (modify g).
Proof. intros Hg p. unfold counters_grow. cbn. rewrite Hg. lia. Qed.

Lemma counters_grow_count (c : counter) (n : nat) :
  preserves counters_grow (modify (with_stats (bump c n))).
Proof. intros p. unfold counters_grow. destruct c; cbn; lia. Qed.

(** X10.  The six counters of [stats] are monotonic: no event, and so no
    run, lowers [sets], [gets], [hits], [stales], [generates] or [errors]. *)
Theorem counters_never_decrease (localDate : Z -> Z -> Z -> Z) (trace : list event)
    (p : Policy) :
  counters_grow p (run localDate trace p).
Proof.
  assert (Hstep : forall e, preserves counters_grow (step localDate e)).
  { intros e. destruct e; unfold_handlers;
      repeat first [ apply counters_grow_count
                   | apply counters_grow_modify; intros ?; reflexivity
                   | preserves_step counters_grow_refl counters_grow_trans ]. }
  induction trace as [| e trace IH] using rev_ind.
  - apply counters_grow_refl.
  - rewrite run_snoc. eapply counters_grow_trans; [exact IH | apply Hstep].
Qed.

(** ** A policy without a backend *)

Lemma no_backend_refl (p : Policy) : no_backend p p.
Proof. intros Hc. split; [exact Hc | reflexivity]. Qed.

Lemma no_backend_trans (p1 p2 p3 : Policy) :
  no_backend p1 p2 -> no_backend p2 p3 -> no_backend p1 p3.
Proof.
  intros H1 H2 Hc. destruct (H1 Hc) as [Hc2 He2]. destruct (H2 Hc2) as [Hc3 He3].
  split; congruence.
Qed.

Lemma no_backend_modify (g : Policy -> Policy) :
  (forall p, _cache (g p) = _cache p /\ effects (g p) = effects p) ->
  preserves no_backend (modify g).
Proof. intros Hg p Hc. cbn. destruct (Hg p) as [-> ->]. split; [exact Hc | reflexivity]. Qed.

Lemma no_backend_effects (l : list effect) :
  List.filter is_backend_call l = [] ->
  preserves no_backend (modify (with_effects (fun l0 => l0 ++ l))).
Proof.
  intros Hl p Hc. cbn. split; [exact Hc |].
  rewrite List.filter_app, Hl. apply app_nil_r.
Qed.

Lemma no_backend_ticks (pid : string) (c : completion) (ws : list waiter) :
  List.filter is_backend_call (map (fun w => NextTick pid w c) ws) = [].
Proof. induction ws as [| w ws IH]; [reflexivity | exact IH]. Qed.

Lemma bind_this {A : Type} (f : Policy -> M A) (p : Policy) : (this ≫= f) p = f p p.
Proof. reflexivity. Qed.

Ltac no_backend_base :=
  match goal with
  | |- preserves no_backend (modify (with_effects (fun _ => _ ++ map _ _))) =>
      apply no_backend_effects, no_backend_ticks
  | |- preserves no_backend (emit _) => apply no_backend_effects; reflexivity
  | |- preserves no_backend (modify _) =>
      apply no_backend_modify; intros ?; split; reflexivity
  | |- preserves no_backend _ => assumption
  end.

Ltac no_backend_all :=
  repeat first [no_backend_base | preserves_step no_backend_refl no_backend_trans].

Lemma no_backend_call (cb : callback) (err : option error) :
  preserves no_backend (call cb err).
Proof. unfold call, finalize, respond_once, respond, count. no_backend_all. Qed.

Lemma no_backend_get (id : ident) (k : closure) : preserves no_backend (_get id k).
Proof.
  intros p Hc. unfold _get. rewrite bind_this, Hc. cbn [negb].
  apply (no_backend_effects [TickCall k] eq_refl p Hc).
Qed.

Lemma no_backend_set (localDate : Z -> Z -> Z -> Z) (k : key) (value : jsval)
    (ttl_ : option Z) (cb : callback) (clock : Z) :
  preserves no_backend (set localDate k value ttl_ cb clock).
Proof.
  intros p Hc. unfold set, count. rewrite bind_modify, bind_this.
  cbn [_cache with_stats]. rewrite Hc. cbn [negb].
  apply (no_backend_call cb None (with_stats (bump Sets 1) p) Hc).
Qed.

Lemma no_backend_drop (k : key) (cb : callback) : preserves no_backend (drop k cb).
Proof.
  intros p Hc. unfold drop. rewrite bind_this, Hc. cbn [negb].
  apply (no_backend_call cb None p Hc).
Qed.

Lemma no_backend_step (localDate : Z -> Z -> Z -> Z) (e : event) :
  preserves no_backend (step localDate e).
Proof.
  pose proof no_backend_call as Hcall.
  pose proof no_backend_get as Hget.
  pose proof (no_backend_set localDate) as Hset.
  pose proof no_backend_drop as Hdrop.
  destruct e as [k cb domain | k v t cb clock | k cb | o | k a];
    unfold step, fire, on_get, on_generated, on_backend_done, rules, get,
      _generate, _callGenerateFunc, on_throw, new_once, respond_once, respond, count;
    repeat first [ apply Hcall | apply Hget | apply Hset | apply Hdrop
                 | no_backend_base
                 | preserves_step no_backend_refl no_backend_trans ].
Qed.

(** X11.  A policy constructed without a backend never calls one: over any
    run it stays without backend, and no backend [get], [set] or [drop] is
    among the calls it makes - lookups, writes and drops are answered
    locally. *)
Theorem no_backend_calls (localDate : Z -> Z -> Z -> Z) (trace : list event) (p : Policy) :
  _cache p = false ->
  let p' := run localDate trace p in
  _cache p' = false
  /\ List.filter is_backend_call (effects p') = List.filter is_backend_call (effects p).
Proof.
  revert p. induction trace as [| e trace IH] using rev_ind; intros p Hc.
  - split; [exact Hc | reflexivity].
  - cbv zeta. rewrite run_snoc.
    destruct (IH p Hc) as [Hc1 He1].
    destruct (no_backend_step localDate e (run localDate trace p) Hc1) as [Hc2 He2].
    split; [exact Hc2 | etransitivity; [exact He2 | exact He1]].
Qed.

(** ** stats.generates *)

Lemma generates_match_refl (p : Policy) : generates_match p p.
Proof. unfold generates_match. lia. Qed.

Lemma generates_match_trans (p1 p2 p3 : Policy) :
  generates_match p1 p2 -> generates_match p2 p3 -> generates_match p1 p3.
Proof. unfold generates_match. lia. Qed.

Lemma generates_match_modify (g : Policy -> Policy) :
  (forall p, generates (stats (g p)) = generates (stats p) /\ effects (g p) = effects p) ->
  preserves generates_match (modify g).
Proof.
  intros Hg p. unfold generates_match. cbn. destruct (Hg p) as [-> ->]. lia.
Qed.

Lemma generates_match_effects (l : list effect) :
  List.filter is_producer_call l = [] ->
  preserves generates_match (modify (with_effects (fun l0 => l0 ++ l))).
Proof.
  intros Hl p. unfold generates_match, producer_calls. cbn.
  rewrite List.filter_app, Hl, app_nil_r. lia.
Qed.

Lemma producer_ticks (pid : string) (c : completion) (ws : list waiter) :
  List.filter is_producer_call (map (fun w => NextTick pid w c) ws) = [].
Proof. induction ws as [| w ws IH]; [reflexivity | exact IH]. Qed.

Ltac generates_base :=
  match goal with
  | |- preserves generates_match (modify (with_effects (fun _ => _ ++ map _ _))) =>
      apply generates_match_effects, producer_ticks
  | |- preserves generates_match (emit _) => apply generates_match_effects; reflexivity
  | |- preserves generates_match (count ?c _) =>
      apply generates_match_modify; intros ?; split; reflexivity
  | |- preserves generates_match (modify _) =>
      apply generates_match_modify; intros ?; split; reflexivity
  | |- preserves generates_match _ => assumption
  end.

Ltac generates_all :=
  repeat first [generates_base | preserves_step generates_match_refl generates_match_trans].

Lemma generates_match_respond (id : ident) (err : option error) (value : jsval)
    (cached : option nat) (report : Report) :
  preserves generates_match (respond id err value cached report).
Proof. unfold respond. generates_all. Qed.

(** [_generate] under a rule with a producer: each time it raises
    [stats.generates] it invokes the producer, and conversely. *)
Lemma generate_counts (id : ident) (k : key) (cached : option nat) (report : Report)
    (p : Policy) (f : nat) :
  generateFunc (rule p) = Some f ->
  generates_match p (exec (_generate id k cached report) p).
Proof.
  intros Hgen. destruct p as [ca r pend pgc st hp on ef]. cbn in Hgen.
  unfold generates_match, producer_calls, exec, _generate, new_once, _callGenerateFunc, emit.
  cbv [mbind M_bind bind this modify count when mret M_ret ret]. cbn.
  destruct cached as [c |].
  - destruct (hp !! c) as [o |] eqn:Ho; cbn; rewrite ?Ho; cbn;
      repeat (match goal with
              | |- context [if ?b then _ else _] => destruct b; cbn
              end);
      rewrite ?Hgen; cbn; rewrite ?List.filter_app, ?length_app; cbn; lia.
  - destruct (generateTimeout r) as [[ms |] |]; cbn;
      repeat (match goal with
              | |- context [if ?b then _ else _] => destruct b; cbn
              end);
      rewrite ?Hgen; cbn; rewrite ?List.filter_app, ?length_app; cbn; lia.
Qed.

Lemma on_get_counts (id : ident) (k : key) (err : option error) (cached : option entry)
    (msec now userStaleIn : Z) :
  preserves generates_match (on_get id k err cached msec now userStaleIn).
Proof.
  intros p. destruct p as [ca r pend pgc st hp on ef].
  unfold on_get.
  cbv [mbind M_bind bind this modify count when mret M_ret ret].
  destruct (generateFunc r) as [f |] eqn:Hgen;
    destruct cached as [e |]; destruct err as [msg |]; cbn; rewrite ?Hgen; cbn;
    repeat (match goal with
            | |- context [if ?b then _ else _] => destruct b; cbn
            end);
    match goal with
    | |- generates_match _ (respond _ _ _ _ _ _).2 =>
        eapply generates_match_trans; [| apply generates_match_respond];
        unfold generates_match; cbn; lia
    | |- generates_match _ (_generate _ _ _ _ ?q).2 =>
        eapply generates_match_trans; [| apply (generate_counts _ _ _ _ q f); exact Hgen];
        unfold generates_match; cbn; lia
    end.
Qed.

Lemma generates_match_step (localDate : Z -> Z -> Z -> Z) (e : event) :
  preserves generates_match (step localDate e).
Proof.
  pose proof on_get_counts as Hget.
  destruct e as [k cb domain | k v t cb clock | k cb | o | k a];
    unfold step, fire, on_generated, on_backend_done, rules, get, _get, set, drop, call,
      finalize, on_throw, respond_once, respond;
    repeat first [ apply Hget | generates_base
                 | preserves_step generates_match_refl generates_match_trans ].
Qed.

(** X12.  [stats.generates] counts the invocations of the producer: over
    any run it grows by exactly the number of times [generateFunc] was
    called, whatever the rule changes, timeouts and errors in between. *)
Theorem generates_count_producer_calls (localDate : Z -> Z -> Z -> Z) (trace : list event)
    (p : Policy) :
  let p' := run localDate trace p in
  (generates (stats p') + producer_calls (effects p)
   = generates (stats p) + producer_calls (effects p'))%nat.
Proof.
  cbv zeta. induction trace as [| e trace IH] using rev_ind.
  - reflexivity.
  - rewrite run_snoc.
    pose proof (generates_match_step localDate e (run localDate trace p)) as Hs.
    unfold generates_match, exec in *. lia.
Qed.

(** ** stats.stales *)

Lemma stale_objects_insert (h : list cachedObj) (c : nat) (o o' : cachedObj) :
  h !! c = Some o -> c_isStale o' = c_isStale o ->
  stale_objects (<[c := o']> h) = stale_objects h.
Proof.
  unfold stale_objects. revert c. induction h as [| x h IH]; intros c Hc Hs.
  - discriminate.
  - destruct c as [| c]; cbn in Hc |- *.
    + injection Hc as ->. rewrite Hs.
      destruct (bool_decide (c_isStale o = Some true)); reflexivity.
    + specialize (IH c Hc Hs).
      destruct (bool_decide (c_isStale x = Some true));
        [cbn [length]; f_equal |]; exact IH.
Qed.

Lemma stales_match_refl (p : Policy) : stales_match p p.
Proof. unfold stales_match. lia. Qed.

Lemma stales_match_trans (p1 p2 p3 : Policy) :
  stales_match p1 p2 -> stales_match p2 p3 -> stales_match p1 p3.
Proof. unfold stales_match. lia. Qed.

Lemma stales_match_modify (g : Policy -> Policy) :
  (forall p, stales (stats (g p)) = stales (stats p)
             /\ stale_objects (heap (g p)) = stale_objects (heap p)) ->
  preserves stales_match (modify g).
Proof.
  intros Hg p. unfold stales_match. cbn. destruct (Hg p) as [-> ->]. lia.
Qed.

Ltac stales_base :=
  match goal with
  | |- preserves stales_match (modify (with_heap _)) =>
      apply stales_match_modify; intros q; split; [reflexivity |];
      cbn [heap with_heap];
      destruct (heap q !! _) eqn:?; [| reflexivity];
      eapply stale_objects_insert; [eassumption | reflexivity]
  | |- preserves stales_match (modify _) =>
      apply stales_match_modify; intros ?; split; reflexivity
  | |- preserves stales_match _ => assumption
  end.

Ltac stales_all :=
  repeat first [stales_base | preserves_step stales_match_refl stales_match_trans].

Lemma stales_match_generate (id : ident) (k : key) (cached : option nat) (report : Report) :
  preserves stales_match (_generate id k cached report).
Proof.
  unfold _generate, _callGenerateFunc, on_throw, new_once, respond_once, respond, emit, count.
  stales_all.
Qed.

Lemma stales_match_respond (id : ident) (err : option error) (value : jsval)
    (cached : option nat) (report : Report) :
  preserves stales_match (respond id err value cached report).
Proof. unfold respond, count. stales_all. Qed.

Lemma on_get_stales (id : ident) (k : key) (err : option error) (cached : option entry)
    (msec now userStaleIn : Z) :
  preserves stales_match (on_get id k err cached msec now userStaleIn).
Proof.
  pose proof stales_match_generate as Hgen.
  pose proof stales_match_respond as Hres.
  assert (Hrun : forall (m : M unit) p q,
            stales_match p q -> preserves stales_match m -> stales_match p (m q).2).
  { intros m p q Hpq Hm. eapply stales_match_trans; [exact Hpq | apply Hm]. }
  intros p. unfold on_get. rewrite bind_when_count, bind_this.
  destruct cached as [e |].
  - rewrite bind_modify, bind_when_count. apply Hrun.
    + unfold stales_match, stale_objects.
      destruct (bool_decide (err ≠ None)); cbn [rule with_stats];
        destruct (isStale_of (rule p) e now userStaleIn);
        cbn; rewrite List.filter_app, length_app; cbn [List.filter c_isStale];
        rewrite ?bool_decide_eq_true_2 by reflexivity;
        rewrite ?bool_decide_eq_false_2 by discriminate; cbn; lia.
    + repeat first [ apply Hres | apply Hgen
                   | preserves_step stales_match_refl stales_match_trans ].
  - apply Hrun.
    + unfold stales_match. destruct (bool_decide (err ≠ None)); reflexivity.
    + repeat first [ apply Hres | apply Hgen
                   | preserves_step stales_match_refl stales_match_trans ].
Qed.

Lemma stales_match_step (localDate : Z -> Z -> Z -> Z) (e : event) :
  preserves stales_match (step localDate e).
Proof.
  pose proof on_get_stales as Hget.
  destruct e as [k cb domain | k v t cb clock | k cb | o | k a];
    unfold step, fire, on_generated, on_backend_done, rules, get, _get, set, drop, call,
      finalize, on_throw, respond_once, respond, emit, count;
    repeat first [ apply Hget | stales_base
                 | preserves_step stales_match_refl stales_match_trans ].
Qed.

(** X13.  [stats.stales] counts the stale reads: over any run it grows by
    exactly the number of entries that the backend returned and that were
    marked [isStale] on arrival; adjusting the ttl of such an entry later
    does not count again. *)
Theorem stales_count_stale_reads (localDate : Z -> Z -> Z -> Z) (trace : list event)
    (p : Policy) :
  let p' := run localDate trace p in
  (stales (stats p') + stale_objects (heap p)
   = stales (stats p) + stale_objects (heap p'))%nat.
Proof.
  cbv zeta. induction trace as [| e trace IH] using rev_ind.
  - reflexivity.
  - rewrite run_snoc.
    pose proof (stales_match_step localDate e (run localDate trace p)) as Hs.
    unfold stales_match, exec in *. lia.
Qed.

(** ** Once-wrappers over a run *)

Lemma flags_stay_refl (p : Policy) : flags_stay p p.
Proof. intros once H. exact H. Qed.

Lemma flags_stay_trans (p1 p2 p3 : Policy) :
  flags_stay p1 p2 -> flags_stay p2 p3 -> flags_stay p1 p3.
Proof. intros H1 H2 once H. apply H2, H1, H. Qed.

Lemma flags_stay_modify (g : Policy -> Policy) :
  (forall p, onces (g p) = onces p) -> preserves flags_stay (modify g).
Proof. intros Hg p once H. cbn. rewrite Hg. exact H. Qed.

Lemma flags_stay_new : preserves flags_stay (modify (with_onces (fun l => l ++ [false]))).
Proof. intros p once H. cbn. apply lookup_app_l_Some. exact H. Qed.

Lemma flags_stay_raise (once : nat) :
  preserves flags_stay (modify (with_onces (<[once := true]>))).
Proof.
  intros p o H. cbn. destruct (decide (once = o)) as [-> | Hne].
  - apply list_lookup_insert_eq. eapply lookup_lt_Some. exact H.
  - rewrite list_lookup_insert_ne by exact Hne. exact H.
Qed.

Lemma flags_stay_step (localDate : Z -> Z -> Z -> Z) (e : event) :
  preserves flags_stay (step localDate e).
Proof.
  destruct e as [k cb domain | k v t cb clock | k cb | o | k a];
    unfold_handlers;
    repeat first [ apply flags_stay_new | apply flags_stay_raise
                 | apply flags_stay_modify; intros ?; reflexivity
                 | preserves_step flags_stay_refl flags_stay_trans ].
Qed.

(** X14.  A once-wrapper that has been used stays used, whatever happens
    next: after any run, firing a closure that resolves through it (a stale
    timer, a generate timeout, the producer's callback, the catch clause or
    a write-back completion that comes late) touches no waiter list,
    delivers nothing and leaves [stats.hits] alone. *)
Theorem once_spent_forever (localDate : Z -> Z -> Z -> Z) (trace : list event) (p : Policy)
    (once : nat) (k : closure) (a : args) :
  guard_of k = Some once ->
  onces p !! once = Some true ->
  let p1 := run localDate trace p in
  let p' := exec (fire localDate k a) p1 in
  onces p1 !! once = Some true
  /\ _pendings p' = _pendings p1
  /\ List.filter is_delivery (effects p') = List.filter is_delivery (effects p1)
  /\ hits (stats p') = hits (stats p1).
Proof.
  intros Hk Hflag p1 p'.
  assert (Hstay : onces p1 !! once = Some true).
  { subst p1. clear p'. induction trace as [| e trace IH] using rev_ind.
    - exact Hflag.
    - rewrite run_snoc. apply (flags_stay_step localDate e), IH. }
  split; [exact Hstay |].
  destruct (quiet_fire localDate once k a Hk p1 Hstay) as (_ & Hp & He & Hh).
  auto.
Qed.

(** ** Ids do not interfere *)

Lemma same_entry_refl (pid : string) (p : Policy) : same_entry pid p p.
Proof. repeat split. Qed.

Lemma same_entry_trans (pid : string) (p1 p2 p3 : Policy) :
  same_entry pid p1 p2 -> same_entry pid p2 p3 -> same_entry pid p1 p3.
Proof. intros (H1 & H2 & H3) (H4 & H5 & H6). repeat split; congruence. Qed.

Lemma same_entry_modify (pid : string) (g : Policy -> Policy) :
  (forall p, _pendings (g p) = _pendings p
             /\ _pendingGenerateCall (g p) = _pendingGenerateCall p
             /\ effects (g p) = effects p) ->
  preserves (same_entry pid) (modify g).
Proof.
  intros Hg p. destruct (Hg p) as (H1 & H2 & H3). unfold same_entry. cbn.
  rewrite H1, H2, H3. repeat split.
Qed.

Lemma same_entry_effects (pid : string) (l : list effect) :
  delivered_for pid l = [] ->
  preserves (same_entry pid) (modify (with_effects (fun l0 => l0 ++ l))).
Proof.
  intros Hl p. unfold same_entry, modify.
  cbn [snd effects _pendings _pendingGenerateCall with_effects].
  rewrite delivered_for_app, Hl, app_nil_r.
  repeat split.
Qed.

Lemma same_entry_ticks (pid pid' : string) (c : completion) (ws : list waiter) :
  pid' <> pid -> delivered_for pid (map (fun w => NextTick pid' w c) ws) = [].
Proof.
  intros Hne. rewrite delivered_for_ticks. destruct (decide (pid' = pid)); [contradiction | reflexivity].
Qed.

Lemma same_entry_pendings (pid pid' : string) (g : gmap string (list waiter) -> gmap string (list waiter)) :
  (forall m, g m !! pid = m !! pid) ->
  preserves (same_entry pid) (modify (with_pendings g)).
Proof. intros Hg p. unfold same_entry. cbn. rewrite Hg. repeat split. Qed.

Lemma same_entry_marks (pid : string) (g : gmap string bool -> gmap string bool) :
  (forall m, g m !! pid = m !! pid) ->
  preserves (same_entry pid) (modify (with_pendingGenerateCall g)).
Proof. intros Hg p. unfold same_entry. cbn. rewrite Hg. repeat split. Qed.

Ltac same_entry_base :=
  match goal with
  | |- preserves (same_entry _) (modify (with_effects (fun _ => _ ++ map _ _))) =>
      apply same_entry_effects, same_entry_ticks; assumption
  | |- preserves (same_entry _) (emit _) => apply same_entry_effects; reflexivity
  | |- preserves (same_entry ?pid) (modify (with_pendings _)) =>
      apply (same_entry_pendings pid pid); intros ?;
      first [apply lookup_delete_ne | apply lookup_insert_ne]; assumption
  | |- preserves (same_entry _) (modify (with_pendingGenerateCall _)) =>
      apply same_entry_marks; intros ?;
      first [apply lookup_delete_ne | apply lookup_insert_ne]; assumption
  | |- preserves (same_entry _) (modify _) =>
      apply same_entry_modify; intros ?; repeat split
  end.

Ltac same_entry_all pid :=
  repeat first [ same_entry_base
               | preserves_step (same_entry_refl pid) (same_entry_trans pid) ].

Lemma same_entry_step (localDate : Z -> Z -> Z -> Z) (pid : string) (e : event) :
  event_pid e <> Some pid -> preserves (same_entry pid) (step localDate e).
Proof.
  intros He.
  destruct e as [k cb domain | k v t [cb |] clock | k [cb |] | o | k a];
    cbn [event_pid user_callback] in He.
  - assert (Hne : pendingsId (key_id k) <> pid) by congruence.
    unfold step, get, _get, count. same_entry_all pid.
  - cbn [step user_callback]. unfold set, count. cbn [call]. same_entry_all pid.
  - cbn [step user_callback]. unfold set, count. cbn [call]. same_entry_all pid.
  - cbn [step user_callback]. unfold drop. cbn [call]. same_entry_all pid.
  - cbn [step user_callback]. unfold drop. cbn [call]. same_entry_all pid.
  - unfold step, rules. same_entry_all pid.
  - destruct k as [id key | once id c report | once id report | pid'
                  | once id key cached report | once id report
                  | [| f | once id generateError value cached report]];
      cbn [closure_pid] in He;
      try (assert (Hne : pendingsId id <> pid) by congruence);
      try (assert (Hne : pid' <> pid) by congruence);
      cbn [step fire];
      unfold on_get, on_generated, on_backend_done, set, drop;
      cbn [call key_id];
      unfold finalize, _generate, _callGenerateFunc, on_throw, new_once, respond_once,
        respond, count;
      same_entry_all pid.
Qed.

(** X15.  Ids do not interfere: a run in which no event concerns the
    (prefixed) id [pid] - no [get] for it, and no closure created for it
    fires - leaves its waiter list and its pending mark as they were and
    delivers nothing to its waiters, whatever happens to other ids. *)
Theorem other_ids_do_not_interfere (localDate : Z -> Z -> Z -> Z) (pid : string)
    (trace : list event) (p : Policy) :
  Forall (fun e => event_pid e <> Some pid) trace ->
  let p' := run localDate trace p in
  _pendings p' !! pid = _pendings p !! pid
  /\ _pendingGenerateCall p' !! pid = _pendingGenerateCall p !! pid
  /\ delivered_for pid (effects p') = delivered_for pid (effects p).
Proof.
  intros Hall. cbv zeta. change (same_entry pid p (run localDate trace p)).
  induction trace as [| e trace IH] using rev_ind.
  - apply same_entry_refl.
  - apply Forall_app in Hall as [Htrace He]. rewrite run_snoc.
    eapply same_entry_trans; [apply IH, Htrace |].
    apply same_entry_step. inversion He; assumption.
Qed.

(** ** The generate timeout *)

Lemma on_get_miss_state (id : ident) (k : key) (err : option error)
    (msec now userStaleIn : Z) (p : Policy) (f : nat) :
  generateFunc (rule p) = Some f ->
  err = None \/ generateOnReadError (rule p) = Some true ->
  let p1 := exec (on_get id k err None msec now userStaleIn) p in
  _pendings p1 = _pendings p /\ onces p1 = onces p ++ [false].
Proof.
  intros Hgen Herr. destruct p as [ca r pend pgc st hp on ef]. cbn in Hgen, Herr.
  unfold exec, on_get, _generate, new_once, _callGenerateFunc, emit.
  cbv [mbind M_bind bind this modify count when mret M_ret ret].
  destruct Herr as [-> | Hro]; [| destruct err as [msg |]];
    cbn; rewrite Hgen, ?Hro; cbn;
    (destruct (generateTimeout r) as [[ms |] |]; cbn;
     try (destruct (negb (ms =? 0)); cbn);
     destruct (default false (pgc !! pendingsId id)); cbn;
     try (destruct (num_truthy (pendingGenerateTimeout r)); cbn; rewrite Hgen; cbn);
     split; reflexivity).
Qed.

(** X16.  A lookup that finds nothing, under a rule with a producer and a
    numeric [generateTimeout]: the reply of the backend arms exactly one
    timer for that delay, before the producer is called, and calls nobody
    back yet.  If the timer fires while the wrapper is unused and the entry
    is there, every waiter listed then is called, in order, with
    [(Boom.serverTimeout(), null, null, report)], the entry is removed and
    [stats.hits] stays as it is.  With [generateTimeout: false] no timer is
    armed. *)
Theorem generate_timeout_on_miss (localDate : Z -> Z -> Z -> Z) (p : Policy) (id : ident)
    (k : key) (err : option error) (msec now userStaleIn : Z) (f : nat) :
  generateFunc (rule p) = Some f ->
  err = None \/ generateOnReadError (rule p) = Some true ->
  let once := List.length (onces p) in
  let report := missReport msec err in
  let timer := OnGenerateTimeout once id report in
  let p1 := exec (on_get id k err None msec now userStaleIn) p in
  (forall ms, generateTimeout (rule p) = Some (Some ms) -> ms <> 0 ->
     effects p1 = effects p ++ SetTimeout timer (Some ms)
                              :: producer_effects p once id k None report f)
  /\ (generateTimeout (rule p) = Some None ->
        effects p1 = effects p ++ producer_effects p once id k None report f)
  /\ _pendings p1 = _pendings p
  /\ onces p1 !! once = Some false
  /\ (forall q ws a,
        onces q !! once = Some false ->
        _pendings q !! pendingsId id = Some ws ->
        let q' := exec (fire localDate timer a) q in
        effects q' = effects q ++
          map (fun w => NextTick (pendingsId id) w
                          {| d_err := Some serverTimeout; d_value := JNull;
                             d_cached := None; d_report := report |}) ws
        /\ _pendings q' !! pendingsId id = None
        /\ onces q' !! once = Some true
        /\ hits (stats q') = hits (stats q)).
Proof.
  intros Hgen Herr once report timer p1.
  destruct (on_get_miss id k err msec now userStaleIn p f Hgen Herr) as (He & _).
  destruct (on_get_miss_state id k err msec now userStaleIn p f Hgen Herr) as (Hp & Ho).
  fold p1 in He, Hp, Ho. fold once in He. fold (missReport msec err) in He. fold report in He.
  split; [| split; [| split; [| split]]].
  - intros ms Hms Hnz. rewrite He. unfold miss_timer. rewrite Hms.
    destruct (Z.eqb_spec ms 0) as [-> | _]; [contradiction | reflexivity].
  - intros Hms. rewrite He. unfold miss_timer. rewrite Hms. reflexivity.
  - exact Hp.
  - rewrite Ho. subst once. rewrite lookup_app_r by lia.
    rewrite Nat.sub_diag. reflexivity.
  - intros q ws a Hflag Hws q'. subst q' timer. unfold exec. cbn [fire].
    rewrite respond_once_first by exact Hflag.
    rewrite (respond_resolves _ _ _ _ _ _ ws) by exact Hws. cbv zeta.
    rewrite bool_decide_eq_false_2 by (intros H; apply H; reflexivity).
    cbn [snd effects _pendings onces stats with_effects with_pendings with_onces].
    repeat split.
    + apply lookup_delete_eq.
    + apply list_lookup_insert_eq. eapply lookup_lt_Some. exact Hflag.
Qed.

Lemma generate_timeout_on_miss_witness :
  let p := exec (get (KId (IdStr "k")) 1 None) (freshPolicy timedRule true) in
  let timer := OnGenerateTimeout 0 (IdStr "k") (missReport 3 None) in
  let p1 := exec (on_get (IdStr "k") (KId (IdStr "k")) None None 3 1000 0) p in
  effects p1 = effects p ++ SetTimeout timer (Some 200)
                           :: producer_effects p 0 (IdStr "k") (KId (IdStr "k")) None
                                (missReport 3 None) 7.
Proof.
  intros p timer p1.
  destruct (generate_timeout_on_miss utcDate p (IdStr "k") (KId (IdStr "k")) None 3 1000 0 7)
    as (H & _).
  - reflexivity.
  - left. reflexivity.
  - apply (H 200); [reflexivity | discriminate].
Defined.

(** ** Lookups answered without the producer *)

(** X17.  The reply of the backend is passed straight to the waiters when
    the rule has no producer, when the lookup failed and
    [generateOnReadError] is not true, and when a fresh entry came back.
    Every waiter is then called once, in order, with the item of the entry
    (or [null]), the entry as received (its ttl untouched) and the report;
    the error they get is the backend's in the first two cases and [null]
    for a fresh entry under a rule with a producer.  No once-wrapper is
    made, so no timer is armed and the producer is not called. *)
Theorem lookup_answered_directly (p : Policy) (id : ident) (k : key) (err : option error)
    (cached : option entry) (msec now userStaleIn : Z) (ws : list waiter) :
  _pendings p !! pendingsId id = Some ws ->
  let c := List.length (heap p) in
  let isStale e := isStale_of (rule p) e now userStaleIn in
  let report :=
    match cached with
    | Some e => {| r_msec := msec; r_error := err; r_stored := Some (e_stored e);
                   r_ttl := Some (Num (e_ttl e)); r_isStale := Some (isStale e) |}
    | None => missReport msec err
    end in
  let p1 := exec (on_get id k err cached msec now userStaleIn) p in
  let answered (error : option error) :=
    effects p1 = effects p ++
      map (fun w => NextTick (pendingsId id) w
                      {| d_err := error;
                         d_value := match cached with Some e => e_item e | None => JNull end;
                         d_cached := match cached with Some _ => Some c | None => None end;
                         d_report := report |}) ws
    /\ _pendings p1 !! pendingsId id = None
    /\ onces p1 = onces p
    /\ heap p1 = heap p ++
         match cached with
         | Some e => [{| c_item := e_item e; c_stored := e_stored e;
                         c_ttl := Num (e_ttl e); c_isStale := Some (isStale e) |}]
         | None => []
         end in
  (generateFunc (rule p) = None -> answered err)
  /\ (err <> None -> generateOnReadError (rule p) <> Some true -> answered err)
  /\ (forall e f, cached = Some e -> isStale e = false ->
        generateFunc (rule p) = Some f ->
        err = None \/ generateOnReadError (rule p) = Some true ->
        answered None).
Proof.
  intros Hws c isStale report p1 answered.
  subst answered p1 report isStale c.
  destruct p as [ca r pend pgc st hp on ef]. cbn in Hws. cbn [rule heap effects onces].
  unfold exec, on_get, missReport.
  cbv [mbind M_bind bind this modify count when mret M_ret ret].
  split; [| split].
  - intros Hgen.
    destruct cached as [e |]; destruct err as [msg |];
      cbn; rewrite Hgen;
      try destruct (isStale_of r e now userStaleIn);
      cbn;
      erewrite respond_resolves by (cbn; exact Hws);
      cbn; rewrite ?app_nil_r; repeat split; apply lookup_delete_eq.
  - intros Herr Hro.
    assert (Hflag : flag (generateOnReadError r) = false).
    { destruct (generateOnReadError r) as [[|] |]; [contradiction | |]; reflexivity. }
    destruct err as [msg |]; [| contradiction].
    destruct cached as [e |];
      cbn; rewrite Hflag, orb_true_r;
      try destruct (isStale_of r e now userStaleIn);
      cbn;
      erewrite respond_resolves by (cbn; exact Hws);
      cbn; rewrite ?app_nil_r; repeat split; apply lookup_delete_eq.
  - intros e f -> Hfresh Hgen Hro.
    destruct Hro as [-> | Hro]; [| destruct err as [msg |]];
      cbn; rewrite Hfresh, Hgen, ?Hro;
      cbn;
      erewrite respond_resolves by (cbn; exact Hws);
      cbn; repeat split; apply lookup_delete_eq.
Qed.

Lemma lookup_answered_directly_witness :
  let p := exec (get (KId (IdStr "k")) 2 None) (freshPolicy localRule false) in
  let p1 := exec (on_get (IdStr "k") (KId (IdStr "k")) None None 0 0 0) p in
  effects p1 = effects p ++
    [NextTick "+k" {| w_callback := 2; w_domain := None |}
       {| d_err := None; d_value := JNull; d_cached := None;
          d_report := missReport 0 None |}]
  /\ _pendings p1 !! "+k" = None
  /\ onces p1 = onces p
  /\ heap p1 = heap p ++ [].
Proof.
  intros p.
  destruct (lookup_answered_directly p (IdStr "k") (KId (IdStr "k")) None None 0 0 0
              [{| w_callback := 2; w_domain := None |}]) as (H & _).
  - reflexivity.
  - apply H. reflexivity.
Defined.

(** ** The pending mark of a producer call *)





(** ** set *)

Lemma ttl_of_new_item (localDate : Z -> Z -> Z -> Z) (r : Rule) (clock : Z) :
  ttl localDate r None None clock
  = if num_truthy (expiresIn r) then Z.max (default 0 (expiresIn r)) 0
    else match expiresAt r with
         | Some (hours, minutes) =>
             let expires := localDate clock hours minutes in
             let expires := if expires <=? clock then expires + day else expires in
             if clock >=? expires then 0 else expires - clock
         | None => 0
         end.
Proof.
  unfold ttl. cbn [num_or]. rewrite Z.sub_diag. cbn [Z.ltb Z.compare].
  destruct (num_truthy (expiresIn r)); [rewrite Z.sub_0_r; reflexivity |].
  destruct (expiresAt r) as [[hours minutes] |]; reflexivity.
Qed.

(** X19.  [set] always counts one write.  With a backend it makes exactly
    one backend [set] for the id of the key - which is not validated - and
    the value, with the ttl given if that is a non-zero number and the
    rule's ttl for a new item otherwise: the full [expiresIn] under a rule
    with a positive [expiresIn], and 0 under a rule without expiry.
    Without a backend the callback is called at once with [null].  When
    the backend's write completes, the callback gets the write's error and
    [stats.errors] is raised if there is one. *)
Theorem set_stores (localDate : Z -> Z -> Z -> Z) (p : Policy) (k : key) (value : jsval)
    (ttl_ : option Z) (cb : option nat) (clock : Z) :
  let p' := exec (step localDate (CallSet k value ttl_ cb clock)) p in
  let t := num_or ttl_ (ttl localDate (rule p) None None clock) in
  let done := OnBackendDone (user_callback cb) in
  sets (stats p') = S (sets (stats p))
  /\ (_cache p = true ->
        effects p' = effects p ++ [BackendSet (key_id k) value t done])
  /\ (_cache p = false ->
        effects p' = effects p ++
          match cb with Some f => [CallUser f None] | None => [] end)
  /\ (forall z, ttl_ = Some z -> z <> 0 -> t = z)
  /\ (forall e, ttl_ = None \/ ttl_ = Some 0 ->
        expiresIn (rule p) = Some e -> 0 < e -> t = e)
  /\ (ttl_ = None \/ ttl_ = Some 0 ->
        num_truthy (expiresIn (rule p)) = false -> expiresAt (rule p) = None -> t = 0)
  /\ (forall q a,
        let q' := exec (fire localDate done a) q in
        effects q' = effects q ++
          match cb with Some f => [CallUser f (a_err a)] | None => [] end
        /\ errors (stats q')
           = (errors (stats q) + if a_err a is Some _ then 1 else 0)%nat).
Proof.
  intros p' t done.
  assert (Hdefault : ttl_ = None \/ ttl_ = Some 0 ->
            t = ttl localDate (rule p) None None clock).
  { subst t. intros [-> | ->]; reflexivity. }
  split; [| split; [| split; [| split; [| split; [| split]]]]].
  - subst p'. destruct p as [ca r pend pgc st hp on ef].
    unfold exec. cbn [step]. unfold set, emit.
    cbv [mbind M_bind bind this modify count mret M_ret ret]. cbn.
    destruct ca, cb as [f |]; cbn; lia.
  - intros Hc. subst p' t done. destruct p as [ca r pend pgc st hp on ef].
    cbn in Hc. subst ca. reflexivity.
  - intros Hc. subst p'. destruct p as [ca r pend pgc st hp on ef].
    cbn in Hc. subst ca. destruct cb as [f |]; [reflexivity |].
    cbn. rewrite app_nil_r. reflexivity.
  - intros z -> Hz. subst t. cbn. destruct (Z.eqb_spec z 0); [contradiction | reflexivity].
  - intros e Hd He Hpos. rewrite (Hdefault Hd), ttl_of_new_item, He.
    rewrite num_truthy_nonzero by lia. cbn. lia.
  - intros Hd He Ha. rewrite (Hdefault Hd), ttl_of_new_item, He, Ha. reflexivity.
  - intros q a q'. subst q' done. destruct q as [ca r pend pgc st hp on ef].
    unfold exec. cbn [fire]. unfold on_backend_done, emit.
    cbv [mbind M_bind bind this modify count when mret M_ret ret].
    destruct (a_err a) as [msg |], cb as [f |]; cbn; rewrite ?app_nil_r;
      split; try reflexivity; lia.
Qed.

(** ** A miss, from the backend's reply to the waiters *)

Lemma on_generated_stores (localDate : Z -> Z -> Z -> Z) (once : nat) (id : ident) (k : key)
    (cached : option nat) (report : Report) (value : jsval) (ttl_ : option Z) (clock : Z)
    (q : Policy) :
  _cache q = true -> ttl_ <> Some 0 ->
  exec (on_generated localDate once id k cached report None value ttl_ clock) q
  = with_effects
      (fun l => l ++ [BackendSet id value
                        (num_or ttl_ (ttl localDate (rule q) None None clock))
                        (OnBackendDone (CbFinalize once id None value cached report))])
      (with_stats (bump Sets 1) (with_pendingGenerateCall (delete (pendingsId id)) q)).
Proof.
  intros Hc Ht. unfold exec, on_generated, set, emit.
  cbv [mbind M_bind bind this modify count mret M_ret ret].
  cbn [_cache rule with_stats with_pendingGenerateCall key_id fst snd].
  rewrite (bool_decide_eq_false_2 (None ≠ None)) by (intros H; apply H; reflexivity).
  rewrite (bool_decide_eq_false_2 _ Ht).
  rewrite (bool_decide_eq_true_2 (None = None)) by reflexivity.
  cbn [andb orb]. cbv beta.
  cbn [_cache rule with_stats with_pendingGenerateCall key_id negb].
  rewrite Hc. reflexivity.
Qed.

Lemma finalize_state (once : nat) (id : ident) (generateError : option error)
    (value : jsval) (cached : option nat) (report : Report) (err : option error)
    (p : Policy) (ws : list waiter) :
  onces p !! once = Some false ->
  _pendings p !! pendingsId id = Some ws ->
  let p' := exec (finalize once id generateError value cached report err) p in
  _pendings p' !! pendingsId id = None /\ onces p' !! once = Some true.
Proof.
  intros Hflag Hws. unfold exec, finalize. cbv [mbind M_bind bind this].
  assert (Hgo : forall e v c,
    let p' := (respond_once once id e v c report p).2 in
    _pendings p' !! pendingsId id = None /\ onces p' !! once = Some true).
  { intros e v c. rewrite respond_once_first by exact Hflag.
    rewrite (respond_resolves _ _ _ _ _ _ ws) by exact Hws. cbv zeta.
    destruct (bool_decide (r_isStale report ≠ None));
      cbn [snd _pendings onces with_effects with_pendings with_stats with_onces];
      (split; [ apply lookup_delete_eq
              | apply list_lookup_insert_eq; eapply lookup_lt_Some; exact Hflag ]). }
  destruct cached as [c |];
    destruct generateError as [e |];
    try destruct (flag (generateIgnoreWriteError (rule p)));
    try destruct err as [e' |];
    try destruct (flag (dropOnError (rule p)));
    cbn [negb]; apply Hgo.
Qed.

(** X20.  A miss served by the producer, end to end.  From a policy with a
    backend and a producer, with waiters listed for the id and no producer
    call in flight: once the backend has answered the lookup with neither
    error nor entry, the producer has called back with a value (and a ttl
    other than 0) and the backend has completed the write, the policy has
    armed the generate timeout (if the rule has one), called the producer
    with the caller's key, written the value under the id with the ttl
    given or else the rule's, and then called every waiter once, in order,
    with [(error, value, null, report)] - where [error] is the write's error
    unless [generateIgnoreWriteError] is true.  The entry is gone and the
    once-wrapper is used. *)
Theorem miss_round_trip (localDate : Z -> Z -> Z -> Z) (p : Policy) (id : ident) (k : key)
    (ws : list waiter) (f : nat) (a1 a2 a3 : args) :
  _cache p = true ->
  generateFunc (rule p) = Some f ->
  _pendings p !! pendingsId id = Some ws ->
  _pendingGenerateCall p !! pendingsId id <> Some true ->
  a_err a1 = None -> a_cached a1 = None ->
  a_err a2 = None -> a_ttl a2 <> Some 0 ->
  let once := List.length (onces p) in
  let report := missReport (a_msec a1) None in
  let next := OnGenerated once id k None report in
  let written := OnBackendDone (CbFinalize once id None (a_value a2) None report) in
  let p' := run localDate [Fire (OnGet id k) a1; Fire next a2; Fire written a3] p in
  let error := if flag (generateIgnoreWriteError (rule p)) then None else a_err a3 in
  effects p' = effects p
    ++ miss_timer (rule p) once id report
    ++ (if num_truthy (pendingGenerateTimeout (rule p))
        then [SetTimeout (OnPendingTimeout (pendingsId id)) (pendingGenerateTimeout (rule p))]
        else [])
    ++ [CallGenerate f k next (OnThrow once id report)]
    ++ [BackendSet id (a_value a2)
          (num_or (a_ttl a2) (ttl localDate (rule p) None None (a_now a2))) written]
    ++ map (fun w => NextTick (pendingsId id) w
                       {| d_err := error; d_value := a_value a2; d_cached := None;
                          d_report := report |}) ws
  /\ _pendings p' !! pendingsId id = None
  /\ onces p' !! once = Some true.
Proof.
  intros Hc Hgen Hws Hmark Herr1 Hnone Herr2 Httl once report next written p' error.
  assert (Hfree : default false (_pendingGenerateCall p !! pendingsId id) = false).
  { destruct (_pendingGenerateCall p !! pendingsId id) as [[|] |];
      [contradiction | reflexivity | reflexivity]. }
  (* the reply of the backend *)
  set (p1 := exec (on_get id k None None (a_msec a1) (a_now a1) (a_staleIn a1)) p).
  destruct (on_get_miss id k None (a_msec a1) (a_now a1) (a_staleIn a1) p f Hgen
              (or_introl eq_refl)) as (He1 & _).
  destruct (on_get_miss_state id k None (a_msec a1) (a_now a1) (a_staleIn a1) p f Hgen
              (or_introl eq_refl)) as (Hp1 & Ho1).
  fold p1 in He1, Hp1, Ho1. fold once in He1. fold (missReport (a_msec a1) None) in He1.
  fold report in He1.
  assert (Hsame : (rule p1, _cache p1) = (rule p, _cache p)).
  { assert (Hu : preserves (unchanged (fun p => (rule p, _cache p)))
                   (on_get id k None None (a_msec a1) (a_now a1) (a_staleIn a1))).
    { unfold_handlers. unchanged_all (fun p => (rule p, _cache p)). }
    exact (Hu p). }
  injection Hsame as Hr1 Hc1.
  (* the producer's callback *)
  set (p2 := exec (on_generated localDate once id k None report None (a_value a2)
                     (a_ttl a2) (a_now a2)) p1).
  assert (Hp2 : p2 = with_effects
                  (fun l => l ++ [BackendSet id (a_value a2)
                                    (num_or (a_ttl a2)
                                       (ttl localDate (rule p1) None None (a_now a2)))
                                    written])
                  (with_stats (bump Sets 1)
                     (with_pendingGenerateCall (delete (pendingsId id)) p1))).
  { subst p2. apply on_generated_stores; [rewrite Hc1; exact Hc | exact Httl]. }
  (* the completion of the write *)
  set (p2' := if bool_decide (a_err a3 ≠ None) then with_stats (bump Errors 1) p2 else p2).
  assert (Hp' : p' = exec (finalize once id None (a_value a2) None report (a_err a3)) p2').
  { subst p' p2' p2 p1. unfold run. cbn [fold_left step]. unfold exec at 1 2 3.
    subst next written. cbn [fire]. rewrite Herr1, Hnone, Herr2.
    unfold on_backend_done. rewrite bind_when_count. reflexivity. }
  assert (Hq : effects p2' = effects p2 /\ _pendings p2' = _pendings p2
               /\ onces p2' = onces p2 /\ rule p2' = rule p2).
  { subst p2'. destruct (bool_decide (a_err a3 ≠ None)); repeat split. }
  destruct Hq as (He2' & Hp2' & Ho2' & Hr2').
  assert (Hflag : onces p2' !! once = Some false).
  { rewrite Ho2', Hp2. cbn [onces with_effects with_stats with_pendingGenerateCall].
    rewrite Ho1. subst once. rewrite lookup_app_r by lia.
    rewrite Nat.sub_diag. reflexivity. }
  assert (Hentry : _pendings p2' !! pendingsId id = Some ws).
  { rewrite Hp2', Hp2. cbn [_pendings with_effects with_stats with_pendingGenerateCall].
    rewrite Hp1. exact Hws. }
  pose proof (finalize_delivers once id None (a_value a2) None report (a_err a3) p2' ws
                Hflag Hentry) as Hfin.
  pose proof (finalize_state once id None (a_value a2) None report (a_err a3) p2' ws
                Hflag Hentry) as Hst.
  cbv zeta in Hfin, Hst. rewrite <- Hp' in Hfin, Hst.
  split; [| exact Hst].
  rewrite Hfin, He2', Hr2', Hp2.
  cbn [effects rule with_effects with_stats with_pendingGenerateCall].
  rewrite He1, Hr1. unfold producer_effects. rewrite Hfree.
  subst error. rewrite <- !app_assoc.
  destruct (flag (generateIgnoreWriteError (rule p))); [reflexivity |].
  destruct (a_err a3); reflexivity.
Qed.

(** ** Orderly runs never throw *)

Lemma remove_one_sublist (k : closure) (l : list closure) : remove_one k l `sublist_of` l.
Proof.
  induction l as [| x l IH]; cbn; [constructor |].
  destruct (decide (x = k)); [apply sublist_cons; reflexivity | apply sublist_skip, IH].
Qed.

Lemma filter_sublist_mono {A : Type} (f g : A -> bool) (l1 l2 : list A) :
  l1 `sublist_of` l2 ->
  (forall x, x ∈ l1 -> f x = true -> g x = true) ->
  List.filter f l1 `sublist_of` List.filter g l2.
Proof.
  induction 1 as [| x l1 l2 Hsub IH | x l1 l2 Hsub IH]; intros Hfg; cbn.
  - constructor.
  - destruct (f x) eqn:Hf.
    + rewrite (Hfg x (list_elem_of_here _ _) Hf). apply sublist_skip, IH.
      intros y Hy. apply Hfg. apply list_elem_of_further, Hy.
    + assert (Hrest : List.filter f l1 `sublist_of` List.filter g l2).
      { apply IH. intros y Hy. apply Hfg. apply list_elem_of_further, Hy. }
      destruct (g x); [apply sublist_cons |]; exact Hrest.
  - destruct (g x); [apply sublist_cons |]; apply IH, Hfg.
Qed.

Lemma remove_one_filter (f : closure -> bool) (k : closure) (l : list closure) :
  f k = true -> List.filter f (remove_one k l) = remove_one k (List.filter f l).
Proof.
  intros Hk. induction l as [| x l IH]; cbn; [reflexivity |].
  destruct (decide (x = k)) as [-> | Hne].
  - rewrite Hk. cbn. rewrite decide_True by reflexivity. reflexivity.
  - cbn. destruct (f x); cbn; [rewrite decide_False by exact Hne |]; rewrite IH; reflexivity.
Qed.

Lemma remove_one_filter_out (f : closure -> bool) (k : closure) (l : list closure) :
  f k = false -> List.filter f (remove_one k l) = List.filter f l.
Proof.
  intros Hk. induction l as [| x l IH]; cbn; [reflexivity |].
  destruct (decide (x = k)) as [-> | Hne].
  - rewrite Hk. reflexivity.
  - cbn. destruct (f x); rewrite IH; reflexivity.
Qed.

(** Flags only go up, so what is live later was live before. *)
Lemma live_before (p p' : Policy) (pid : string) (out : list closure) (c : closure) :
  guards_valid p out -> flags_stay p p' ->
  c ∈ out -> is_live p' pid c = true -> is_live p pid c = true.
Proof.
  intros Hg Hf Hc. unfold is_live, unspent.
  destruct (guard_of c) as [o |] eqn:Ho; [| auto].
  intros Hl. apply andb_prop in Hl as [Hl Hu]. rewrite Hl. cbn.
  apply bool_decide_eq_true_1 in Hu. apply bool_decide_eq_true_2.
  unfold guards_valid in Hg. rewrite Forall_forall in Hg.
  specialize (Hg c Hc o Ho). apply lookup_lt_is_Some_2 in Hg as [b Hb].
  destruct b; [| exact Hb].
  rewrite (Hf o Hb) in Hu. discriminate.
Qed.

Lemma inv_at_sub (p p' : Policy) (out out' : list closure) (pid : string) :
  inv_at p out pid ->
  live_for p' pid out' `sublist_of` live_for p pid out ->
  (live_for p' pid out' <> [] -> is_Some (_pendings p !! pid) ->
   is_Some (_pendings p' !! pid)) ->
  inv_at p' out' pid.
Proof.
  intros [He Hu] Hsub Hentry. split.
  - intros Hne. apply (Hentry Hne), He. intros Hnil. rewrite Hnil in Hsub.
    apply sublist_nil_r in Hsub. contradiction.
  - destruct Hu as [[o Ho] | Hlen].
    + left. exists o. rewrite Forall_forall in Ho |- *.
      intros c Hc. apply Ho. eapply elem_of_sublist; [exact Hc | exact Hsub].
    + right. apply sublist_length in Hsub. lia.
Qed.

(** A closure without once-wrapper that is live is the only live one. *)
Lemma live_alone (p : Policy) (out : list closure) (pid : string) (k : closure) :
  inv_at p out pid -> k ∈ out -> is_live p pid k = true -> guard_of k = None ->
  live_for p pid out = [k] /\ is_Some (_pendings p !! pid).
Proof.
  intros [He Hu] Hk Hl Hg.
  assert (Hin : k ∈ live_for p pid out).
  { unfold live_for. apply list_elem_of_In, List.filter_In.
    split; [apply list_elem_of_In, Hk | exact Hl]. }
  assert (Hne : live_for p pid out <> []).
  { intros Hnil. rewrite Hnil in Hin. inversion Hin. }
  split; [| exact (He Hne)].
  destruct Hu as [[o Ho] | Hlen].
  - rewrite Forall_forall in Ho. rewrite (Ho k Hin) in Hg. discriminate.
  - destruct (live_for p pid out) as [| x [| y l]]; cbn in Hlen; [contradiction | | lia].
    apply list_elem_of_singleton in Hin. subst x. reflexivity.
Qed.

(** A live closure with a once-wrapper shares it with every live one. *)
Lemma live_share (p : Policy) (out : list closure) (pid : string) (k : closure) (o : nat) :
  inv_at p out pid -> k ∈ out -> is_live p pid k = true -> guard_of k = Some o ->
  Forall (fun c => guard_of c = Some o) (live_for p pid out)
  /\ is_Some (_pendings p !! pid).
Proof.
  intros [He Hu] Hk Hl Hg.
  assert (Hin : k ∈ live_for p pid out).
  { unfold live_for. apply list_elem_of_In, List.filter_In.
    split; [apply list_elem_of_In, Hk | exact Hl]. }
  assert (Hne : live_for p pid out <> []).
  { intros Hnil. rewrite Hnil in Hin. inversion Hin. }
  split; [| exact (He Hne)].
  destruct Hu as [[o' Ho] | Hlen].
  - assert (o' = o) as ->.
    { rewrite Forall_forall in Ho. specialize (Ho k Hin). congruence. }
    exact Ho.
  - destruct (live_for p pid out) as [| x [| y l]]; cbn in Hlen; [contradiction | | lia].
    apply list_elem_of_singleton in Hin. subst x. repeat constructor. exact Hg.
Qed.

Lemma live_for_app (p : Policy) (pid : string) (l1 l2 : list closure) :
  live_for p pid (l1 ++ l2) = live_for p pid l1 ++ live_for p pid l2.
Proof. apply List.filter_app. Qed.

Lemma filter_none {A : Type} (f : A -> bool) (l : list A) :
  (forall x, x ∈ l -> f x = false) -> List.filter f l = [].
Proof.
  induction l as [| x l IH]; intros Hf; cbn; [reflexivity |].
  rewrite (Hf x (list_elem_of_here _ _)). apply IH.
  intros y Hy. apply Hf, list_elem_of_further, Hy.
Qed.

Lemma live_for_none (p : Policy) (pid : string) (l : list closure) :
  (forall c, c ∈ l -> is_live p pid c = false) -> live_for p pid l = [].
Proof. apply filter_none. Qed.

Lemma is_live_same (p p' : Policy) (pid : string) (c : closure) :
  onces p' = onces p -> is_live p' pid c = is_live p pid c.
Proof. intros Ho. unfold is_live, unspent. rewrite Ho. reflexivity. Qed.

Lemma live_for_same (p p' : Policy) (pid : string) (l : list closure) :
  onces p' = onces p -> live_for p' pid l = live_for p pid l.
Proof.
  intros Ho. unfold live_for. induction l as [| x l IH]; cbn; [reflexivity |].
  rewrite (is_live_same p p' pid x Ho), IH. reflexivity.
Qed.

Lemma non_resolver_guard (c : closure) : is_resolver c = false -> guard_of c = None.
Proof. destruct c as [| | | | | | [| |]]; cbn; intros H; try discriminate; reflexivity. Qed.

Lemma guards_valid_sub (p p' : Policy) (out rem : list closure) :
  guards_valid p out -> rem `sublist_of` out ->
  (List.length (onces p) <= List.length (onces p'))%nat ->
  guards_valid p' rem.
Proof.
  unfold guards_valid. rewrite !Forall_forall. intros Hg Hsub Hlen c Hc o Ho.
  specialize (Hg c (elem_of_sublist _ _ _ Hc Hsub) o Ho). lia.
Qed.

Lemma guards_valid_app (p : Policy) (l1 l2 : list closure) :
  guards_valid p l1 -> guards_valid p l2 -> guards_valid p (l1 ++ l2).
Proof. unfold guards_valid. intros H1 H2. apply Forall_app. split; assumption. Qed.

(** *** How the invariant is kept, by kind of event *)

(** Events that call no waiter back. *)
Lemma inv_idle (p p' : Policy) (out rem new : list closure) :
  inv p out -> rem `sublist_of` out ->
  _pendings p' = _pendings p -> onces p' = onces p ->
  Forall (fun c => is_resolver c = false) new ->
  inv p' (rem ++ new).
Proof.
  intros [Hg Hinv] Hsub Hp Ho Hnew. rewrite Forall_forall in Hnew. split.
  - apply guards_valid_app.
    + apply (guards_valid_sub p p' out); [exact Hg | exact Hsub | rewrite Ho; lia].
    + unfold guards_valid. rewrite Forall_forall. intros c Hc o Hgo.
      rewrite (non_resolver_guard c (Hnew c Hc)) in Hgo. discriminate.
  - intros pid. apply (inv_at_sub p p' out); [apply Hinv | |].
    + rewrite live_for_app, !(live_for_same p p') by exact Ho.
      rewrite (live_for_none p pid new), app_nil_r.
      * apply filter_sublist_mono; [exact Hsub | auto].
      * intros c Hc. unfold is_live. rewrite (Hnew c Hc). reflexivity.
    + intros _. rewrite Hp. auto.
Qed.

(** A further [get] for an id that is pending. *)
Lemma inv_attach (p p' : Policy) (out : list closure) (pid : string) (ws : list waiter) :
  inv p out ->
  _pendings p' = <[pid := ws]> (_pendings p) -> onces p' = onces p ->
  inv p' (out ++ []).
Proof.
  intros [Hg Hinv] Hp Ho. rewrite app_nil_r. split.
  - apply (guards_valid_sub p p' out); [exact Hg | reflexivity | rewrite Ho; lia].
  - intros pid'. apply (inv_at_sub p p' out); [apply Hinv | |].
    + rewrite (live_for_same p p') by exact Ho. reflexivity.
    + intros _ Hsome. rewrite Hp. destruct (decide (pid = pid')) as [-> | Hne].
      * rewrite lookup_insert_eq. eauto.
      * rewrite lookup_insert_ne by exact Hne. exact Hsome.
Qed.

(** The first [get] for an id. *)
Lemma inv_start (p p' : Policy) (out : list closure) (id : ident) (k : key)
    (ws : list waiter) :
  inv p out ->
  _pendings p !! pendingsId id = None ->
  _pendings p' = <[pendingsId id := ws]> (_pendings p) -> onces p' = onces p ->
  inv p' (out ++ [OnGet id k]).
Proof.
  intros [Hg Hinv] Hnone Hp Ho. split.
  - apply guards_valid_app.
    + apply (guards_valid_sub p p' out); [exact Hg | reflexivity | rewrite Ho; lia].
    + repeat constructor. intros o Hgo. discriminate.
  - intros pid. destruct (decide (pendingsId id = pid)) as [<- | Hne].
    + destruct (Hinv (pendingsId id)) as [He _].
      assert (Hnil : live_for p (pendingsId id) out = []).
      { destruct (live_for p (pendingsId id) out) as [| x l] eqn:Hl; [reflexivity |].
        destruct He as [ws' Hws']; [discriminate | congruence]. }
      unfold inv_at. rewrite live_for_app, !(live_for_same p p') by exact Ho.
      rewrite Hnil. cbn. unfold is_live. cbn.
      rewrite bool_decide_eq_true_2 by reflexivity. cbn. split.
      * intros _. rewrite Hp, lookup_insert_eq. eauto.
      * right. lia.
    + apply (inv_at_sub p p' out); [apply Hinv | |].
      * rewrite live_for_app, !(live_for_same p p') by exact Ho.
        rewrite (live_for_none p pid [OnGet id k]), app_nil_r; [reflexivity |].
        intros c Hc. apply list_elem_of_singleton in Hc. subst c.
        unfold is_live. cbn. rewrite bool_decide_eq_false_2 by congruence. reflexivity.
      * intros _ Hsome. rewrite Hp, lookup_insert_ne by exact Hne. exact Hsome.
Qed.

(** The reply to a lookup, passed straight to the waiters. *)
Lemma inv_direct (p p' : Policy) (out : list closure) (id : ident) (k : key) :
  inv p out -> OnGet id k ∈ out ->
  _pendings p' = delete (pendingsId id) (_pendings p) -> onces p' = onces p ->
  inv p' (remove_one (OnGet id k) out ++ []).
Proof.
  intros [Hg Hinv] Hin Hp Ho. rewrite app_nil_r.
  assert (Hlive : is_live p (pendingsId id) (OnGet id k) = true).
  { unfold is_live. cbn. rewrite bool_decide_eq_true_2 by reflexivity. reflexivity. }
  split.
  - apply (guards_valid_sub p p' out);
      [exact Hg | apply remove_one_sublist | rewrite Ho; lia].
  - intros pid. destruct (decide (pendingsId id = pid)) as [<- | Hne].
    + destruct (live_alone p out (pendingsId id) (OnGet id k) (Hinv _) Hin Hlive eq_refl)
        as [Hl _].
      unfold inv_at. rewrite (live_for_same p p') by exact Ho.
      unfold live_for in *. rewrite remove_one_filter by exact Hlive.
      rewrite Hl. cbn. rewrite decide_True by reflexivity. split; [congruence | right; cbn; lia].
    + apply (inv_at_sub p p' out); [apply Hinv | |].
      * rewrite (live_for_same p p') by exact Ho.
        apply filter_sublist_mono; [apply remove_one_sublist | auto].
      * intros _ Hsome. rewrite Hp, lookup_delete_ne by exact Hne. exact Hsome.
Qed.

Lemma flags_stay_app (p p' : Policy) (l : list bool) :
  onces p' = onces p ++ l -> flags_stay p p'.
Proof. intros Ho o H. rewrite Ho. apply lookup_app_l_Some, H. Qed.

Lemma flags_stay_resolving (o : nat) (pid : string) (p p' : Policy) :
  resolving o pid p p' -> flags_stay p p'.
Proof.
  intros [[_ Ho] | (_ & _ & Ho)] o' H; rewrite Ho; [exact H |].
  destruct (decide (o = o')) as [-> | Hne].
  - apply list_lookup_insert_eq. eapply lookup_lt_Some. exact H.
  - rewrite list_lookup_insert_ne by exact Hne. exact H.
Qed.

(** The reply to a lookup that makes [_generate] run. *)
Lemma inv_spawn (p p' : Policy) (out new : list closure) (id : ident) (k : key) :
  inv p out -> OnGet id k ∈ out ->
  _pendings p' = _pendings p -> onces p' = onces p ++ [false] ->
  Forall (fun c => is_resolver c = false
                   \/ (guard_of c = Some (List.length (onces p))
                       /\ closure_pid c = Some (pendingsId id))) new ->
  inv p' (remove_one (OnGet id k) out ++ new).
Proof.
  intros [Hg Hinv] Hin Hp Ho Hnew. rewrite Forall_forall in Hnew.
  assert (Hlive : is_live p (pendingsId id) (OnGet id k) = true).
  { unfold is_live. cbn. rewrite bool_decide_eq_true_2 by reflexivity. reflexivity. }
  assert (Hflags : flags_stay p p') by (apply (flags_stay_app p p' [false]), Ho).
  assert (Hrem : forall pid,
            live_for p' pid (remove_one (OnGet id k) out)
            `sublist_of` live_for p pid (remove_one (OnGet id k) out)).
  { intros pid. apply filter_sublist_mono; [reflexivity |].
    intros c Hc. apply (live_before p p' pid out); [exact Hg | exact Hflags |].
    eapply elem_of_sublist; [exact Hc | apply remove_one_sublist]. }
  split.
  - apply guards_valid_app.
    + apply (guards_valid_sub p p' out);
        [exact Hg | apply remove_one_sublist | rewrite Ho, length_app; lia].
    + unfold guards_valid. rewrite Forall_forall. intros c Hc o Hgo.
      destruct (Hnew c Hc) as [Hr | [Hgc _]].
      * rewrite (non_resolver_guard c Hr) in Hgo. discriminate.
      * rewrite Hgc in Hgo. injection Hgo as <-. rewrite Ho, length_app. cbn. lia.
  - intros pid. destruct (decide (pendingsId id = pid)) as [<- | Hne].
    + destruct (live_alone p out (pendingsId id) (OnGet id k) (Hinv _) Hin Hlive eq_refl)
        as [Hl Hsome].
      assert (Hnil : live_for p' (pendingsId id) (remove_one (OnGet id k) out) = []).
      { apply sublist_nil_r. etransitivity; [apply Hrem |].
        unfold live_for in *. rewrite remove_one_filter by exact Hlive.
        rewrite Hl. cbn. rewrite decide_True by reflexivity. reflexivity. }
      unfold inv_at. rewrite live_for_app, Hnil. cbn [app]. split.
      * intros _. rewrite Hp. exact Hsome.
      * left. exists (List.length (onces p)). rewrite Forall_forall.
        intros c Hc. unfold live_for in Hc.
        apply list_elem_of_In, List.filter_In in Hc as [Hc Hlc].
        apply list_elem_of_In in Hc.
        destruct (Hnew c Hc) as [Hr | [Hgc _]]; [| exact Hgc].
        unfold is_live in Hlc. rewrite Hr in Hlc. discriminate.
    + apply (inv_at_sub p p' out); [apply Hinv | |].
      * rewrite live_for_app, (live_for_none p' pid new), app_nil_r.
        -- etransitivity; [apply Hrem |].
           apply filter_sublist_mono; [apply remove_one_sublist | auto].
        -- intros c Hc. unfold is_live.
           destruct (Hnew c Hc) as [Hr | [_ Hpc]]; [rewrite Hr; reflexivity |].
           rewrite Hpc, bool_decide_eq_false_2 by congruence.
           rewrite andb_false_r. reflexivity.
      * intros _ Hsome. rewrite Hp. exact Hsome.
Qed.

(** A closure that resolves through a once-wrapper. *)
Lemma inv_guarded (p p' : Policy) (out new : list closure) (k : closure) (o : nat)
    (pid : string) :
  inv p out -> k ∈ out ->
  guard_of k = Some o -> closure_pid k = Some pid -> is_resolver k = true ->
  resolving o pid p p' ->
  Forall (fun c => guard_of c = Some o /\ closure_pid c = Some pid) new ->
  inv p' (remove_one k out ++ new).
Proof.
  intros [Hg Hinv] Hin Hgk Hpk Hrk Hres Hnew. rewrite Forall_forall in Hnew.
  assert (Hflags : flags_stay p p') by (apply (flags_stay_resolving o pid), Hres).
  assert (Hvalid : (o < List.length (onces p))%nat).
  { unfold guards_valid in Hg. rewrite Forall_forall in Hg. exact (Hg k Hin o Hgk). }
  assert (Hlen : List.length (onces p') = List.length (onces p)).
  { destruct Hres as [[_ ->] | (_ & _ & ->)]; [reflexivity | apply length_insert]. }
  assert (Hrem : forall pid',
            live_for p' pid' (remove_one k out) `sublist_of` live_for p pid' out).
  { intros pid'. apply filter_sublist_mono; [apply remove_one_sublist |].
    intros c Hc. apply (live_before p p' pid' out); [exact Hg | exact Hflags |].
    eapply elem_of_sublist; [exact Hc | apply remove_one_sublist]. }
  split.
  - apply guards_valid_app.
    + apply (guards_valid_sub p p' out); [exact Hg | apply remove_one_sublist | lia].
    + unfold guards_valid. rewrite Forall_forall. intros c Hc o' Hgo.
      destruct (Hnew c Hc) as [Hgc _]. rewrite Hgc in Hgo. injection Hgo as <-. lia.
  - intros pid'. destruct (decide (pid = pid')) as [<- | Hne].
    + assert (Hshare : onces p !! o = Some false ->
                Forall (fun c => guard_of c = Some o) (live_for p pid out)
                /\ is_Some (_pendings p !! pid)).
      { intros Hun. apply (live_share p out pid k o (Hinv _) Hin); [| exact Hgk].
        unfold is_live, unspent. rewrite Hrk, Hpk, Hgk.
        rewrite !bool_decide_eq_true_2 by auto. reflexivity. }
      assert (Hdead : onces p' !! o <> Some false ->
                forall c, c ∈ new -> is_live p' pid c = false).
      { intros Hsp c Hc. unfold is_live, unspent. destruct (Hnew c Hc) as [-> _].
        rewrite (bool_decide_eq_false_2 _ Hsp). apply andb_false_r. }
      destruct Hres as [[Hp Ho] | (Hun & Hp & Ho)].
      * destruct (decide (onces p !! o = Some false)) as [Hun | Hsp].
        -- (* nothing was resolved, and the wrapper is unused *)
           destruct (Hshare Hun) as [Hall Hsome]. rewrite Forall_forall in Hall.
           unfold inv_at. rewrite live_for_app. split.
           ++ intros _. rewrite Hp. exact Hsome.
           ++ left. exists o. apply Forall_app.
              split; rewrite Forall_forall; intros c Hc.
              ** apply Hall. eapply elem_of_sublist; [exact Hc | apply Hrem].
              ** unfold live_for in Hc.
                 apply list_elem_of_In, List.filter_In in Hc as [Hc _].
                 apply list_elem_of_In in Hc. apply (Hnew c Hc).
        -- (* the wrapper was used before *)
           apply (inv_at_sub p p' out); [apply Hinv | |].
           ++ rewrite live_for_app, (live_for_none p' pid new), app_nil_r; [apply Hrem |].
              apply Hdead. rewrite Ho. exact Hsp.
           ++ intros _ Hsome. rewrite Hp. exact Hsome.
      * (* resolved now: no closure of this id stays live *)
        destruct (Hshare Hun) as [Hall _]. rewrite Forall_forall in Hall.
        assert (Hsp : onces p' !! o <> Some false).
        { rewrite Ho, list_lookup_insert_eq by exact Hvalid. discriminate. }
        assert (Hnil : live_for p' pid (remove_one k out ++ new) = []).
        { apply live_for_none. intros c Hc.
          apply elem_of_app in Hc as [Hc | Hc]; [| apply (Hdead Hsp c Hc)].
          destruct (is_live p' pid c) eqn:Hlc; [exfalso | reflexivity].
          assert (Hcl : c ∈ live_for p' pid (remove_one k out)).
          { unfold live_for. apply list_elem_of_In, List.filter_In.
            split; [apply list_elem_of_In, Hc | exact Hlc]. }
          specialize (Hall c (elem_of_sublist _ _ _ Hcl (Hrem pid))).
          unfold is_live, unspent in Hlc. rewrite Hall in Hlc.
          rewrite (bool_decide_eq_false_2 _ Hsp), andb_false_r in Hlc. discriminate. }
        unfold inv_at. rewrite Hnil. split; [congruence | right; cbn; lia].
    + apply (inv_at_sub p p' out); [apply Hinv | |].
      * rewrite live_for_app, (live_for_none p' pid' new), app_nil_r; [apply Hrem |].
        intros c Hc. unfold is_live. destruct (Hnew c Hc) as [_ Hpc].
        rewrite Hpc, bool_decide_eq_false_2 by congruence.
        rewrite andb_false_r. reflexivity.
      * intros _ Hsome.
        destruct Hres as [[-> _] | (_ & -> & _)]; [exact Hsome |].
        rewrite lookup_delete_ne by exact Hne. exact Hsome.
Qed.

(** *** Statements that complete *)

Section Sound.

Variable I : Policy -> Prop.
Variable R : Policy -> Policy -> Prop.
Hypothesis R_refl : forall p, R p p.
Hypothesis R_trans : forall p1 p2 p3, R p1 p2 -> R p2 p3 -> R p1 p3.

Lemma sound_ret {A : Type} (a : A) : sound I R (mret a).
Proof. intros p Hi. split; [exists a; reflexivity | split; [exact Hi | apply R_refl]]. Qed.

Lemma sound_this : sound I R this.
Proof. intros p Hi. split; [exists p; reflexivity | split; [exact Hi | apply R_refl]]. Qed.

Lemma sound_bind {A B : Type} (m : M A) (f : A -> M B) :
  sound I R m -> (forall a, sound I R (f a)) -> sound I R (m ≫= f).
Proof.
  intros Hm Hf p Hi. destruct (Hm p Hi) as ([a Ha] & Hi' & Hr).
  unfold mbind, M_bind, bind. destruct (m p) as [[a' | msg] p']; cbn in *; [| discriminate].
  destruct (Hf a' p' Hi') as (Hok & Hi'' & Hr').
  split; [exact Hok | split; [exact Hi'' | eapply R_trans; eassumption]].
Qed.

Lemma sound_when (b : bool) (m : M unit) : sound I R m -> sound I R (when b m).
Proof. intros Hm. destruct b; [exact Hm | apply (sound_ret tt)]. Qed.

Lemma sound_modify (g : Policy -> Policy) :
  (forall p, I p -> I (g p) /\ R p (g p)) -> sound I R (modify g).
Proof. intros Hg p Hi. split; [exists tt; reflexivity | apply Hg, Hi]. Qed.

End Sound.

Ltac sound_step refl trans :=
  match goal with
  | |- sound _ _ (mbind _ _) => apply (sound_bind _ _ trans); [| intros ?]
  | |- sound _ _ (mret _) => apply (sound_ret _ _ refl)
  | |- sound _ _ this => apply (sound_this _ _ refl)
  | |- sound _ _ (when _ _) => apply sound_when; [exact refl |]
  | |- sound _ _ (match ?x with _ => _ end) => destruct x
  | |- sound _ _ _ => progress cbv beta zeta
  end.

Lemma handed_out_app (l1 l2 : list effect) :
  handed_out (l1 ++ l2) = handed_out l1 ++ handed_out l2.
Proof. unfold handed_out. apply flat_map_app. Qed.

Lemma handed_out_ticks (pid : string) (c : completion) (ws : list waiter) :
  handed_out (map (fun w => NextTick pid w c) ws) = [].
Proof. induction ws as [| w ws IH]; [reflexivity | exact IH]. Qed.

Lemma hands_refl (P : closure -> Prop) (p : Policy) : hands P p p.
Proof. exists []. rewrite app_nil_r. split; [reflexivity | constructor]. Qed.

Lemma hands_trans (P : closure -> Prop) (p1 p2 p3 : Policy) :
  hands P p1 p2 -> hands P p2 p3 -> hands P p1 p3.
Proof.
  intros (n1 & H1 & F1) (n2 & H2 & F2). exists (n1 ++ n2).
  rewrite H2, H1, app_assoc, handed_out_app. split; [reflexivity |].
  apply Forall_app. split; assumption.
Qed.

Lemma hands_same (P : closure -> Prop) (p p' : Policy) :
  effects p' = effects p -> hands P p p'.
Proof. intros He. exists []. rewrite app_nil_r. split; [exact He | constructor]. Qed.

Lemma hands_new (P : closure -> Prop) (p p' : Policy) (new : list effect) :
  hands P p p' -> effects p' = effects p ++ new -> Forall P (handed_out new).
Proof.
  intros (n & Hn & Hf) He. rewrite Hn in He. apply app_inv_head in He. subst n. exact Hf.
Qed.

Lemma resolving_refl (o : nat) (pid : string) (p : Policy) : resolving o pid p p.
Proof. left. split; reflexivity. Qed.

Lemma resolving_trans (o : nat) (pid : string) (p1 p2 p3 : Policy) :
  resolving o pid p1 p2 -> resolving o pid p2 p3 -> resolving o pid p1 p3.
Proof.
  intros [[Hp1 Ho1] | (Hu1 & Hp1 & Ho1)] [[Hp2 Ho2] | (Hu2 & Hp2 & Ho2)].
  - left. split; congruence.
  - right. rewrite Ho1 in Hu2. rewrite Hp2, Ho2, Hp1, Ho1. auto.
  - right. rewrite Hp2, Ho2. auto.
  - exfalso. rewrite Ho1, list_lookup_insert_eq in Hu2; [discriminate |].
    eapply lookup_lt_Some. exact Hu1.
Qed.

Lemma guarded_step_refl (o : nat) (pid : string) (p : Policy) : guarded_step o pid p p.
Proof. split; [apply resolving_refl | apply hands_refl]. Qed.

Lemma guarded_step_trans (o : nat) (pid : string) (p1 p2 p3 : Policy) :
  guarded_step o pid p1 p2 -> guarded_step o pid p2 p3 -> guarded_step o pid p1 p3.
Proof.
  intros [H1 H2] [H3 H4].
  split; [eapply resolving_trans | eapply hands_trans]; eassumption.
Qed.

Lemma idle_step_refl (p : Policy) : idle_step p p.
Proof. split; [split; reflexivity | apply hands_refl]. Qed.

Lemma idle_step_trans (p1 p2 p3 : Policy) :
  idle_step p1 p2 -> idle_step p2 p3 -> idle_step p1 p3.
Proof.
  intros [[H1 H2] H3] [[H4 H5] H6].
  split; [split; congruence | eapply hands_trans; eassumption].
Qed.

(** *** Closures that resolve through a once-wrapper *)

Lemma respond_once_other (once : nat) (id : ident) (err : option error) (value : jsval)
    (cached : option nat) (report : Report) (p : Policy) :
  onces p !! once <> Some false ->
  respond_once once id err value cached report p = (Ok tt, p).
Proof.
  intros Hflag. unfold respond_once.
  cbv [mbind M_bind bind this modify mret M_ret ret].
  destruct (onces p !! once) as [[|] |]; [reflexivity | contradiction | reflexivity].
Qed.

Section Guarded.

Variable o : nat.
Variable id : ident.

Lemma guarded_respond_once (err : option error) (value : jsval) (cached : option nat)
    (report : Report) :
  sound (entry_if_unspent o (pendingsId id)) (guarded_step o (pendingsId id))
        (respond_once o id err value cached report).
Proof.
  intros p Hi. destruct (decide (onces p !! o = Some false)) as [Hun | Hsp].
  - destruct (Hi Hun) as [ws Hws].
    rewrite respond_once_first by exact Hun.
    rewrite (respond_resolves _ _ _ _ _ _ ws) by exact Hws. cbv zeta.
    assert (Hvalid : (o < List.length (onces p))%nat) by (eapply lookup_lt_Some; exact Hun).
    split; [exists tt; reflexivity |].
    destruct (bool_decide (r_isStale report ≠ None));
      cbn [snd]; (split; [| split]).
    + intros Hf. cbn in Hf. rewrite list_lookup_insert_eq in Hf by exact Hvalid. discriminate.
    + right. cbn. auto.
    + eexists. split; [reflexivity |]. rewrite handed_out_ticks. constructor.
    + intros Hf. cbn in Hf. rewrite list_lookup_insert_eq in Hf by exact Hvalid. discriminate.
    + right. cbn. auto.
    + eexists. split; [reflexivity |]. rewrite handed_out_ticks. constructor.
  - rewrite respond_once_other by exact Hsp.
    split; [exists tt; reflexivity | split; [exact Hi | apply guarded_step_refl]].
Qed.

Lemma guarded_modify (g : Policy -> Policy) :
  (forall p, _pendings (g p) = _pendings p /\ onces (g p) = onces p
             /\ effects (g p) = effects p) ->
  sound (entry_if_unspent o (pendingsId id)) (guarded_step o (pendingsId id))
        (modify g).
Proof.
  intros Hg. apply sound_modify. intros p Hi. destruct (Hg p) as (Hp & Ho & He). split.
  - unfold entry_if_unspent. rewrite Hp, Ho. exact Hi.
  - split; [left; auto | apply hands_same, He].
Qed.

Lemma guarded_emit (e : effect) :
  Forall (fun c => guard_of c = Some o /\ closure_pid c = Some (pendingsId id))
         (handed_out [e]) ->
  sound (entry_if_unspent o (pendingsId id)) (guarded_step o (pendingsId id))
        (emit e).
Proof.
  intros He. apply sound_modify. intros p Hi. split; [exact Hi |].
  split; [left; auto |]. exists [e]. split; [reflexivity | exact He].
Qed.

End Guarded.

Ltac guarded_base :=
  match goal with
  | |- sound _ _ (respond_once _ _ _ _ _ _) => apply guarded_respond_once
  | |- sound _ _ (emit _) => apply guarded_emit; cbn; repeat constructor
  | |- sound _ _ (modify _) => apply guarded_modify; intros ?; repeat split
  end.

Ltac guarded_all o id :=
  repeat first [ guarded_base
               | sound_step (guarded_step_refl o (pendingsId id))
                            (guarded_step_trans o (pendingsId id)) ].

Lemma guarded_fire (localDate : Z -> Z -> Z -> Z) (k : closure) (a : args) (o : nat)
    (id : ident) :
  guard_of k = Some o -> closure_pid k = Some (pendingsId id) ->
  match k with
  | OnStaleTimeout _ id' _ _ | OnGenerateTimeout _ id' _ | OnGenerated _ id' _ _ _
  | OnThrow _ id' _ | OnBackendDone (CbFinalize _ id' _ _ _ _) => id' = id
  | _ => True
  end ->
  sound (entry_if_unspent o (pendingsId id)) (guarded_step o (pendingsId id))
        (fire localDate k a).
Proof.
  intros Hg Hp Hid.
  destruct k as [id' key | once id' c report | once id' report | pid'
                | once id' key cached report | once id' report
                | [| f | once id' generateError value cached report]];
    cbn in Hg; try discriminate; injection Hg as ->; subst id';
    cbn [fire];
    unfold on_generated, on_throw, on_backend_done, set, drop, count;
    cbn [call key_id];
    unfold finalize, count;
    guarded_all o id.
Qed.

(** *** Events that call no waiter back *)

Lemma idle_modify (g : Policy -> Policy) :
  (forall p, _pendings (g p) = _pendings p /\ onces (g p) = onces p
             /\ effects (g p) = effects p) ->
  sound (fun _ => True) idle_step (modify g).
Proof.
  intros Hg. apply sound_modify. intros p _. destruct (Hg p) as (Hp & Ho & He).
  split; [exact I |]. split; [auto | apply hands_same, He].
Qed.

Lemma idle_emit (e : effect) :
  Forall (fun c => is_resolver c = false) (handed_out [e]) ->
  sound (fun _ => True) idle_step (emit e).
Proof.
  intros He. apply sound_modify. intros p _. split; [exact I |].
  split; [auto |]. exists [e]. split; [reflexivity | exact He].
Qed.

Ltac idle_all :=
  repeat first [ apply idle_emit; cbn; repeat constructor
               | apply idle_modify; intros ?; repeat split
               | sound_step idle_step_refl idle_step_trans ].

Lemma idle_event (localDate : Z -> Z -> Z -> Z) (e : event) :
  is_idle e = true -> sound (fun _ => True) idle_step (step localDate e).
Proof.
  intros He.
  destruct e as [k cb domain | k v t [cb |] clock | k [cb |] | o | k a];
    try discriminate; cbn [step user_callback].
  - unfold set, count. cbn [call]. idle_all.
  - unfold set, count. cbn [call]. idle_all.
  - unfold drop. cbn [call]. idle_all.
  - unfold drop. cbn [call]. idle_all.
  - destruct k as [| | | pid | | | [| f |]]; try discriminate; cbn [fire];
      unfold on_backend_done, count; cbn [call]; idle_all.
Qed.

Lemma idle_rules (o : option options) (p : Policy) : idle_step p (exec (rules o) p).
Proof.
  unfold exec, rules. cbv [mbind M_bind bind this modify throw].
  destruct (compile o (_cache p)); cbn; apply idle_step_refl || (split; [auto | apply hands_same; reflexivity]).
Qed.

(** *** The reply to a lookup *)

Ltac spawned_ok :=
  repeat (apply List.Forall_cons;
          [first [left; reflexivity | right; split; reflexivity] |]);
  apply List.Forall_nil.

Lemma generate_outcome (id : ident) (k : key) (cached : option nat) (report : Report)
    (p : Policy) (f : nat) :
  generateFunc (rule p) = Some f ->
  let r := _generate id k cached report p in
  r.1 = Ok tt
  /\ _pendings r.2 = _pendings p
  /\ onces r.2 = onces p ++ [false]
  /\ exists new, effects r.2 = effects p ++ new
       /\ Forall (fun c => is_resolver c = false
                           \/ (guard_of c = Some (List.length (onces p))
                               /\ closure_pid c = Some (pendingsId id)))
                 (handed_out new).
Proof.
  intros Hgen. destruct p as [ca r pend pgc st hp on ef]. cbn in Hgen.
  unfold _generate, new_once, _callGenerateFunc, emit.
  cbv [mbind M_bind bind this modify count when mret M_ret ret]. cbn.
  destruct cached as [c |].
  - destruct (hp !! c) as [o |] eqn:Ho; cbn; rewrite ?Ho; cbn;
      repeat (match goal with
              | |- context [if ?b then _ else _] => destruct b; cbn
              end);
      rewrite ?Hgen; cbn;
      (split; [reflexivity | split; [reflexivity | split; [reflexivity |]]]);
      eexists; (split; [rewrite <- ?app_assoc; try reflexivity;
                        symmetry; apply app_nil_r |]); cbn; spawned_ok.
  - destruct (generateTimeout r) as [[ms |] |]; cbn;
      repeat (match goal with
              | |- context [if ?b then _ else _] => destruct b; cbn
              end);
      rewrite ?Hgen; cbn;
      (split; [reflexivity | split; [reflexivity | split; [reflexivity |]]]);
      eexists; (split; [rewrite <- ?app_assoc; try reflexivity;
                        symmetry; apply app_nil_r |]); cbn; spawned_ok.
Qed.

Lemma on_get_outcome (id : ident) (k : key) (err : option error) (cached : option entry)
    (msec now userStaleIn : Z) (p : Policy) (ws : list waiter) :
  _pendings p !! pendingsId id = Some ws ->
  let r := on_get id k err cached msec now userStaleIn p in
  r.1 = Ok tt
  /\ ((_pendings r.2 = delete (pendingsId id) (_pendings p)
       /\ onces r.2 = onces p
       /\ exists new, effects r.2 = effects p ++ new /\ handed_out new = [])
      \/ (_pendings r.2 = _pendings p
          /\ onces r.2 = onces p ++ [false]
          /\ exists new, effects r.2 = effects p ++ new
               /\ Forall (fun c => is_resolver c = false
                                   \/ (guard_of c = Some (List.length (onces p))
                                       /\ closure_pid c = Some (pendingsId id)))
                         (handed_out new))).
Proof.
  intros Hws. destruct p as [ca r pend pgc st hp on ef]. cbn in Hws.
  cbn [_pendings onces effects].
  unfold on_get.
  cbv [mbind M_bind bind this modify count when mret M_ret ret].
  destruct (generateFunc r) as [f |] eqn:Hgen;
    destruct cached as [e |]; destruct err as [msg |]; cbn; rewrite ?Hgen; cbn;
    repeat (match goal with
            | |- context [if ?b then _ else _] => destruct b; cbn
            end);
    match goal with
    | |- context [respond] =>
        erewrite respond_resolves by (cbn; exact Hws); cbv zeta;
        split; [reflexivity | left];
        repeat (match goal with
                | |- context [if ?b then _ else _] => destruct b
                end);
        cbn; (split; [reflexivity | split; [reflexivity |]]);
        eexists; (split; [reflexivity | apply handed_out_ticks])
    | |- context [_generate id k ?c ?rep ?q] =>
        destruct (generate_outcome id k c rep q f Hgen) as (Hok & Hp & Ho & Hnew);
        split; [exact Hok | right];
        split; [exact Hp | split; [exact Ho | exact Hnew]]
    end.
Qed.

(** *** Every event of an orderly run keeps the invariant and completes *)

Lemma skipn_new (l new : list effect) : List.skipn (List.length l) (l ++ new) = new.
Proof. induction l as [| x l IH]; [reflexivity | exact IH]. Qed.

Lemma hands_skipn (P : closure -> Prop) (p p' : Policy) :
  hands P p p' ->
  Forall P (handed_out (List.skipn (List.length (effects p)) (effects p'))).
Proof. intros (new & -> & Hf). rewrite skipn_new. exact Hf. Qed.

Lemma ok_unit (r : result unit) : (exists a, r = Ok a) -> r = Ok tt.
Proof. intros [[] H]. exact H. Qed.

Lemma step_inv (localDate : Z -> Z -> Z -> Z) (e : event) (p : Policy)
    (out : list closure) :
  inv p out ->
  match e with Fire k _ => k ∈ out | _ => True end ->
  let p' := exec (step localDate e) p in
  let new := handed_out (List.skipn (List.length (effects p)) (effects p')) in
  inv p' (match e with Fire k _ => remove_one k out | _ => out end ++ new)
  /\ ((forall o, e <> CallRules o) -> (step localDate e p).1 = Ok tt).
Proof.
  intros Hinv Hin p' new.
  assert (Hidle : is_idle e = true ->
            inv p' (match e with Fire k _ => remove_one k out | _ => out end ++ new)
            /\ ((forall o, e <> CallRules o) -> (step localDate e p).1 = Ok tt)).
  { intros He. destruct (idle_event localDate e He p I) as (Hok & _ & [Hp Ho] & Hh).
    split; [| intros _; apply ok_unit, Hok].
    apply (inv_idle p p' out); [exact Hinv | | exact Hp | exact Ho | exact (hands_skipn _ p p' Hh)].
    destruct e; try reflexivity. apply remove_one_sublist. }
  destruct e as [k cb domain | k v t cb clock | k cb | o | k a].
  - (* get *)
    subst new p'. unfold exec. cbn [step].
    destruct (_pendings p !! pendingsId (key_id k)) as [ws |] eqn:Hws.
    + rewrite (get_coalesced _ _ _ _ ws Hws). cbn [fst snd]. split; [| reflexivity].
      cbn [effects with_pendings with_stats].
      rewrite <- (app_nil_r (effects p)) at 2. rewrite skipn_new. cbn [handed_out flat_map].
      eapply inv_attach; [exact Hinv | reflexivity | reflexivity].
    + rewrite (get_first _ _ _ _ Hws). cbn [fst snd]. split; [| reflexivity].
      cbn [effects with_effects with_pendings with_stats]. rewrite skipn_new.
      replace (handed_out _) with [OnGet (key_id k) k] by (destruct (_cache p); reflexivity).
      eapply inv_start; [exact Hinv | exact Hws | reflexivity | reflexivity].
  - apply Hidle. reflexivity.
  - apply Hidle. reflexivity.
  - (* rules *)
    split; [| intros Hno; exfalso; exact (Hno o eq_refl)].
    destruct (idle_rules o p) as [[Hp Ho] Hh].
    apply (inv_idle p p' out); [exact Hinv | reflexivity | exact Hp | exact Ho |].
    exact (hands_skipn _ p p' Hh).
  - destruct (is_resolver k) eqn:Hres; [| apply Hidle; cbn; rewrite Hres; reflexivity].
    destruct (guard_of k) as [o |] eqn:Hg.
    + (* a closure with a once-wrapper *)
      assert (Hid : exists id, closure_pid k = Some (pendingsId id)
                /\ match k with
                   | OnStaleTimeout _ id' _ _ | OnGenerateTimeout _ id' _
                   | OnGenerated _ id' _ _ _ | OnThrow _ id' _
                   | OnBackendDone (CbFinalize _ id' _ _ _ _) => id' = id
                   | _ => True
                   end).
      { destruct k as [| ? id | ? id | | ? id | ? id | [| | ? id]]; try discriminate;
          exists id; split; reflexivity. }
      destruct Hid as (id & Hpid & Hsame).
      assert (Hentry : entry_if_unspent o (pendingsId id) p).
      { intros Hun. destruct Hinv as [_ Hat].
        apply (live_share p out (pendingsId id) k o (Hat _) Hin); [| exact Hg].
        unfold is_live, unspent. rewrite Hres, Hpid, Hg.
        rewrite !bool_decide_eq_true_2 by auto. reflexivity. }
      destruct (guarded_fire localDate k a o id Hg Hpid Hsame p Hentry)
        as (Hok & _ & Hr & Hh).
      split; [| intros _; apply ok_unit, Hok].
      apply (inv_guarded p p' out new k o (pendingsId id)); try assumption.
      exact (hands_skipn _ p p' Hh).
    + (* the reply to a lookup *)
      destruct k as [id key | | | | | | [| |]]; try discriminate.
      assert (Hlive : is_live p (pendingsId id) (OnGet id key) = true).
      { unfold is_live. cbn. rewrite bool_decide_eq_true_2 by reflexivity. reflexivity. }
      destruct Hinv as [Hgv Hat].
      destruct (live_alone p out (pendingsId id) (OnGet id key) (Hat _) Hin Hlive eq_refl)
        as [_ [ws Hws]].
      destruct (on_get_outcome id key (a_err a) (a_cached a) (a_msec a) (a_now a)
                  (a_staleIn a) p ws Hws) as (Hok & Hcase).
      split; [| intros _; exact Hok].
      subst new p'. unfold exec. cbn [step fire].
      destruct Hcase as [(Hp & Ho & n & He & Hn) | (Hp & Ho & n & He & Hn)];
        rewrite He, skipn_new.
      * rewrite Hn. apply (inv_direct p); [split | | |]; assumption.
      * apply (inv_spawn p); [split | | | |]; assumption.
Qed.

Lemma inv_nothing_out (p : Policy) : inv p [].
Proof.
  split; [constructor |]. intros pid. split; [intros H; contradiction | right; cbn; lia].
Qed.

Lemma orderly_steps (localDate : Z -> Z -> Z -> Z) (trace : list event) :
  forall (p : Policy) (out : list closure),
  inv p out -> orderly localDate trace p out = true ->
  forall prefix e rest, trace = prefix ++ e :: rest ->
  (forall o, e <> CallRules o) ->
  (step localDate e (run localDate prefix p)).1 = Ok tt.
Proof.
  induction trace as [| e0 trace IH]; intros p out Hinv Hord prefix e rest Heq Hno.
  - destruct prefix; discriminate.
  - assert (Hin : match e0 with Fire k _ => k ∈ out | _ => True end).
    { destruct e0; try exact I. cbn in Hord.
      apply andb_prop in Hord as [Hk _]. apply bool_decide_eq_true_1 in Hk. exact Hk. }
    destruct (step_inv localDate e0 p out Hinv Hin) as [Hinv' Hok].
    destruct prefix as [| e1 prefix]; cbn in Heq; injection Heq as <- Heq.
    + apply Hok, Hno.
    + rewrite run_cons. eapply IH; [exact Hinv' | | exact Heq | exact Hno].
      destruct e0; cbn in Hord; try exact Hord.
      apply andb_prop in Hord as [_ Hord]. exact Hord.
Qed.

(** X21.  An orderly run never throws.  Start from a policy with no
    closure outstanding, and let the backend, the timers and the producer
    invoke only closures that the policy handed to them, each at most once,
    in any order and interleaved with any calls of [get], [set], [drop] and
    [rules].  Then every call other than [rules] (whose options may be
    refused) and every closure completes: [respond] always finds the waiter
    list of its id, so the TypeError of reading [pendings.length] of a
    missing entry cannot occur. *)
Theorem orderly_run_never_throws (localDate : Z -> Z -> Z -> Z) (trace : list event)
    (p : Policy) :
  orderly localDate trace p [] = true ->
  forall prefix e rest, trace = prefix ++ e :: rest ->
  (forall o, e <> CallRules o) ->
  (step localDate e (run localDate prefix p)).1 = Ok tt.
Proof. apply orderly_steps, inv_nothing_out. Qed.

End Host.

(** * The policy on a host

    The statements above hold for every host.  The runs below take the
    host [plain]: a string of decimal digits converts to its number, and
    ["true"] and ["false"] are the strings taken for booleans.  Only
    [stringOptions] passes strings where numbers or booleans are expected;
    the other runs come out the same on any host. *)

Lemma compile_expiresAt_witness :
  prop {[ "expiresAt" := JStr "13:00" ]} "expiresIn" = JUndefined
  /\ exists s hs ms,
       prop {[ "expiresAt" := JStr "13:00" ]} "expiresAt" = JStr s
       /\ exec_time s = Some (hs, ms)
       /\ s = hs +:+ ":" +:+ ms
       /\ (String.length hs = 1 \/ String.length hs = 2)%nat
       /\ String.length ms = 2%nat
       /\ expiresAt (ruleAt 13 0) = Some (parseInt hs, parseInt ms)
       /\ 0 <= parseInt hs <= 99
       /\ 0 <= parseInt ms <= 99.
Proof.
  apply (compile_expiresAt plain {[ "expiresAt" := JStr "13:00" ]} true (ruleAt 13 0));
    vm_compute; reflexivity.
Defined.

(** C8 as stated fails: ["99:99"] compiles, with hours and minutes outside
    the daily clock. *)
Lemma compile_accepts_99_99 :
  present {[ "expiresAt" := JStr "99:99" ]} "expiresAt" = true
  /\ compile plain (Some {[ "expiresAt" := JStr "99:99" ]}) false = Ok (ruleAt 99 99)
  /\ expiresAt (ruleAt 99 99) = Some (99, 99)
  /\ ~ (0 <= 99 <= 23).
Proof. repeat split; try (vm_compute; reflexivity). lia. Qed.

(** Scenario 1 of the specification with three callers: one backend [get],
    three waiters in order. *)
Lemma get_single_flight_witness :
  let p := freshPolicy (ruleIn 1000) true in
  let p' := run plain utcDate [CallGet (KId (IdStr "k")) 1 None;
                        CallGet (KId (IdStr "k")) 2 (Some 4%nat);
                        CallGet (KObj (IdStr "k") 0) 3 None] p in
  effects p' = [BackendGet (IdStr "k") (OnGet (IdStr "k") (KId (IdStr "k")))]
  /\ _pendings p' !! "+k"
     = Some [{| w_callback := 1; w_domain := None |};
             {| w_callback := 2; w_domain := Some 4%nat |};
             {| w_callback := 3; w_domain := None |}]
  /\ gets (stats p') = 3%nat.
Proof.
  intros p p'.
  destruct (get_single_flight plain utcDate p (KId (IdStr "k")) 1 None) as (_ & H & _).
  apply (H [(KId (IdStr "k"), 2%nat, Some 4%nat); (KObj (IdStr "k") 0, 3%nat, None)]).
  - vm_compute. reflexivity.
  - repeat constructor.
Defined.

Example demoOptions_compile :
  newPolicy plain (Some demoOptions) true = Ok (freshPolicy demoRule true).
Proof. vm_compute. reflexivity. Qed.

Lemma delivery_at_most_once_fifo_witness :
  let p := run plain utcDate (take 2 stuckTrace) (freshPolicy demoRule true) in
  let w := {| w_callback := 1; w_domain := None |} in
  let p' := exec (respond_once 0 (IdStr "k") None (JStr "old") (Some 0%nat)
                               (staleReport 3 1000)) p in
  effects p' = effects p ++
               map (fun w => NextTick (pendingsId (IdStr "k")) w
                               {| d_err := None; d_value := JStr "old";
                                  d_cached := Some 0%nat;
                                  d_report := staleReport 3 1000 |}) [w]
  /\ _pendings p' !! pendingsId (IdStr "k") = None
  /\ onces p' !! 0%nat = Some true.
Proof.
  intros p w.
  destruct (delivery_at_most_once_fifo plain utcDate p) as (_ & H & _).
  apply (H 0%nat (IdStr "k") None (JStr "old") (Some 0%nat) (staleReport 3 1000) [w]).
  - vm_compute. reflexivity.
  - vm_compute. reflexivity.
Defined.

(** C2 fails on the code.  In [stuckTrace] the second [get] finds the entry
    stale with 400 ms to live, less than [staleTimeout], while the id is
    marked pending: [_generate] arms no timer and does not call the
    producer, so the backend's reply starts nothing and the once-wrapper
    made for this [get] is held by no closure.  At the end of the run every
    closure the policy handed out has run, callback 1 was called once, and
    callback 2 was never called and still waits.  Later [get]s of the id
    find the entry, queue behind callback 2 and start no lookup. *)
Lemma waiter_never_called :
  let p0 := freshPolicy demoRule true in
  let p := run plain utcDate stuckTrace p0 in
  let later := run plain utcDate [CallGet (KId (IdStr "k")) 3 None;
                                  CallGet (KId (IdStr "k")) 4 None] p in
  attached_for "+k" stuckTrace = [1; 2]%nat
  /\ effects (run plain utcDate (take 5 stuckTrace) p0)
     = effects (run plain utcDate (take 4 stuckTrace) p0)
  /\ onces (run plain utcDate (take 5 stuckTrace) p0) = [true; false]
  /\ w_callback <$> delivered_for "+k" (effects p) = [1%nat]
  /\ waiting_for "+k" p = [{| w_callback := 2; w_domain := None |}]
  /\ scheduled (effects p) ≡ₚ fired stuckTrace
  /\ onces p = [true; false]
  /\ w_callback <$> waiting_for "+k" later = [2; 3; 4]%nat
  /\ effects later = effects p.
Proof.
  intros p0 p later.
  repeat match goal with |- _ /\ _ => split end; try (vm_compute; reflexivity).
  apply (bool_decide_unpack _). vm_compute. exact I.
Qed.


Lemma drop_dispatch_witness :
  step plain utcDate (CallDrop (KId IdNull) (Some 9%nat)) (freshPolicy demoRule true)
  = (Ok tt, with_effects (fun l => l ++ [CallUser 9 (Some "Invalid key"%string)])
              (freshPolicy demoRule true))
  /\ step plain utcDate (CallDrop (KObj (IdStr "k") 0) (Some 9%nat)) (freshPolicy demoRule true)
     = (Ok tt, with_effects
                 (fun l => l ++ [BackendDrop (IdStr "k") (OnBackendDone (CbUser 9))])
                 (freshPolicy demoRule true)).
Proof.
  destruct (drop_dispatch plain utcDate (freshPolicy demoRule true) (KId IdNull) 9)
    as (Hinvalid & _).
  destruct (drop_dispatch plain utcDate (freshPolicy demoRule true) (KObj (IdStr "k") 0) 9)
    as (_ & Hpass & _).
  split; [apply Hinvalid | apply Hpass]; reflexivity.
Defined.

(** C9 as stated fails for a policy built without a backend: [drop(null, cb)]
    calls [cb] with no error. *)
Lemma drop_null_without_backend :
  id_truthy (key_id (KId IdNull)) = false
  /\ effects (exec (step plain utcDate (CallDrop (KId IdNull) (Some 9%nat)))
                   (freshPolicy (ruleIn 1000) false))
     = [CallUser 9 None].
Proof. split; reflexivity. Qed.

Lemma stale_fallback_scheduling_witness :
  let fresh := freshPolicy demoRule true in
  let obj := {| c_item := JStr "old"; c_stored := 101000; c_ttl := Num 1000;
                c_isStale := Some true |} in
  let p := with_stats (bump Stales 1)
             (with_heap (fun h => h ++ [obj]) (run plain utcDate (take 1 stuckTrace) fresh)) in
  let report := staleReport 3 1000 in
  let timer := SetTimeout (OnStaleTimeout 0 (IdStr "k") 0 report) (Some 500) in
  let p' := exec (_generate (IdStr "k") (KId (IdStr "k")) (Some 0%nat) report) p in
  p' = run plain utcDate (take 2 stuckTrace) fresh
  /\ effects p' = effects p ++ timer :: producer_effects p 0 (IdStr "k") (KId (IdStr "k"))
                                         (Some 0%nat) report 7
  /\ onces p' !! 0%nat = Some false
  /\ exec (fire utcDate (OnStaleTimeout 0 (IdStr "k") 0 report) noArgs) p'
     = run plain utcDate (take 3 stuckTrace) fresh
  /\ effects (run plain utcDate (take 3 stuckTrace) fresh)
     = effects p' ++
       [NextTick "+k" {| w_callback := 1; w_domain := None |}
          {| d_err := None; d_value := JStr "old"; d_cached := Some 0%nat;
             d_report := report |}]
  /\ _pendings (run plain utcDate (take 3 stuckTrace) fresh) !! "+k" = None.
Proof.
  intros fresh obj p report timer p'.
  destruct (stale_fallback_scheduling plain utcDate p (IdStr "k") (KId (IdStr "k")) 0
              report obj 7 1000 500)
    as (Heff & _ & _ & _ & _ & Hunused & _ & Hnext & _);
    [vm_compute; reflexivity | reflexivity | reflexivity | reflexivity |].
  destruct (Hnext [{| w_callback := 1; w_domain := None |}] noArgs) as (Hserved & Hgone & _);
    [vm_compute; reflexivity |].
  assert (H2 : p' = run plain utcDate (take 2 stuckTrace) fresh) by (vm_compute; reflexivity).
  assert (H3 : exec (fire utcDate (OnStaleTimeout 0 (IdStr "k") 0 report) noArgs) p'
               = run plain utcDate (take 3 stuckTrace) fresh) by (vm_compute; reflexivity).
  assert (Hlen : List.length (onces p) = 0%nat) by (vm_compute; reflexivity).
  cbv zeta in Hserved, Hgone. rewrite Hlen in Hserved, Hgone, Hunused.
  fold p' in Hserved, Hgone, Hunused. rewrite H3 in Hserved, Hgone.
  split; [exact H2 | split; [exact Heff | split; [exact Hunused | split; [exact H3 |]]]].
  split; [exact Hserved | exact Hgone].
Defined.

Lemma stale_ttl_overwritten_witness :
  let p := run plain utcDate (take 1 stuckTrace) (freshPolicy demoRule true) in
  let e := {| e_item := JStr "old"; e_stored := 101000; e_ttl := 1000 |} in
  let report := {| r_msec := 3; r_error := None; r_stored := Some (e_stored e);
                   r_ttl := Some (Num (e_ttl e)); r_isStale := Some true |} in
  let shared := {| c_item := JStr "old"; c_stored := 101000;
                   c_ttl := Num (1000 - 500); c_isStale := Some true |} in
  let p1 := exec (on_get (IdStr "k") (KId (IdStr "k")) None (Some e) 3 200000 0) p in
  heap p1 !! 0%nat = Some shared
  /\ effects (exec (fire utcDate (OnStaleTimeout 0 (IdStr "k") 0 report) noArgs) p1)
     = effects p1 ++
       map (fun w => NextTick (pendingsId (IdStr "k")) w
                       {| d_err := None; d_value := JStr "old";
                          d_cached := Some 0%nat; d_report := report |})
           [{| w_callback := 1; w_domain := None |}].
Proof.
  intros p e report shared p1.
  destruct (stale_ttl_overwritten plain utcDate p (IdStr "k") (KId (IdStr "k")) None e
              3 200000 0 500 7) as (Hcell & _ & Hlater);
    [reflexivity | reflexivity | reflexivity | left; reflexivity |].
  split; [exact Hcell |].
  destruct (Hlater []) as (_ & Htimer & _).
  apply (Htimer [{| w_callback := 1; w_domain := None |}] noArgs);
    vm_compute; reflexivity.
Defined.

Lemma producer_disposition_witness :
  let p := run plain utcDate (take 2 stuckTrace) (freshPolicy demoRule true) in
  let report := staleReport 3 1000 in
  on_generated utcDate 0 (IdStr "k") (KId (IdStr "k")) (Some 0%nat) report
               (Some "boom"%string) JNull None 205000 p
  = finalize 0 (IdStr "k") (Some "boom"%string) JNull (Some 0%nat) report None
             (with_pendingGenerateCall (delete (pendingsId (IdStr "k"))) p)
  /\ effects (exec (finalize 0 (IdStr "k") (Some "boom"%string) JNull (Some 0%nat)
                             report None) p)
     = effects p ++
       map (fun w => NextTick (pendingsId (IdStr "k")) w
                       {| d_err := Some "boom"%string; d_value := JStr "old";
                          d_cached := Some 0%nat; d_report := report |})
           [{| w_callback := 1; w_domain := None |}].
Proof.
  intros p report.
  pose proof (producer_disposition utcDate p 0 (IdStr "k") (KId (IdStr "k")) (Some 0%nat)
                report (Some "boom"%string) JNull None 205000) as H.
  cbv zeta in H. destruct H as (_ & _ & Hdirect & _ & _ & _ & Hfin).
  split.
  - apply Hdirect.
    + intros [[_ Hd] | Ht]; discriminate.
    + discriminate.
  - apply (Hfin None [{| w_callback := 1; w_domain := None |}]); vm_compute; reflexivity.
Defined.

Lemma compile_unknown_key_witness :
  compile plain (Some (<["ttl" := JNum 5]> {[ "expiresIn" := JNum 1000 ]})) true
  = Throws "Invalid cache policy configuration".
Proof.
  apply (compile_unknown_key plain _ true "ttl" (JNum 5)); vm_compute; reflexivity.
Defined.


(** Strings given for [staleTimeout], [pendingGenerateTimeout] and
    [dropOnError] pass the validation and are read by [compile] as they
    are: the rule's [pendingGenerateTimeout], 60, is below its
    [staleTimeout], 500, and ["false"] switches [dropOnError] on. *)
Example stringOptions_compile :
  compile plain (Some stringOptions) true = Ok stringRule.
Proof. vm_compute. reflexivity. Qed.

Lemma compile_producer_fields_witness :
  generateOnReadError bareRule = Some true
  /\ generateIgnoreWriteError bareRule = Some true
  /\ generateTimeout bareRule = Some None
  /\ dropOnError bareRule = Some true
  /\ pendingGenerateTimeout bareRule = Some 0.
Proof.
  destruct (compile_producer_fields plain bareOptions true bareRule)
    as (Hread & Hwrite & _ & Hwith);
    [vm_compute; reflexivity | vm_compute; discriminate |].
  destruct (Hwith 7%nat eq_refl) as (_ & Ht & Hdrop & Hp).
  split; [exact Hread | split; [exact Hwrite | split; [| split; [exact Hdrop |]]]].
  - destruct Ht as [[_ Ht] | (ms & _ & Hge & Hms)]; [exact Ht |].
    vm_compute in Hms. injection Hms as <-. lia.
  - destruct Hp as [[_ Hp] | (pg & _ & Hge & Hpg)]; [exact Hp |].
    vm_compute in Hpg. discriminate.
Defined.

Lemma compile_stale_constraints_witness :
  exists st, staleTimeout stringRule = Some st
             /\ 1 <= st < 100000 - 20000
             /\ String.ltb "500" "60" = true.
Proof.
  destruct (compile_stale_constraints plain stringOptions true stringRule (StaleMs 20000))
    as (_ & _ & st & Hst & Hmin & _ & _ & Htext & Hms);
    [vm_compute; reflexivity | reflexivity |].
  destruct (Hms 20000 eq_refl) as (_ & Hin).
  destruct (Hin 100000 eq_refl) as (_ & Hdelta); [lia |].
  exists st. split; [exact Hst | split; [lia |]].
  apply (Htext "500"%string "60"%string); reflexivity.
Defined.

Lemma no_backend_calls_witness :
  let p' := run plain utcDate localTrace (freshPolicy localRule false) in
  _cache p' = false
  /\ List.filter is_backend_call (effects p')
     = List.filter is_backend_call (effects (freshPolicy localRule false)).
Proof. apply (no_backend_calls plain utcDate localTrace (freshPolicy localRule false)). reflexivity. Defined.

Lemma once_spent_forever_witness :
  let p := run plain utcDate (take 3 stuckTrace) (freshPolicy demoRule true) in
  let k := OnGenerated 0 (IdStr "k") (KId (IdStr "k")) (Some 0%nat) (staleReport 3 1000) in
  let p1 := run plain utcDate (take 2 (List.skipn 3 stuckTrace)) p in
  let p' := exec (fire utcDate k (producerReply (JStr "new") 205000)) p1 in
  onces p1 !! 0%nat = Some true
  /\ _pendings p' = _pendings p1
  /\ List.filter is_delivery (effects p') = List.filter is_delivery (effects p1)
  /\ hits (stats p') = hits (stats p1).
Proof.
  intros p k.
  apply (once_spent_forever plain utcDate (take 2 (List.skipn 3 stuckTrace)) p 0%nat k
           (producerReply (JStr "new") 205000)).
  - reflexivity.
  - vm_compute. reflexivity.
Defined.

Lemma other_ids_do_not_interfere_witness :
  let p := exec (get (KId (IdStr "j")) 9 None) (freshPolicy demoRule true) in
  let p' := run plain utcDate stuckTrace p in
  _pendings p' !! "+j" = _pendings p !! "+j"
  /\ _pendingGenerateCall p' !! "+j" = _pendingGenerateCall p !! "+j"
  /\ delivered_for "+j" (effects p') = delivered_for "+j" (effects p).
Proof.
  intros p.
  apply (other_ids_do_not_interfere plain utcDate "+j" stuckTrace p).
  repeat constructor; vm_compute; discriminate.
Defined.


Lemma set_stores_witness :
  let p := freshPolicy demoRule true in
  let p' := exec (step plain utcDate (CallSet (KId (IdStr "k")) (JStr "v") None (Some 1%nat) 1000)) p in
  effects p' = effects p ++
    [BackendSet (IdStr "k") (JStr "v")
       (num_or None (ttl utcDate (rule p) None None 1000))
       (OnBackendDone (user_callback (Some 1%nat)))]
  /\ num_or None (ttl utcDate (rule p) None None 1000) = 100000.
Proof.
  intros p.
  destruct (set_stores plain utcDate p (KId (IdStr "k")) (JStr "v") None (Some 1%nat) 1000)
    as (_ & Hb & _ & _ & He & _).
  split.
  - apply Hb. reflexivity.
  - apply (He 100000); [left; reflexivity | reflexivity | lia].
Defined.

Lemma miss_round_trip_witness :
  let p := exec (get (KId (IdStr "k")) 1 None) (freshPolicy timedRule true) in
  let a1 := noArgs in
  let a2 := producerReply (JStr "new") 1000 in
  let p' := run plain utcDate
              [ Fire (OnGet (IdStr "k") (KId (IdStr "k"))) a1;
                Fire (OnGenerated 0 (IdStr "k") (KId (IdStr "k")) None (missReport 0 None)) a2;
                Fire (OnBackendDone (CbFinalize 0 (IdStr "k") None (JStr "new") None
                                       (missReport 0 None))) noArgs ] p in
  _pendings p' !! "+k" = None /\ onces p' !! 0%nat = Some true.
Proof.
  intros p a1 a2.
  destruct (miss_round_trip plain utcDate p (IdStr "k") (KId (IdStr "k"))
              [{| w_callback := 1; w_domain := None |}] 7 a1 a2 noArgs)
    as (_ & H1 & H2); try reflexivity; try discriminate.
  split; [exact H1 | exact H2].
Defined.

Lemma orderly_run_never_throws_witness :
  (step plain utcDate (Fire (OnBackendDone (CbFinalize 0 (IdStr "k") None (JStr "new") (Some 0%nat)
                                        (staleReport 3 1000))) noArgs)
        (run plain utcDate (take 6 stuckTrace) (freshPolicy demoRule true))).1 = Ok tt.
Proof.
  apply (orderly_run_never_throws plain utcDate stuckTrace (freshPolicy demoRule true)
           ltac:(vm_compute; reflexivity) (take 6 stuckTrace) _ (List.skipn 7 stuckTrace)).
  - reflexivity.
  - discriminate.
Defined.

(** Orderliness is needed: when the backend answers one lookup twice, the
    second reply finds no waiter list and [respond] throws. *)
Example double_reply_throws :
  orderly plain utcDate doubleReply (freshPolicy localRule true) [] = false
  /\ (step plain utcDate (Fire (OnGet (IdStr "k") (KId (IdStr "k"))) noArgs)
           (run plain utcDate (take 2 doubleReply) (freshPolicy localRule true))).1
     = Throws "TypeError: Cannot read property 'length' of undefined".
Proof. split; vm_compute; reflexivity. Qed.
